(** * DataSourceUnsupervised: segments, negative sampling and batch iteration

    A shallow embedding of [src/tasks/response_eval/data_source_unsupervised.py]
    and the properties its specification states about it.

    Python objects that the code shares and mutates (utterance dicts, their
    [utterance_meta] dicts) live in an explicit store and are named by their
    address; lists that are never mutated after they are built (a session's
    utterance list, the pool, the segment list) are plain lists of addresses.
    The process-wide random source is a finite script of draws. *)

From Stdlib Require Import ZArith Floats Uint63 Lia Ascii String.
From stdpp Require Import gmap list strings.

Open Scope Z_scope.

(** ** Exceptions and results *)

(** The Python exceptions the modelled code can raise. *)
Inductive exn : Type :=
  | ZeroDivisionError
  | ValueError
  | IndexError
  | KeyError
  | AttributeError
  | RuntimeError
  | RecursionError.

(** A run of the model stops early on a Python exception, or for one of two
    reasons that are the model's own: the script of random draws is used up
    (the sampling loop would go on), or an address names no object (which
    cannot happen in Python: a reference keeps its object alive). *)
Inductive failure : Type :=
  | Exc (e : exn)
  | DrawsExhausted
  | NoSuchObject.

Inductive res (A : Type) : Type :=
  | Ret (a : A)
  | Fail (f : failure).
Arguments Ret {A} a.
Arguments Fail {A} f.

Definition raise {A} (e : exn) : res A := Fail (Exc e).

Definition res_bind {A B} (r : res A) (k : A -> res B) : res B :=
  match r with
  | Ret a => k a
  | Fail f => Fail f
  end.

Definition from_option {A} (f : failure) (o : option A) : res A :=
  match o with
  | Some a => Ret a
  | None => Fail f
  end.

(** ** Python sequences *)

(** [l[lo:hi]] with Python's treatment of negative and out-of-range bounds. *)
Definition slice_bound (len i : Z) : Z :=
  if i <? 0 then Z.max 0 (i + len) else Z.min i len.

Definition py_slice {A} (l : list A) (lo hi : Z) : list A :=
  let len := Z.of_nat (length l) in
  let a := slice_bound len lo in
  let b := slice_bound len hi in
  take (Z.to_nat (b - a)) (drop (Z.to_nat a) l).

(** [l[i]] for an index that may be negative: [IndexError] out of range. *)
Definition py_index {A} (l : list A) (i : Z) : res A :=
  let len := Z.of_nat (length l) in
  let j := if i <? 0 then i + len else i in
  if (j <? 0) || (len <=? j) then raise IndexError
  else from_option (Exc IndexError) (l !! Z.to_nat j).

(** [range(lo, hi)] *)
Definition py_range (lo hi : Z) : list Z :=
  (fun k => lo + Z.of_nat k) <$> seq 0 (Z.to_nat (hi - lo)).

(** [len(text.split(" "))]: one piece more than there are spaces. *)
Fixpoint count_spaces (s : string) : nat :=
  match s with
  | EmptyString => 0%nat
  | String c s' =>
      ((if Ascii.eqb c " "%char then 1 else 0) + count_spaces s')%nat
  end.

Definition split_len (s : string) : Z := Z.of_nat (S (count_spaces s)).

(** ** The dissimilarity test *)

(** [len(s)] of a Python collection as the float that [/] turns it into.
    Lengths stay far below [2^53], where the conversion is exact. *)
Definition float_of_len (n : nat) : float :=
  PrimFloat.of_uint63 (Uint63.of_Z (Z.of_nat n)).

(** The literal [0.8]: the binary64 value nearest to 4/5. *)
Definition threshold : float := 0x1.999999999999ap-1%float.

(** [int / int]: true division, [ZeroDivisionError] on a zero divisor. *)
Definition true_div (a b : nat) : res float :=
  if decide (b = 0%nat) then raise ZeroDivisionError
  else Ret (float_of_len a / float_of_len b)%float.

Definition id_set (ids : list Z) : gset Z := list_to_set ids.

(** The coverage score of line 95, as the float the code computes. *)
Definition coverage_score (ids1 ids2 : list Z) : res float :=
  let id_set1 := id_set ids1 in
  let id_set2 := id_set ids2 in
  let intersection := id_set1 ∩ id_set2 in
  res_bind (true_div (size intersection) (size id_set1)) (fun q1 =>
  res_bind (true_div (size intersection) (size id_set2)) (fun q2 =>
  Ret ((q1 + q2) / 2)%float)).

Definition _are_different_uttrs (ids1 ids2 : list Z) : res bool :=
  res_bind (coverage_score ids1 ids2) (fun score =>
  if (score <? threshold)%float then Ret true else Ret false).

(** ** The object store *)

(** Objects are named by their position in the store. *)
Abbreviation addr := nat (only parsing).

(** An utterance dict once the constructor has tokenized it.  The key
    ["utterance_meta"] holds a reference to a dict of its own. *)
Record utterance : Type := Utterance {
  text : string;
  floor : string;
  tokens : list string;
  token_ids : list Z;
  floor_id : Z;
  is_next : bool;
  utterance_meta : addr
}.

(** An [utterance_meta] dict.  The data source reads and writes one key of
    it, ["reference_uttr"], which may be absent. *)
Record meta : Type := Meta {
  reference_uttr : option addr
}.

Record store : Type := Store {
  uttrs : list utterance;
  metas : list meta
}.

Definition empty_store : store := Store [] [].

Definition with_is_next (b : bool) (u : utterance) : utterance :=
  Utterance (text u) (floor u) (tokens u) (token_ids u) (floor_id u) b
            (utterance_meta u).

Definition with_utterance_meta (m : addr) (u : utterance) : utterance :=
  Utterance (text u) (floor u) (tokens u) (token_ids u) (floor_id u)
            (is_next u) m.

(** ** Computations over the store and the random source *)

Record world : Type := World {
  w_store : store;
  w_draws : list nat
}.

Definition M (A : Type) : Type := world -> res (A * world).

Definition ret {A} (a : A) : M A := fun w => Ret (a, w).

Definition bind {A B} (c : M A) (k : A -> M B) : M B :=
  fun w => match c w with
           | Ret (a, w') => k a w'
           | Fail f => Fail f
           end.

Definition lift {A} (r : res A) : M A :=
  fun w => match r with
           | Ret a => Ret (a, w)
           | Fail f => Fail f
           end.

Declare Scope M_scope.
Delimit Scope M_scope with M.
Notation "x <- c ;; k" := (bind c (fun x => k))
  (at level 100, c at next level, right associativity) : M_scope.
Notation "c ;;; k" := (bind c (fun _ => k))
  (at level 100, k at level 200, right associativity) : M_scope.

Definition read_uttr (a : addr) : M utterance :=
  fun w => match uttrs (w_store w) !! a with
           | Some u => Ret (u, w)
           | None => Fail NoSuchObject
           end.

Definition read_meta (m : addr) : M meta :=
  fun w => match metas (w_store w) !! m with
           | Some mt => Ret (mt, w)
           | None => Fail NoSuchObject
           end.

Definition write_uttr (a : addr) (u : utterance) : M unit :=
  fun w => match uttrs (w_store w) !! a with
           | Some _ =>
               Ret (tt, World (Store (<[a := u]> (uttrs (w_store w)))
                                     (metas (w_store w)))
                              (w_draws w))
           | None => Fail NoSuchObject
           end.

Definition write_meta (m : addr) (mt : meta) : M unit :=
  fun w => match metas (w_store w) !! m with
           | Some _ =>
               Ret (tt, World (Store (uttrs (w_store w))
                                     (<[m := mt]> (metas (w_store w))))
                              (w_draws w))
           | None => Fail NoSuchObject
           end.

Definition alloc_uttr (u : utterance) : M addr :=
  fun w => Ret (length (uttrs (w_store w)),
                World (Store (uttrs (w_store w) ++ [u]) (metas (w_store w)))
                      (w_draws w)).

Definition alloc_meta (mt : meta) : M addr :=
  fun w => Ret (length (metas (w_store w)),
                World (Store (uttrs (w_store w)) (metas (w_store w) ++ [mt]))
                      (w_draws w)).

(** [for x in l: acc = body(acc, x)] *)
Fixpoint foldM {A B} (body : B -> A -> M B) (acc : B) (l : list A) : M B :=
  match l with
  | [] => ret acc
  | x :: l' => bind (body acc x) (fun acc' => foldM body acc' l')
  end.

(** [uttr["utterance_meta"]["reference_uttr"] = target] *)
Definition set_reference_uttr (a target : addr) : M unit :=
  (u <- read_uttr a ;;
   write_meta (utterance_meta u) (Meta (Some target)))%M.

(** [uttr["is_next"] = b] *)
Definition set_is_next (a : addr) (b : bool) : M unit :=
  (u <- read_uttr a ;;
   write_uttr a (with_is_next b u))%M.

(** ** [copy.deepcopy]

    A memoised traversal, as in the [copy] module: a dict is copied by
    making the new dict, recording it in the memo, and then filling its
    keys with the copies of the values; an object already in the memo is
    not copied again, which is what keeps shared and cyclic references
    shared and cyclic in the copy.  Strings, numbers and the token lists
    are values here and are copied as they are.  [fuel] bounds the depth
    of the recursion through ["reference_uttr"]. *)

Record copier : Type := Copier {
  c_store : store;
  memo_u : gmap addr addr;
  memo_m : gmap addr addr
}.

Fixpoint deepcopy_uttr (fuel : nat) (a : addr) (c : copier)
  : res (addr * copier) :=
  match memo_u c !! a with
  | Some a' => Ret (a', c)
  | None =>
    match fuel with
    | O => raise RecursionError
    | S fuel' =>
      match uttrs (c_store c) !! a with
      | None => Fail NoSuchObject
      | Some u =>
        let a' := length (uttrs (c_store c)) in
        let c1 := Copier (Store (uttrs (c_store c) ++ [u]) (metas (c_store c)))
                         (<[a := a']> (memo_u c)) (memo_m c) in
        let m := utterance_meta u in
        res_bind
          match memo_m c1 !! m with
          | Some m' => Ret (m', c1)
          | None =>
            match metas (c_store c1) !! m with
            | None => Fail NoSuchObject
            | Some mt =>
              let m' := length (metas (c_store c1)) in
              let c2 := Copier (Store (uttrs (c_store c1))
                                      (metas (c_store c1) ++ [Meta None]))
                               (memo_u c1) (<[m := m']> (memo_m c1)) in
              match reference_uttr mt with
              | None => Ret (m', c2)
              | Some r =>
                res_bind (deepcopy_uttr fuel' r c2) (fun '(r', c3) =>
                Ret (m', Copier (Store (uttrs (c_store c3))
                                       (<[m' := Meta (Some r')]>
                                          (metas (c_store c3))))
                                (memo_u c3) (memo_m c3)))
              end
            end
          end
          (fun '(m', c4) =>
           Ret (a', Copier (Store (<[a' := with_utterance_meta m' u]>
                                     (uttrs (c_store c4)))
                                  (metas (c_store c4)))
                           (memo_u c4) (memo_m c4)))
      end
    end
  end.

(** Deep copy of a list of utterance references, one memo for the whole. *)
Fixpoint deepcopy_list (fuel : nat) (l : list addr) (c : copier)
  : res (list addr * copier) :=
  match l with
  | [] => Ret ([], c)
  | a :: l' =>
      res_bind (deepcopy_uttr fuel a c) (fun '(a', c1) =>
      res_bind (deepcopy_list fuel l' c1) (fun '(l'', c2) =>
      Ret (a' :: l'', c2)))
  end.

(** Every nested call copies an utterance that is not in the memo yet, so
    one more than the number of utterances is depth enough. *)
Definition copy_fuel (st : store) : nat := S (length (uttrs st)).

Definition start_copy (st : store) : copier := Copier st ∅ ∅.

(** [copy.deepcopy(uttr)] *)
Definition deepcopy (a : addr) : M addr :=
  fun w =>
    match deepcopy_uttr (copy_fuel (w_store w)) a (start_copy (w_store w)) with
    | Ret (a', c) => Ret (a', World (c_store c) (w_draws w))
    | Fail f => Fail f
    end.

(** ** The random source *)

(** [random.choice(seq)]: [seq[randbelow(len(seq))]], the draw [d] standing
    for what the generator yields; [IndexError] on an empty sequence. *)
Definition random_choice {A} (l : list A) (d : nat) : res A :=
  match l with
  | [] => raise IndexError
  | _ => from_option (Exc IndexError) (l !! (d mod length l)%nat)
  end.

(** [x[i], x[j] = x[j], x[i]] *)
Definition swap {A} (l : list A) (i j : nat) : list A :=
  match l !! i, l !! j with
  | Some x, Some y => <[j := x]> (<[i := y]> l)
  | _, _ => l
  end.

(** [random.shuffle(x)]:
    [for i in reversed(range(1, len(x))): j = randbelow(i + 1); swap i j].
    [i] counts down from [len(x) - 1]; each step takes one draw. *)
Fixpoint shuffle_from {A} (i : nat) (l : list A) (draws : list nat)
  : res (list A * list nat) :=
  match i with
  | O => Ret (l, draws)
  | S i' =>
      match draws with
      | [] => Fail DrawsExhausted
      | d :: draws' => shuffle_from i' (swap l i (d mod S i)%nat) draws'
      end
  end.

Definition random_shuffle {A} (l : list A) : M (list A) :=
  fun w =>
    match shuffle_from (length l - 1)%nat l (w_draws w) with
    | Ret (l', draws') => Ret (l', World (w_store w) draws')
    | Fail f => Fail f
    end.

(** ** The tokenizer adapter and the configuration *)

(** The tokenizer is an external collaborator: the data source uses it
    through these operations only. *)
Class Tokenizer : Type := {
  convert_string_to_tokens : string -> list string;
  convert_tokens_to_ids : list string -> bool -> list Z;
  pad_token_id : Z
}.

Module config.

Record t : Type := Config {
  dataset_path : string;
  max_uttr_len : Z;
  history_len : Z
}.

End config.

(** The input: a collection of sessions, each a list of utterances with
    their text and floor label, as [json.load] yields them: every dict is
    an object of its own, and so is its ["utterance_meta"] dict. *)
Record raw_utterance : Type := RawUtterance {
  raw_text : string;
  raw_floor : string
}.

Definition dataset : Type := list (list raw_utterance).

(** ** The data source *)

Record stats : Type := Stats {
  n_sessions : Z;
  n_uttrs : Z;
  n_tokens : Z;
  n_segments : Z
}.

(** A segment dict: its ["utterances"] list (["segment_meta"] is an empty
    dict that nothing reads). *)
Record segment : Type := Segment {
  utterances : list addr
}.

(** The attributes of a [DataSourceUnsupervised] object.  [cur_segment_idx]
    and [segments] do not exist before the first [epoch_init]. *)
Record DataSourceUnsupervised : Type := DataSource {
  dataset_path : string;
  max_uttr_len : Z;
  history_len : Z;
  statistics : stats;
  utterance_pool : list addr;
  _segments : list segment;
  cur_segment_idx : option nat;
  segments : option (list segment)
}.

(** [["A", "B"].index(floor)] *)
Definition floor_index (fl : string) : res Z :=
  if String.eqb fl "A" then Ret 0
  else if String.eqb fl "B" then Ret 1
  else raise ValueError.

(** The sampling loop of lines 68-72: draw from the pool until a candidate
    passes the dissimilarity test.  It reads the store and consumes draws. *)
Fixpoint sample_loop (st : store) (pool : list addr) (pos_ids : list Z)
  (draws : list nat) : res (addr * list nat) :=
  match draws with
  | [] => Fail DrawsExhausted
  | d :: draws' =>
      res_bind (random_choice pool d) (fun negative_uttr =>
      res_bind (from_option NoSuchObject (uttrs st !! negative_uttr))
        (fun nu =>
      res_bind (_are_different_uttrs pos_ids (token_ids nu)) (fun different =>
      if different : bool then Ret (negative_uttr, draws')
      else sample_loop st pool pos_ids draws')))
  end.

Definition sample_negative (pool : list addr) (pos_ids : list Z) : M addr :=
  fun w =>
    match sample_loop (w_store w) pool pos_ids (w_draws w) with
    | Ret (a, draws') => Ret (a, World (w_store w) draws')
    | Fail f => Fail f
    end.

Section DataSource.

Context {tokenizer : Tokenizer}.

(** Lines 30-42 for one utterance: tokenize, truncate, convert to ids and
    complete the dict, which becomes an object of the store. *)
Definition process_uttr (max_uttr_len : Z) (raw : raw_utterance) : M addr :=
  (let text := raw_text raw in
   let floor := raw_floor raw in
   let tokens := py_slice (convert_string_to_tokens text) 0 max_uttr_len in
   let token_ids := convert_tokens_to_ids tokens true in
   floor_id <- lift (floor_index floor) ;;
   m <- alloc_meta (Meta None) ;;
   alloc_uttr (Utterance text floor tokens token_ids floor_id true m))%M.

Fixpoint mapM {A B} (f : A -> M B) (l : list A) : M (list B) :=
  match l with
  | [] => ret []
  | x :: l' => (y <- f x ;; ys <- mapM f l' ;; ret (y :: ys))%M
  end.

Definition process_sessions (max_uttr_len : Z) (data : dataset)
  : M (list (list addr)) :=
  mapM (mapM (process_uttr max_uttr_len)) data.

(** Lines 56-80: the positive and the negative segment of one end index. *)
Definition build_pair (history_len : Z) (pool uttrs : list addr)
  (segs : list segment) (segment_end_idx : Z) : M (list segment) :=
  (let segment_start_idx := Z.max 0 (segment_end_idx - history_len) in
   let segment :=
     Segment (py_slice uttrs segment_start_idx (segment_end_idx + 1)) in
   positive_uttr <- lift (py_index uttrs segment_end_idx) ;;
   set_reference_uttr positive_uttr positive_uttr ;;;
   let segs := segs ++ [segment] in
   pu <- read_uttr positive_uttr ;;
   let positive_uttr_token_ids := token_ids pu in
   negative_uttr <- sample_negative pool positive_uttr_token_ids ;;
   negative_uttr <- deepcopy negative_uttr ;;
   set_reference_uttr negative_uttr positive_uttr ;;;
   set_is_next negative_uttr false ;;;
   let segment :=
     Segment (py_slice uttrs segment_start_idx segment_end_idx
              ++ [negative_uttr]) in
   ret (segs ++ [segment]))%M.

Definition build_session (history_len : Z) (pool : list addr)
  (segs : list segment) (uttrs : list addr) : M (list segment) :=
  foldM (build_pair history_len pool uttrs) segs
        (py_range 1 (Z.of_nat (length uttrs))).

(** Lines 85-89, per utterance: [len(uttr["text"].split(" "))]. *)
Definition count_tokens (n : Z) (a : addr) : M Z :=
  (u <- read_uttr a ;; ret (n + split_len (text u)))%M.

(** [__init__]: returns the new object together with the sessions as the
    constructor leaves them (the input, its dicts completed in place). *)
Definition init (data : dataset) (cfg : config.t)
  : M (list (list addr) * DataSourceUnsupervised) :=
  (sessions <- process_sessions (config.max_uttr_len cfg) data ;;
   let utterance_pool := concat sessions in
   _segments <- foldM (build_session (config.history_len cfg) utterance_pool)
                      [] sessions ;;
   n_tokens <- foldM (foldM count_tokens) 0 sessions ;;
   let statistics :=
     Stats (Z.of_nat (length sessions))
           (foldl (fun n sess => n + Z.of_nat (length sess)) 0 sessions)
           n_tokens
           (Z.of_nat (length _segments)) in
   ret (sessions,
        DataSource (config.dataset_path cfg) (config.max_uttr_len cfg)
                   (config.history_len cfg) statistics utterance_pool
                   _segments None None))%M.

(** [__len__] *)
Definition len (self : DataSourceUnsupervised) : Z :=
  Z.of_nat (length (_segments self)).

(** *** [epoch_init] *)

(** [copy.deepcopy(self._segments)]: the list, its segment dicts and their
    utterance lists are new; the utterances are copied through one memo. *)
Fixpoint deepcopy_segs (fuel : nat) (segs : list segment) (c : copier)
  : res (list segment * copier) :=
  match segs with
  | [] => Ret ([], c)
  | seg :: segs' =>
      res_bind (deepcopy_list fuel (utterances seg) c) (fun '(l, c1) =>
      res_bind (deepcopy_segs fuel segs' c1) (fun '(segs'', c2) =>
      Ret (Segment l :: segs'', c2)))
  end.

Definition deepcopy_segments (segs : list segment) : M (list segment) :=
  fun w =>
    match deepcopy_segs (copy_fuel (w_store w)) segs
                        (start_copy (w_store w)) with
    | Ret (segs', c) => Ret (segs', World (c_store c) (w_draws w))
    | Fail f => Fail f
    end.

Definition set_iteration (cur : nat) (segs : list segment)
  (self : DataSourceUnsupervised) : DataSourceUnsupervised :=
  DataSource (dataset_path self) (max_uttr_len self) (history_len self)
             (statistics self) (utterance_pool self) (_segments self)
             (Some cur) (Some segs).

Definition epoch_init (shuffle : bool) (self : DataSourceUnsupervised)
  : M DataSourceUnsupervised :=
  if shuffle then
    (copied <- deepcopy_segments (_segments self) ;;
     shuffled <- random_shuffle copied ;;
     ret (set_iteration 0 shuffled self))%M
  else ret (set_iteration 0 (_segments self) self).

(** *** Tensors *)

(** Modelled from the spec: the tokenizer's [convert_batch_ids_to_tensor]
    is not part of the sources at hand.  It "pads to the batch's own max
    length, using a defined pad id"; a tensor of shape rows x columns is a
    list of rows. *)
Definition convert_batch_ids_to_tensor (batch_ids : list (list Z))
  : list (list Z) :=
  let max_len := foldr Nat.max 0%nat (length <$> batch_ids) in
  (fun ids => ids ++ replicate (max_len - length ids) pad_token_id)
    <$> batch_ids.

(** [t.view(d0, d1, -1)] of a two-dimensional tensor: the elements in
    row-major order, regrouped; [RuntimeError] when the shape does not fit
    the number of elements or leaves the last dimension undetermined. *)
Definition view3 (t : list (list Z)) (d0 d1 : nat)
  : res (list (list (list Z))) :=
  let flat := concat t in
  let n := length flat in
  if decide ((d0 * d1)%nat = 0%nat) then raise RuntimeError
  else if decide ((n mod (d0 * d1))%nat = 0%nat) then
    let d2 := (n / (d0 * d1))%nat in
    Ret ((fun i =>
            (fun j => take d2 (drop ((i * d1 + j) * d2) flat)) <$> seq 0 d1)
           <$> seq 0 d0)
  else raise RuntimeError.

(** [t.view(d0, d1)] of a one-dimensional tensor. *)
Definition view2 (t : list Z) (d0 d1 : nat) : res (list (list Z)) :=
  if decide (length t = (d0 * d1)%nat) then
    Ret ((fun i => take d1 (drop (i * d1) t)) <$> seq 0 d0)
  else raise RuntimeError.

(** *** [next] *)

(** The six lists that [next] fills. *)
Record collected : Type := Collected {
  cX : list (list Z);
  cY : list (list Z);
  cY_ref : list (list Z);
  cX_floor : list Z;
  cY_floor : list Z;
  cY_is_next : list bool
}.

Definition nothing_collected : collected := Collected [] [] [] [] [] [].

Record batch : Type := Batch {
  X : list (list (list Z));
  X_floor : list (list Z);
  Y : list (list Z);
  Y_ref : list (list Z);
  Y_floor : list Z;
  Y_is_next : list bool
}.

Definition get_uttr (st : store) (a : addr) : res utterance :=
  from_option NoSuchObject (uttrs st !! a).

Definition get_meta (st : store) (m : addr) : res meta :=
  from_option NoSuchObject (metas st !! m).

Fixpoint get_uttrs (st : store) (l : list addr) : res (list utterance) :=
  match l with
  | [] => Ret []
  | a :: l' =>
      res_bind (get_uttr st a) (fun u =>
      res_bind (get_uttrs st l') (fun us => Ret (u :: us)))
  end.

(** The token ids of the padding utterance of lines 122-129. *)
Definition empty_ids : list Z :=
  convert_tokens_to_ids (convert_string_to_tokens "") true.

(** Lines 143-162: what one accepted segment adds to the lists. *)
Definition emit_segment (st : store) (history_len : Z)
  (segment_uttrs : list addr) (acc : collected) : res collected :=
  res_bind (get_uttrs st (py_slice segment_uttrs 0 (-1))) (fun context =>
  let n_pad := Z.to_nat (history_len - Z.of_nat (length segment_uttrs) + 1) in
  let X := cX acc ++ (token_ids <$> context) ++ replicate n_pad empty_ids in
  let X_floor := cX_floor acc ++ (floor_id <$> context) ++ replicate n_pad 0 in
  res_bind (py_index segment_uttrs (-1)) (fun last =>
  res_bind (get_uttr st last) (fun uttr =>
  res_bind (get_meta st (utterance_meta uttr)) (fun mt =>
  res_bind (from_option (Exc KeyError) (reference_uttr mt)) (fun ref =>
  res_bind (get_uttr st ref) (fun ref_uttr =>
  Ret (Collected X (cY acc ++ [token_ids uttr])
                 (cY_ref acc ++ [token_ids ref_uttr])
                 X_floor (cY_floor acc ++ [floor_id uttr])
                 (cY_is_next acc ++ [is_next uttr])))))))).

(** Lines 135-162 after the cursor has moved: skip or emit. *)
Definition take_segment (st : store) (history_len : Z)
  (return_paired_Y : bool) (seg : segment) (acc : collected)
  : res collected :=
  let segment_uttrs := utterances seg in
  if return_paired_Y then
    res_bind (py_index segment_uttrs (-1)) (fun last =>
    res_bind (get_uttr st last) (fun uttr =>
    if is_next uttr then Ret acc
    else emit_segment st history_len segment_uttrs acc))
  else emit_segment st history_len segment_uttrs acc.

(** The loop of lines 131-162 over [rest], the segments from the cursor on:
    it stops when they run out or when [batch_size] targets are collected,
    and yields the cursor it leaves behind.  After an exception the cursor
    stays where the failing iteration put it. *)
Fixpoint next_loop (st : store) (history_len batch_size : Z)
  (return_paired_Y : bool) (rest : list segment) (cur : nat)
  (acc : collected) : nat * res collected :=
  match rest with
  | [] => (cur, Ret acc)
  | seg :: rest' =>
      if Z.of_nat (length (cY acc)) =? batch_size then (cur, Ret acc)
      else
        match take_segment st history_len return_paired_Y seg acc with
        | Ret acc' =>
            next_loop st history_len batch_size return_paired_Y rest'
                      (S cur) acc'
        | Fail f => (S cur, Fail f)
        end
  end.

(** Lines 164-188: the lists become tensors and the batch dict. *)
Definition assemble (acc : collected) : res batch :=
  let X := convert_batch_ids_to_tensor (cX acc) in
  let Y := convert_batch_ids_to_tensor (cY acc) in
  let Y_ref := convert_batch_ids_to_tensor (cY_ref acc) in
  let batch_size := length Y in
  if decide (batch_size = 0%nat) then raise ZeroDivisionError
  else
    let history_len := (length X / batch_size)%nat in
    res_bind (view3 X batch_size history_len) (fun X =>
    res_bind (view2 (cX_floor acc) batch_size history_len) (fun X_floor =>
    Ret (Batch X X_floor Y Y_ref (cY_floor acc) (cY_is_next acc)))).

(** [next]: the object after the call (its cursor) and what the call
    returns ([None] is the terminal signal) or raises. *)
Definition next (st : store) (batch_size : Z) (return_paired_Y : bool)
  (self : DataSourceUnsupervised)
  : DataSourceUnsupervised * res (option batch) :=
  match cur_segment_idx self, segments self with
  | Some cur, Some segs =>
      if decide (cur = length segs) then (self, Ret None)
      else
        let '(cur', collected) :=
          next_loop st (history_len self) batch_size return_paired_Y
                    (drop cur segs) cur nothing_collected in
        (set_iteration cur' segs self,
         res_bind collected (fun acc =>
         res_bind (assemble acc) (fun b => Ret (Some b))))
  | _, _ => (self, raise AttributeError)
  end.

End DataSource.

(** ** Vocabulary of the properties *)

Section Vocabulary.

Context {tokenizer : Tokenizer}.

(** The utterance dict that lines 31-42 make of an input utterance whose
    floor label is valid, its meta dict being at [m]. *)
Definition tokenized (max_uttr_len : Z) (raw : raw_utterance) (m : addr)
  : utterance :=
  let tokens :=
    py_slice (convert_string_to_tokens (raw_text raw)) 0 max_uttr_len in
  Utterance (raw_text raw) (raw_floor raw) tokens
            (convert_tokens_to_ids tokens true)
            (if String.eqb (raw_floor raw) "A" then 0 else 1) true m.

(** The cells that tokenizing [raws] appends, the first meta dict being
    at [m]. *)
Fixpoint tokenized_list (mlen : Z) (raws : list raw_utterance) (m : addr)
  : list utterance :=
  match raws with
  | [] => []
  | raw :: raws' => tokenized mlen raw m :: tokenized_list mlen raws' (S m)
  end.

(** The end indices the constructor visits: sessions in input order, and
    [1 .. len-1] in ascending order within each. *)
Definition end_points (sessions : list (list addr)) : list (list addr * Z) :=
  sess ← sessions; pair sess <$> py_range 1 (Z.of_nat (length sess)).

(** The context window of end index [e]: [uttrs[max(0, e-h) : e]]. *)
Definition context_of (h : Z) (uttrs : list addr) (e : Z) : list addr :=
  py_slice uttrs (Z.max 0 (e - h)) e.

Definition positive_segment (h : Z) (uttrs : list addr) (e : Z) : segment :=
  Segment (py_slice uttrs (Z.max 0 (e - h)) (e + 1)).

Definition negative_segment (h : Z) (uttrs : list addr) (e : Z) (n : addr)
  : segment :=
  Segment (context_of h uttrs e ++ [n]).

(** What one pass of lines 56-80 made: for end index [pair_end] of session
    [pair_session], the negative [pair_negative], copied from the pool
    utterance [pair_source]. *)
Record made_pair : Type := MadePair {
  pair_session : list addr;
  pair_end : Z;
  pair_source : addr;
  pair_negative : addr
}.

Definition pair_point (p : made_pair) : list addr * Z :=
  (pair_session p, pair_end p).

Definition pair_segments (h : Z) (p : made_pair) : list segment :=
  [positive_segment h (pair_session p) (pair_end p);
   negative_segment h (pair_session p) (pair_end p) (pair_negative p)].

(** The number of segments a session of [n] utterances contributes:
    [2 * (n - 1)] when [n >= 2], none otherwise. *)
Definition segment_count (n : nat) : nat :=
  if (n <=? 1)%nat then 0%nat else (2 * (n - 1))%nat.

End Vocabulary.

(** ** Invariants of the construction

    After tokenization the pool utterances are the cells [cells], at the
    addresses [n0], [n0+1], ..., the meta dict of the [i]-th being at
    [m0 + i]. *)

Section Invariants.

Variables (n0 m0 : nat) (cells : list utterance).

(** The pool cells are in place and their meta dicts hold no reference or
    a reference to their own utterance. *)
Definition store_inv (st : store) : Prop :=
  (forall i c, cells !! i = Some c -> uttrs st !! (n0 + i)%nat = Some c) /\
  (n0 + length cells <= length (uttrs st))%nat /\
  (m0 + length cells <= length (metas st))%nat /\
  (forall i, (i < length cells)%nat ->
     metas st !! (m0 + i)%nat = Some (Meta None) \/
     metas st !! (m0 + i)%nat = Some (Meta (Some (n0 + i)%nat))).

(** How the store may change while segments are built: utterance cells are
    only added, meta dicts outside the pool's are only added, and a pool
    utterance that refers to itself goes on doing so. *)
Definition evolves (st st' : store) : Prop :=
  uttrs st `prefix_of` uttrs st' /\
  (length (metas st) <= length (metas st'))%nat /\
  (forall m, (m0 + length cells <= m)%nat -> (m < length (metas st))%nat ->
     metas st' !! m = metas st !! m) /\
  (forall i, (i < length cells)%nat ->
     metas st !! (m0 + i)%nat = Some (Meta (Some (n0 + i)%nat)) ->
     metas st' !! (m0 + i)%nat = Some (Meta (Some (n0 + i)%nat))).

(** The facts about a pair that the constructor has made: its positive is
    the pool utterance [n0 + i], its negative is a cell outside the pool
    with the fields of the pool utterance [n0 + j] that passed the test,
    [is_next] false, and a meta dict of its own that refers to the
    positive; the positive refers to itself. *)
Definition made_ok (st : store) (p : made_pair) : Prop :=
  exists i j pu qu m,
    pair_session p !! Z.to_nat (pair_end p) = Some (n0 + i)%nat /\
    cells !! i = Some pu /\
    pair_source p = (n0 + j)%nat /\
    cells !! j = Some qu /\
    _are_different_uttrs (token_ids pu) (token_ids qu) = Ret true /\
    (n0 + length cells <= pair_negative p)%nat /\
    uttrs st !! pair_negative p =
      Some (with_is_next false (with_utterance_meta m qu)) /\
    (m0 + length cells <= m)%nat /\
    metas st !! m = Some (Meta (Some (n0 + i)%nat)) /\
    metas st !! (m0 + i)%nat = Some (Meta (Some (n0 + i)%nat)).

(** The utterances that segments are made of: the pool utterances and the
    negatives. *)
Definition in_segments (mades : list made_pair) (x : addr) : Prop :=
  (n0 <= x < n0 + length cells)%nat \/
  exists p, p ∈ mades /\ x = pair_negative p.

End Invariants.

(** ** What a batch is made of

    [next] reads a segment through a few fields of its utterances.  A
    [sample] holds those: the token ids and floor ids of the context, the
    target's token ids, floor id and flag, and the token ids of the
    utterance the target's meta dict refers to. *)

Record sample : Type := Sample {
  s_context : list (list Z * Z);
  s_target_ids : list Z;
  s_target_floor : Z;
  s_is_next : bool;
  s_ref_ids : list Z
}.

Section Samples.

Context {tokenizer : Tokenizer}.

Definition ids_and_floor (u : utterance) : list Z * Z :=
  (token_ids u, floor_id u).

(** The sample of a segment's utterance list, read as lines 140-162 read
    it; it fails where they would. *)
Definition sample_of (st : store) (segment_uttrs : list addr) : res sample :=
  res_bind (get_uttrs st (py_slice segment_uttrs 0 (-1))) (fun context =>
  res_bind (py_index segment_uttrs (-1)) (fun last =>
  res_bind (get_uttr st last) (fun uttr =>
  res_bind (get_meta st (utterance_meta uttr)) (fun mt =>
  res_bind (from_option (Exc KeyError) (reference_uttr mt)) (fun ref =>
  res_bind (get_uttr st ref) (fun ref_uttr =>
  Ret (Sample (ids_and_floor <$> context) (token_ids uttr) (floor_id uttr)
              (is_next uttr) (token_ids ref_uttr)))))))).

(** The number of padding slots of a sample: [history_len - len + 1]. *)
Definition n_pad (h : Z) (s : sample) : nat :=
  Z.to_nat (h - Z.of_nat (S (length (s_context s))) + 1).

(** The [X] and [X_floor] entries of a sample: the context utterances
    first, the padding after them. *)
Definition sample_rows (h : Z) (s : sample) : list (list Z) :=
  (fst <$> s_context s) ++ replicate (n_pad h s) empty_ids.

Definition sample_floors (h : Z) (s : sample) : list Z :=
  (snd <$> s_context s) ++ replicate (n_pad h s) 0.

(** The [X] entries of a sample if the padding came first, to the left of
    the context utterances. *)
Definition left_padded_rows (h : Z) (s : sample) : list (list Z) :=
  replicate (n_pad h s) empty_ids ++ (fst <$> s_context s).

(** What an accepted sample adds to the six lists. *)
Definition emit (h : Z) (acc : collected) (s : sample) : collected :=
  Collected (cX acc ++ sample_rows h s)
            (cY acc ++ [s_target_ids s])
            (cY_ref acc ++ [s_ref_ids s])
            (cX_floor acc ++ sample_floors h s)
            (cY_floor acc ++ [s_target_floor s])
            (cY_is_next acc ++ [s_is_next s]).

(** A segment is skipped when paired targets are asked for and its target
    is a true next utterance. *)
Definition skipped (return_paired_Y : bool) (s : sample) : bool :=
  return_paired_Y && s_is_next s.

Definition accepted (return_paired_Y : bool) (ss : list sample)
  : list sample :=
  filter (fun s => skipped return_paired_Y s = false) ss.

(** The number of segments the loop examines: it stops before the first
    segment that would be one too many. *)
Fixpoint examined (batch_size : Z) (return_paired_Y : bool)
  (ss : list sample) (collected_so_far : nat) : nat :=
  match ss with
  | [] => 0%nat
  | s :: ss' =>
      if Z.of_nat collected_so_far =? batch_size then 0%nat
      else S (examined batch_size return_paired_Y ss'
                (if skipped return_paired_Y s then collected_so_far
                 else S collected_so_far))
  end.

(** One row of a tensor: the ids, then padding up to the width. *)
Definition pad_row (width : nat) (ids : list Z) : list Z :=
  ids ++ replicate (width - length ids) pad_token_id.

Definition max_len (batch_ids : list (list Z)) : nat :=
  foldr Nat.max 0%nat (length <$> batch_ids).

(** The batch that a run of accepted samples makes: per sample, its rows
    padded to the width of the longest row of the batch. *)
Definition batch_of (h : Z) (l : list sample) : batch :=
  let width := max_len (concat (sample_rows h <$> l)) in
  Batch ((fun s => pad_row width <$> sample_rows h s) <$> l)
        (sample_floors h <$> l)
        (convert_batch_ids_to_tensor (s_target_ids <$> l))
        (convert_batch_ids_to_tensor (s_ref_ids <$> l))
        (s_target_floor <$> l)
        (s_is_next <$> l).

(** The samples of the segments from the cursor on. *)
Definition samples_from (st : store) (segs : list segment) (cur : nat)
  (ss : list sample) : Prop :=
  Forall2 (fun seg s => sample_of st (utterances seg) = Ret s)
          (drop cur segs) ss.

End Samples.

(** ** The samples of the segments the constructor builds *)

(** The token ids and floor ids of the context window of end index [e] of
    the session [sess], as the store [st] has them. *)
Definition context_sample (st : store) (h : Z) (sess : list addr) (e : Z)
  (ctx : list (list Z * Z)) : Prop :=
  exists us, get_uttrs st (context_of h sess e) = Ret us /\
             ctx = ids_and_floor <$> us.

(** [s] is the sample of the positive segment of end index [e] of [sess]:
    its target is the utterance at [e], which is its own reference. *)
Definition positive_sample (st : store) (h : Z) (sess : list addr) (e : Z)
  (s : sample) : Prop :=
  exists pos pu,
    sess !! Z.to_nat e = Some pos /\ uttrs st !! pos = Some pu /\
    context_sample st h sess e (s_context s) /\
    s_target_ids s = token_ids pu /\ s_target_floor s = floor_id pu /\
    s_is_next s = true /\ s_ref_ids s = token_ids pu.

(** [s] is the sample of a negative segment of end index [e] of [sess]:
    the same context, a target that is not the next utterance, and the
    utterance at [e] as its reference. *)
Definition negative_sample (st : store) (h : Z) (sess : list addr) (e : Z)
  (s : sample) : Prop :=
  exists pos pu,
    sess !! Z.to_nat e = Some pos /\ uttrs st !! pos = Some pu /\
    context_sample st h sess e (s_context s) /\
    s_is_next s = false /\ s_ref_ids s = token_ids pu.

(** The samples of the two segments of one end index. *)
Definition pair_sampled (st : store) (h : Z) (point : list addr * Z)
  (sp : sample * sample) : Prop :=
  positive_sample st h point.1 point.2 sp.1 /\
  negative_sample st h point.1 point.2 sp.2.

Definition pair_list (sp : sample * sample) : list sample := [sp.1; sp.2].

(** [s] is the sample of a segment of some end index of some session. *)
Definition known_sample (st : store) (h : Z) (sessions : list (list addr))
  (s : sample) : Prop :=
  exists sess e,
    sess ∈ sessions /\ (1 <= e < Z.of_nat (length sess))%Z /\
    (Z.of_nat (length (s_context s)) <= h)%Z /\
    (positive_sample st h sess e s \/ negative_sample st h sess e s).

(** ** Invariants of a deep copy

    [st] is the store when the copy starts. *)

Section CopyInvariants.

Variable st : store.

(** A set of utterances of [st] that is closed under "the utterance that
    my meta dict refers to". *)
Definition closed_under_reference (R : addr -> Prop) : Prop :=
  forall x, R x ->
    exists u mt,
      uttrs st !! x = Some u /\
      metas st !! utterance_meta u = Some mt /\
      (forall r, reference_uttr mt = Some r -> R r).

(** The originals are untouched, every utterance in the memo has a copy
    with its fields, and every meta dict in the memo has a copy. *)
Definition copy_ok (c : copier) : Prop :=
  uttrs st `prefix_of` uttrs (c_store c) /\
  metas st `prefix_of` metas (c_store c) /\
  (forall x x', memo_u c !! x = Some x' ->
     exists u m, uttrs st !! x = Some u /\
                 uttrs (c_store c) !! x' = Some (with_utterance_meta m u)) /\
  (forall m m', memo_m c !! m = Some m' ->
     (m' < length (metas (c_store c)))%nat).

(** The copy of [x] has the copy of [x]'s meta dict. *)
Definition linked (c : copier) (x : addr) : Prop :=
  exists x' u m',
    memo_u c !! x = Some x' /\ uttrs st !! x = Some u /\
    uttrs (c_store c) !! x' = Some (with_utterance_meta m' u) /\
    memo_m c !! utterance_meta u = Some m'.

(** The copy of the meta dict [m] refers to the copy of what [m] refers
    to. *)
Definition meta_done (c : copier) (m : addr) : Prop :=
  exists m' mt,
    memo_m c !! m = Some m' /\ metas st !! m = Some mt /\
    metas (c_store c) !! m' = Some (Meta (reference_uttr mt ≫= (memo_u c !!.))) /\
    (forall r, reference_uttr mt = Some r -> is_Some (memo_u c !! r)).

Definition all_done (c : copier) : Prop :=
  (forall x, is_Some (memo_u c !! x) -> linked c x) /\
  (forall m, is_Some (memo_m c !! m) -> meta_done c m).

End CopyInvariants.

(** A copier only adds: cells that exist stay as they are, and so do the
    entries of the memo. *)
Definition copier_ext (c c' : copier) : Prop :=
  uttrs (c_store c) `prefix_of` uttrs (c_store c') /\
  metas (c_store c) `prefix_of` metas (c_store c') /\
  memo_u c ⊆ memo_u c' /\ memo_m c ⊆ memo_m c'.

(** ** The states of a data source *)

(** What a call of the copier guarantees: the invariant, that it only
    added, and that what it put into the memo is finished, in cells that
    did not exist before. *)
Definition copier_post (st : store) (c c' : copier) : Prop :=
  copy_ok st c' /\ copier_ext c c' /\
  (forall x x', memo_u c !! x = None -> memo_u c' !! x = Some x' ->
     linked st c' x /\ (length (uttrs (c_store c)) <= x')%nat) /\
  (forall m m', memo_m c !! m = None -> memo_m c' !! m = Some m' ->
     meta_done st c' m /\ (length (metas (c_store c)) <= m')%nat).

(** A store that only grew. *)
Definition store_ext (st st' : store) : Prop :=
  uttrs st `prefix_of` uttrs st' /\ metas st `prefix_of` metas st'.

(** The cursor is within the epoch's segments, which are as many as the
    constructed ones. *)
Definition cursor_ok (ds : DataSourceUnsupervised) : Prop :=
  match cur_segment_idx ds, segments ds with
  | Some cur, Some segs =>
      (cur <= length segs)%nat /\ length segs = length (_segments ds)
  | None, None => True
  | _, _ => False
  end.

(** The float [1.0]. *)
Definition SF_one : spec_float := S754_finite false 4503599627370496 (-52).

Section Reachability.

Context {tokenizer : Tokenizer}.
Variables (data : dataset) (cfg : config.t) (w0 : world).

(** The states that a data source built from [data] goes through: the
    constructor, then any sequence of [epoch_init] and [next] calls.  The
    random source may be used by others in between. *)
Inductive reachable
  : list (list addr) -> DataSourceUnsupervised -> world -> Prop :=
  | reach_init sessions ds w :
      init data cfg w0 = Ret (sessions, ds, w) ->
      reachable sessions ds w
  | reach_epoch_init sessions ds w shuffle ds' w' :
      reachable sessions ds w ->
      epoch_init shuffle ds w = Ret (ds', w') ->
      reachable sessions ds' w'
  | reach_next sessions ds w batch_size return_paired_Y ds' r :
      reachable sessions ds w ->
      next (w_store w) batch_size return_paired_Y ds = (ds', r) ->
      reachable sessions ds' w
  | reach_draws sessions ds w draws :
      reachable sessions ds w ->
      reachable sessions ds (World (w_store w) draws).

(** The segments of the current epoch have samples, and these are, up to
    their order, the samples of the constructed segments. *)
Definition epoch_ok (st : store) (ds : DataSourceUnsupervised) : Prop :=
  match cur_segment_idx ds, segments ds with
  | Some cur, Some segs =>
      (cur <= length segs)%nat /\
      exists ss ss0,
        Forall2 (fun seg s => sample_of st (utterances seg) = Ret s) segs ss /\
        Forall2 (fun seg s => sample_of st (utterances seg) = Ret s)
                (_segments ds) ss0 /\
        ss ≡ₚ ss0
  | None, None => True
  | _, _ => False
  end.

(** The invariant of the reachable states. *)
Definition source_ok (sessions : list (list addr))
  (ds : DataSourceUnsupervised) (w : world) : Prop :=
  let n0 := length (uttrs (w_store w0)) in
  let m0 := length (metas (w_store w0)) in
  let cells := tokenized_list (config.max_uttr_len cfg) (concat data) m0 in
  let h := config.history_len cfg in
  history_len ds = h /\
  concat sessions = seq n0 (length cells) /\
  store_inv n0 m0 cells (w_store w) /\
  (exists mades,
     _segments ds = mades ≫= pair_segments h /\
     pair_point <$> mades = end_points sessions /\
     Forall (made_ok n0 m0 cells (w_store w)) mades) /\
  epoch_ok (w_store w) ds.

End Reachability.

(** ** Sequences of calls *)

Section Calls.

Context {tokenizer : Tokenizer}.

(** The object after a sequence of [next] calls, each given by its batch
    size and its [return_paired_Y]. *)
Fixpoint after_calls (st : store) (calls : list (Z * bool))
  (ds : DataSourceUnsupervised) : DataSourceUnsupervised :=
  match calls with
  | [] => ds
  | (batch_size, return_paired_Y) :: calls' =>
      after_calls st calls' (next st batch_size return_paired_Y ds).1
  end.

(** The caller's loop: unfiltered batches of [batch_size] until [next]
    returns [None] (or raises); [fuel] bounds the number of calls. *)
Fixpoint drain (fuel : nat) (st : store) (batch_size : Z)
  (ds : DataSourceUnsupervised) : list batch :=
  match fuel with
  | O => []
  | S fuel' =>
      match next st batch_size false ds with
      | (ds', Ret (Some b)) => b :: drain fuel' st batch_size ds'
      | _ => []
      end
  end.

End Calls.

(** ** A sample tokenizer and a sample dataset

    Used where a property is exercised on a concrete input: words are
    separated by spaces, a word's id is computed from its characters, and
    [bos], [eos] and [pad] are 1, 2 and 0. *)

Fixpoint split_words (cur : string) (s : string) : list string :=
  match s with
  | EmptyString => if String.eqb cur "" then [] else [cur]
  | String c s' =>
      if Ascii.eqb c " "%char then
        (if String.eqb cur "" then split_words "" s'
         else cur :: split_words "" s')
      else split_words (cur ++ String c EmptyString)%string s'
  end.

Fixpoint word_id (s : string) : Z :=
  match s with
  | EmptyString => 0
  | String c s' => Z.of_nat (nat_of_ascii c) + 31 * word_id s'
  end.

Definition sample_ids (toks : list string) (bos_and_eos : bool) : list Z :=
  let ids := (fun t => 3 + word_id t) <$> toks in
  if bos_and_eos then [1] ++ ids ++ [2] else ids.

Definition sample_tokenizer : Tokenizer :=
  {| convert_string_to_tokens := split_words "";
     convert_tokens_to_ids := sample_ids;
     pad_token_id := 0 |}.

(** The session of the end-to-end example of the specification. *)
Definition sample_data : dataset :=
  [[RawUtterance "hi" "A"; RawUtterance "hello there" "B";
    RawUtterance "how are you" "A"]].

Definition sample_config : config.t := config.Config "data.json" 40 5.

Definition sample_world : world :=
  World empty_store [0; 1; 2; 0; 1; 2; 0; 1]%nat.

Definition sample_init
  : res (list (list addr) * DataSourceUnsupervised * world) :=
  Eval vm_compute in
    @init sample_tokenizer sample_data sample_config sample_world.

Definition sample_sessions : list (list addr) :=
  Eval vm_compute in
    match sample_init with Ret (s, _, _) => s | Fail _ => [] end.

Definition sample_world' : world :=
  Eval vm_compute in
    match sample_init with Ret (_, _, w) => w | Fail _ => sample_world end.

Definition sample_source : DataSourceUnsupervised :=
  Eval vm_compute in
    match sample_init with
    | Ret (_, ds, _) => ds
    | Fail _ => DataSource "" 0 0 (Stats 0 0 0 0) [] [] None None
    end.

(** The sample source once an epoch is started without shuffling, and
    after a first batch of four has been taken. *)
Definition sample_epoch : DataSourceUnsupervised :=
  Eval vm_compute in
    match @epoch_init false sample_source sample_world' with
    | Ret (ds, _) => ds
    | Fail _ => sample_source
    end.

Definition sample_drained : DataSourceUnsupervised :=
  Eval vm_compute in
    (@next sample_tokenizer (w_store sample_world') 4 false sample_epoch).1.

(** The sample source once an epoch is started with shuffling, the world
    that this leaves, and the source after a first batch of two paired
    targets has been taken. *)
Definition sample_shuffled_run : res (DataSourceUnsupervised * world) :=
  Eval vm_compute in @epoch_init true sample_source sample_world'.

Definition sample_shuffled : DataSourceUnsupervised :=
  Eval vm_compute in
    match sample_shuffled_run with
    | Ret (ds, _) => ds
    | Fail _ => sample_source
    end.

Definition sample_shuffled_world : world :=
  Eval vm_compute in
    match sample_shuffled_run with
    | Ret (_, w) => w
    | Fail _ => sample_world'
    end.

Definition sample_shuffled_next : DataSourceUnsupervised :=
  Eval vm_compute in
    (@next sample_tokenizer (w_store sample_shuffled_world) 2 true
           sample_shuffled).1.

(** ** The caller's loop over an epoch

    [while True: batch = source.next(batch_size, paired);
                 if batch is None: break],
    as the training script drives a data source.  The result is [None] when
    [fuel] calls were not enough to reach the end; otherwise the object the
    loop leaves and the batches it got, or the exception that ended it. *)

Section EpochLoop.

Context {tokenizer : Tokenizer}.

Fixpoint epoch_batches (fuel : nat) (st : store) (batch_size : Z)
  (return_paired_Y : bool) (ds : DataSourceUnsupervised)
  : option (DataSourceUnsupervised * res (list batch)) :=
  match fuel with
  | O => None
  | S fuel' =>
      match next st batch_size return_paired_Y ds with
      | (ds', Ret None) => Some (ds', Ret [])
      | (ds', Ret (Some b)) =>
          match epoch_batches fuel' st batch_size return_paired_Y ds' with
          | Some (ds'', Ret bs) => Some (ds'', Ret (b :: bs))
          | other => other
          end
      | (ds', Fail f) => Some (ds', Fail f)
      end
  end.

End EpochLoop.

(** The sizes of the batches of an epoch of [n] targets taken [bs] at a
    time: full batches, and a last smaller one when [bs] does not divide
    [n]. *)
Definition batch_sizes (n bs : nat) : list nat :=
  replicate (n / bs)%nat bs
  ++ (if (n mod bs =? 0)%nat then [] else [(n mod bs)%nat]).

(** An input utterance whose floor label the constructor accepts. *)
Definition valid_floor (raw : raw_utterance) : Prop :=
  raw_floor raw = "A"%string \/ raw_floor raw = "B"%string.

(** ** The training script

    [src/tasks/response_gen/train.py], the parts of it that are plain
    computations on strings, numbers and dicts. *)

Module train.

(** [str.lower] on ASCII text: the letters [A]-[Z] become [a]-[z], every
    other character is kept. *)
Definition lower_char (c : ascii) : ascii :=
  let n := nat_of_ascii c in
  if ((65 <=? n) && (n <=? 90))%nat then ascii_of_nat (n + 32) else c.

Fixpoint lower (s : string) : string :=
  match s with
  | EmptyString => EmptyString
  | String c s' => String (lower_char c) (lower s')
  end.

(** [v.lower() in ('true', '1', "True")] *)
Definition str2bool (v : string) : bool :=
  let l := lower v in
  String.eqb l "true" || String.eqb l "1" || String.eqb l "True".

(** ["A" if floor == 1 else "B"], the label under which the script logs a
    floor id. *)
Definition floor_label (floor : Z) : string :=
  if floor =? 1 then "A"%string else "B"%string.

Section Merge.

Context {V : Type}.

(** Lines 105-109: the entries of the corpus configuration whose key does
    not start with two underscores and is not an argument of the command
    line are collected, and the arguments are updated with them.  A dict is
    a finite map; the loop visits every entry once, and the order of the
    visits does not matter, the keys being distinct. *)
Definition collect_corpus_config (config corpus_config : gmap string V)
  : gmap string V :=
  map_fold (fun k v corpus_config_dict =>
              if negb (String.prefix "__" k)
                 && negb (bool_decide (is_Some (config !! k)))
              then <[k := v]> corpus_config_dict
              else corpus_config_dict)
           ∅ corpus_config.

(** [config.__dict__.update(corpus_config_dict)] *)
Definition merge_config (config corpus_config : gmap string V)
  : gmap string V :=
  collect_corpus_config config corpus_config ∪ config.

End Merge.

(** [n_step > 0 and n_step % period == 0]: whether a periodic action of the
    training loop is due; [and] does not evaluate its second operand when
    the first is false. *)
Definition due (n_step period : Z) : res bool :=
  if 0 <? n_step then
    if period =? 0 then raise ZeroDivisionError
    else Ret (n_step mod period =? 0)
  else Ret false.

End train.

#[local] Instance valid_floor_dec (raw : raw_utterance)
  : Decision (valid_floor raw).
Proof. unfold valid_floor. apply _. Defined.

(** How the sampling of a negative can fail: the draws run out (the loop
    would go on), or one of the utterances compared has no token id. *)
Definition sampling_failure (cells : list utterance) (f : failure) : Prop :=
  f = DrawsExhausted \/
  (f = Exc ZeroDivisionError /\
   exists c, c ∈ cells /\ token_ids c = []).

(** [u] is the input utterance [raw] as lines 31-42 complete it: the text
    and the floor label of [raw]; the tokenizer's tokens cut by the slice
    [[:mlen]], which keeps the first [mlen] of them when [mlen] is not
    negative and all but the last [-mlen] when it is; the token ids of the
    tokens that were kept; the floor id 0 for ["A"] and 1 for ["B"]. *)
Definition completes {tokenizer : Tokenizer} (mlen : Z)
  (raw : raw_utterance) (u : utterance) : Prop :=
  let all_tokens := convert_string_to_tokens (text u) in
  text u = raw_text raw /\ floor u = raw_floor raw /\
  tokens u = take (length (tokens u)) all_tokens /\
  (0 <= mlen ->
   Z.of_nat (length (tokens u)) = Z.min mlen (Z.of_nat (length all_tokens))) /\
  (mlen < 0 ->
   Z.of_nat (length (tokens u))
   = Z.max 0 (Z.of_nat (length all_tokens) + mlen)) /\
  token_ids u = convert_tokens_to_ids (tokens u) true /\
  ((floor u = "A"%string /\ floor_id u = 0) \/
   (floor u = "B"%string /\ floor_id u = 1)).

(** Every copy that the memo of a copier knows is a cell at [n] or
    beyond. *)
Definition fresh_memo (n : nat) (c : copier) : Prop :=
  forall x x', memo_u c !! x = Some x' -> (n <= x')%nat.

(** * Properties *)

(** ** Floating-point facts behind the dissimilarity test *)

Section FloatFacts.

Lemma SF64add_comm (x y : spec_float) : SF64add x y = SF64add y x.
Proof.
  destruct x as [sx|sx| |sx mx ex], y as [sy|sy| |sy my ey]; simpl;
    try reflexivity; try (destruct sx, sy; reflexivity).
  unfold SF64add, SFadd. rewrite (Z.min_comm ey ex).
  f_equal. apply Z.add_comm.
Qed.

Lemma float_add_comm (x y : float) : (x + y)%float = (y + x)%float.
Proof.
  apply Prim2SF_inj. rewrite !FloatAxioms.add_spec. apply SF64add_comm.
Qed.

Lemma div_eucl_shift (m : positive) :
  Z.div_eucl (Z.shiftl (Z.pos m) 53) (Z.pos m) = (9007199254740992, 0).
Proof.
  rewrite Z.shiftl_mul_pow2 by lia. rewrite Z.mul_comm.
  pose proof (Z.div_mul (2 ^ 53) (Z.pos m) ltac:(lia)) as Hq.
  pose proof (Z.mod_mul (2 ^ 53) (Z.pos m) ltac:(lia)) as Hr.
  unfold Z.div, Z.modulo in Hq, Hr.
  destruct (Z.div_eucl (2 ^ 53 * Z.pos m) (Z.pos m)) as [q r].
  subst q r. reflexivity.
Qed.

(** A finite non-zero float divided by itself is exactly one. *)
Lemma SF64div_self (s : bool) (m : positive) (e : Z) :
  SF64div (S754_finite s m e) (S754_finite s m e) = SF_one.
Proof.
  unfold SF64div, SFdiv, SFdiv_core_binary.
  replace (Zdigits2 (Z.pos m) + e - (Zdigits2 (Z.pos m) + e)) with 0 by lia.
  replace (e - e) with 0 by lia.
  change (fexp prec emax 0 `min` 0) with (-53).
  change (0 - -53) with 53.
  cbv iota beta.
  change IntDef.Z.div_eucl with Z.div_eucl.
  rewrite div_eucl_shift.
  assert (new_location (Z.pos m) 0 = loc_Exact) as ->.
  { unfold new_location. destruct (IntDef.Z.even (Z.pos m)); reflexivity. }
  destruct s; reflexivity.
Qed.

Lemma SFltb_self_coverage (f : spec_float) :
  SFltb (SF64div (SF64add (SF64div f f) (SF64div f f)) (Prim2SF 2))
        (Prim2SF threshold) = false.
Proof.
  destruct f as [s|s| |s m e]; try reflexivity.
  rewrite SF64div_self. vm_compute. reflexivity.
Qed.

(** Whatever float a set's size becomes, the score of a set against itself
    is not below the threshold. *)
Lemma self_coverage_not_below (f : float) :
  ((f / f + f / f) / 2 <? threshold)%float = false.
Proof.
  rewrite FloatAxioms.ltb_spec, FloatAxioms.div_spec, FloatAxioms.add_spec,
    !FloatAxioms.div_spec.
  apply SFltb_self_coverage.
Qed.

End FloatFacts.

(** ** The dissimilarity test *)

Lemma true_div_ret (a b : nat) :
  (0 < b)%nat -> true_div a b = Ret (float_of_len a / float_of_len b)%float.
Proof. intros Hb. unfold true_div. case_decide; [lia | reflexivity]. Qed.

Lemma true_div_zero (a : nat) : true_div a 0 = raise ZeroDivisionError.
Proof. reflexivity. Qed.

Lemma true_div_inv (a b : nat) (q : float) :
  true_div a b = Ret q ->
  (0 < b)%nat /\ q = (float_of_len a / float_of_len b)%float.
Proof.
  unfold true_div. case_decide; [discriminate |].
  intros [= <-]. split; [lia | reflexivity].
Qed.

(** The score does not depend on the order of its arguments, and neither
    does the exception when a set is empty. *)
Lemma coverage_score_comm (ids1 ids2 : list Z) :
  coverage_score ids1 ids2 = coverage_score ids2 ids1.
Proof.
  unfold coverage_score.
  rewrite (comm_L (∩) (id_set ids2) (id_set ids1)).
  set (i := size (id_set ids1 ∩ id_set ids2)).
  destruct (decide (size (id_set ids1) = 0%nat)) as [E1|N1],
           (decide (size (id_set ids2) = 0%nat)) as [E2|N2].
  - rewrite E1, E2. reflexivity.
  - rewrite E1. rewrite (true_div_ret i (size (id_set ids2))) by lia.
    reflexivity.
  - rewrite E2. rewrite (true_div_ret i (size (id_set ids1))) by lia.
    reflexivity.
  - rewrite !true_div_ret by lia. simpl. f_equal. f_equal.
    apply float_add_comm.
Qed.

Lemma are_different_uttrs_comm (ids1 ids2 : list Z) :
  _are_different_uttrs ids1 ids2 = _are_different_uttrs ids2 ids1.
Proof. unfold _are_different_uttrs. by rewrite coverage_score_comm. Qed.

(** The test accepts exactly when the score is below the threshold. *)
Lemma are_different_uttrs_spec (ids1 ids2 : list Z) (b : bool) :
  _are_different_uttrs ids1 ids2 = Ret b <->
  exists score, coverage_score ids1 ids2 = Ret score /\
                b = (score <? threshold)%float.
Proof.
  unfold _are_different_uttrs.
  destruct (coverage_score ids1 ids2) as [score|f]; simpl.
  - split.
    + intros H. exists score. split; [reflexivity |].
      destruct (score <? threshold)%float; congruence.
    + intros (s & [= <-] & ->). by destruct (score <? threshold)%float.
  - split; [discriminate | intros (s & Hs & _); discriminate].
Qed.

(** An utterance is never different from itself. *)
Lemma are_different_uttrs_self (ids : list Z) :
  _are_different_uttrs ids ids <> Ret true.
Proof.
  intros H.
  destruct (proj1 (are_different_uttrs_spec _ _ _) H) as (score & Hs & Hb).
  unfold coverage_score in Hs.
  rewrite (idemp_L (∩) (id_set ids)) in Hs.
  destruct (true_div (size (id_set ids)) (size (id_set ids))) as [q|] eqn:Hq;
    [|discriminate].
  apply true_div_inv in Hq as [_ ->]. simpl in Hs. injection Hs as <-.
  rewrite self_coverage_not_below in Hb. discriminate.
Qed.

(** C10: for token-id sequences whose sets of unique ids are both non-empty,
    [_are_different_uttrs a b] and [_are_different_uttrs b a] return the same
    boolean, and the coverage score itself is the same in both orders. *)
Theorem are_different_uttrs_symmetric (a b : list Z) :
  (0 < size (id_set a))%nat -> (0 < size (id_set b))%nat ->
  coverage_score a b = coverage_score b a /\
  exists r : bool,
    _are_different_uttrs a b = Ret r /\ _are_different_uttrs b a = Ret r.
Proof.
  intros Ha Hb. split; [apply coverage_score_comm |].
  rewrite (are_different_uttrs_comm b a).
  unfold _are_different_uttrs, coverage_score.
  rewrite !true_div_ret by lia. simpl.
  match goal with |- context [if ?c then _ else _] => destruct c end;
    eauto.
Qed.

Lemma are_different_uttrs_symmetric_witness :
  (0 < size (id_set [1; 5; 2]%Z))%nat /\
  (0 < size (id_set [1; 7; 9; 2]%Z))%nat /\
  (coverage_score [1; 5; 2] [1; 7; 9; 2] = coverage_score [1; 7; 9; 2] [1; 5; 2]
   /\ exists r : bool,
       _are_different_uttrs [1; 5; 2] [1; 7; 9; 2] = Ret r /\
       _are_different_uttrs [1; 7; 9; 2] [1; 5; 2] = Ret r).
Proof.
  split; [vm_compute; lia |]. split; [vm_compute; lia |].
  apply (are_different_uttrs_symmetric [1; 5; 2] [1; 7; 9; 2]);
    vm_compute; lia.
Defined.

(** ** Reasoning about computations *)

Lemma res_bind_inv {A B} (r : res A) (k : A -> res B) (b : B) :
  res_bind r k = Ret b -> exists a, r = Ret a /\ k a = Ret b.
Proof. destruct r as [a|f]; simpl; [eauto | discriminate]. Qed.

Lemma from_option_inv {A} (f : failure) (o : option A) (a : A) :
  from_option f o = Ret a -> o = Some a.
Proof. destruct o; simpl; congruence. Qed.

Lemma bind_inv {A B} (c : M A) (k : A -> M B) w b w' :
  bind c k w = Ret (b, w') ->
  exists a w1, c w = Ret (a, w1) /\ k a w1 = Ret (b, w').
Proof.
  unfold bind. destruct (c w) as [[a w1]|f]; [eauto | discriminate].
Qed.

Lemma ret_inv {A} (a b : A) w w' : ret a w = Ret (b, w') -> b = a /\ w' = w.
Proof. unfold ret. by intros [= -> ->]. Qed.

Lemma lift_inv {A} (r : res A) (a : A) w w' :
  lift r w = Ret (a, w') -> r = Ret a /\ w' = w.
Proof. unfold lift. destruct r; [by intros [= -> ->] | discriminate]. Qed.

Lemma read_uttr_inv a u w w' :
  read_uttr a w = Ret (u, w') -> uttrs (w_store w) !! a = Some u /\ w' = w.
Proof.
  unfold read_uttr. destruct (uttrs (w_store w) !! a);
    [by intros [= -> ->] | discriminate].
Qed.

Lemma write_uttr_inv a u r w w' :
  write_uttr a u w = Ret (r, w') ->
  (a < length (uttrs (w_store w)))%nat /\
  w' = World (Store (<[a := u]> (uttrs (w_store w))) (metas (w_store w)))
             (w_draws w).
Proof.
  unfold write_uttr. destruct (uttrs (w_store w) !! a) eqn:E; [|discriminate].
  intros [= _ <-]. split; [by eapply lookup_lt_Some | reflexivity].
Qed.

Lemma write_meta_inv m mt r w w' :
  write_meta m mt w = Ret (r, w') ->
  (m < length (metas (w_store w)))%nat /\
  w' = World (Store (uttrs (w_store w)) (<[m := mt]> (metas (w_store w))))
             (w_draws w).
Proof.
  unfold write_meta. destruct (metas (w_store w) !! m) eqn:E; [|discriminate].
  intros [= _ <-]. split; [by eapply lookup_lt_Some | reflexivity].
Qed.

(** Inverts a successful run of a sequence of steps, one bind at a time. *)
Ltac inv_M :=
  repeat match goal with
  | H : bind _ _ _ = Ret _ |- _ =>
      let a := fresh "a" in let w := fresh "w" in
      let H1 := fresh "Hc" in let H2 := fresh "Hk" in
      apply bind_inv in H as (a & w & H1 & H2)
  | H : ret _ _ = Ret _ |- _ => apply ret_inv in H as [? ?]; subst
  | H : lift _ _ = Ret _ |- _ => apply lift_inv in H as [? ?]; subst
  | H : read_uttr _ _ = Ret _ |- _ => apply read_uttr_inv in H as [? ?]; subst
  | H : write_uttr _ _ _ = Ret _ |- _ =>
      apply write_uttr_inv in H as [? ?]; subst
  | H : write_meta _ _ _ = Ret _ |- _ =>
      apply write_meta_inv in H as [? ?]; subst
  | H : res_bind _ _ = Ret _ |- _ =>
      let a := fresh "a" in let H1 := fresh "Hc" in
      apply res_bind_inv in H as (a & H1 & H)
  | H : from_option _ _ = Ret _ |- _ => apply from_option_inv in H
  end.

Lemma foldM_app {A B} (body : B -> A -> M B) (l1 l2 : list A) acc w :
  foldM body acc (l1 ++ l2) w =
  bind (foldM body acc l1) (fun acc' => foldM body acc' l2) w.
Proof.
  revert acc w. induction l1 as [|x l1 IH]; intros acc w; simpl.
  - reflexivity.
  - unfold bind. destruct (body acc x w) as [[acc1 w1]|f]; [|reflexivity].
    rewrite IH. reflexivity.
Qed.

Lemma foldM_fmap {A A' B} (h : A' -> A) (body : B -> A -> M B) l acc w :
  foldM body acc (h <$> l) w = foldM (fun acc x => body acc (h x)) acc l w.
Proof.
  revert acc w. induction l as [|x l IH]; intros acc w; simpl; [reflexivity|].
  unfold bind. destruct (body acc (h x) w) as [[acc1 w1]|f]; [|reflexivity].
  apply IH.
Qed.

(** A loop nested in a loop is one loop over the pairs. *)
Lemma foldM_nested {A C B} (inner : A -> list C) (body : A -> B -> C -> M B)
  (l : list A) acc w :
  foldM (fun acc x => foldM (body x) acc (inner x)) acc l w =
  foldM (fun acc p => body p.1 acc p.2) acc
        (x ← l; pair x <$> inner x) w.
Proof.
  revert acc w. induction l as [|x l IH]; intros acc w; [reflexivity|].
  cbn [foldM mbind list_bind]. rewrite foldM_app. unfold bind.
  rewrite foldM_fmap. cbn [fst snd].
  destruct (foldM (body x) acc (inner x) w) as [[acc1 w1]|f];
    [apply IH | reflexivity].
Qed.

(** The invariant rule for a loop that succeeds. *)
Lemma foldM_invariant {A B} (body : B -> A -> M B)
  (I : list A -> B -> world -> Prop) (l : list A) acc w acc' w' :
  I [] acc w ->
  (forall done x rest acc w acc' w',
     l = done ++ x :: rest -> I done acc w ->
     body acc x w = Ret (acc', w') -> I (done ++ [x]) acc' w') ->
  foldM body acc l w = Ret (acc', w') ->
  I l acc' w'.
Proof.
  intros H0 Hstep.
  assert (forall rest done acc w, l = done ++ rest -> I done acc w ->
            foldM body acc rest w = Ret (acc', w') -> I l acc' w') as G.
  { induction rest as [|x rest IH]; intros done acc0 w1 El HI Hrun.
    - simpl in Hrun. apply ret_inv in Hrun as [-> ->].
      rewrite app_nil_r in El. by subst.
    - simpl in Hrun. apply bind_inv in Hrun as (acc1 & w2 & Hb & Hrun).
      apply (IH (done ++ [x]) acc1 w2); [by rewrite <- app_assoc | | done].
      eapply Hstep; eauto. }
  intros Hrun. by apply (G l [] acc w).
Qed.

(** ** Python sequences *)

Lemma elem_of_py_range (lo hi e : Z) : e ∈ py_range lo hi <-> lo <= e < hi.
Proof.
  unfold py_range. rewrite list_elem_of_fmap. split.
  - intros (k & -> & Hk). apply elem_of_seq in Hk. lia.
  - intros He. exists (Z.to_nat (e - lo)). split; [lia |].
    apply elem_of_seq. lia.
Qed.

Lemma length_py_range (lo hi : Z) :
  length (py_range lo hi) = Z.to_nat (hi - lo).
Proof. unfold py_range. by rewrite length_fmap, length_seq. Qed.

Lemma py_index_nonneg {A} (l : list A) (i : Z) (x : A) :
  0 <= i -> py_index l i = Ret x <-> l !! Z.to_nat i = Some x.
Proof.
  intros Hi. unfold py_index.
  destruct (Z.ltb_spec i 0) as [|_]; [lia |].
  destruct (Z.ltb_spec i 0) as [|_]; [lia |]. simpl.
  destruct (Z.leb_spec (Z.of_nat (length l)) i).
  - split; [discriminate |]. intros H'%lookup_lt_Some. lia.
  - destruct (l !! Z.to_nat i); simpl; split; congruence.
Qed.

Lemma py_index_last {A} (l : list A) (x : A) :
  py_index (l ++ [x]) (-1) = Ret x.
Proof.
  unfold py_index. rewrite length_app. simpl.
  destruct (Z.ltb_spec (-1 + Z.of_nat (length l + 1)) 0); [lia |].
  destruct (Z.leb_spec (Z.of_nat (length l + 1))
                       (-1 + Z.of_nat (length l + 1))); [lia |]. simpl.
  replace (Z.to_nat (-1 + Z.of_nat (length l + 1))) with (length l) by lia.
  rewrite lookup_app_r by lia. by rewrite Nat.sub_diag.
Qed.

Lemma py_index_last_inv {A} (l : list A) (x : A) :
  py_index l (-1) = Ret x -> exists l', l = l' ++ [x].
Proof.
  destruct (decide (l = [])) as [->|Hne]; [discriminate |].
  destruct (exists_last Hne) as (l' & y & ->).
  rewrite py_index_last. intros [= ->]. eauto.
Qed.

Lemma py_slice_valid {A} (l : list A) (lo hi : Z) :
  0 <= lo -> lo <= hi -> hi <= Z.of_nat (length l) ->
  py_slice l lo hi = take (Z.to_nat hi - Z.to_nat lo) (drop (Z.to_nat lo) l).
Proof.
  intros H1 H2 H3. unfold py_slice, slice_bound.
  destruct (Z.ltb_spec lo 0); [lia |]. destruct (Z.ltb_spec hi 0); [lia |].
  rewrite !Z.min_l by lia. f_equal. lia.
Qed.

Lemma py_slice_init {A} (l : list A) (x : A) : py_slice (l ++ [x]) 0 (-1) = l.
Proof.
  unfold py_slice, slice_bound. rewrite length_app. simpl.
  rewrite Z.min_l by lia. rewrite Z.max_r by lia.
  replace (Z.to_nat (-1 + Z.of_nat (length l + 1) - 0)) with (length l) by lia.
  by rewrite drop_0, take_app_length.
Qed.

Lemma py_slice_nil_init {A} : py_slice (@nil A) 0 (-1) = [].
Proof. reflexivity. Qed.

(** [l[lo:e+1]] is [l[lo:e]] followed by [l[e]]. *)
Lemma py_slice_snoc {A} (l : list A) (lo e : Z) (x : A) :
  0 <= lo -> lo <= e -> l !! Z.to_nat e = Some x ->
  py_slice l lo (e + 1) = py_slice l lo e ++ [x].
Proof.
  intros H1 H2 Hx. pose proof (lookup_lt_Some _ _ _ Hx) as Hlt.
  rewrite !py_slice_valid by lia.
  replace (Z.to_nat (e + 1) - Z.to_nat lo)%nat
    with (S (Z.to_nat e - Z.to_nat lo)) by lia.
  erewrite take_S_r; [reflexivity |].
  rewrite lookup_drop. rewrite <- Hx. f_equal. lia.
Qed.

Lemma length_py_slice {A} (l : list A) (lo hi : Z) :
  0 <= lo -> lo <= hi -> hi <= Z.of_nat (length l) ->
  length (py_slice l lo hi) = Z.to_nat (hi - lo).
Proof.
  intros H1 H2 H3. rewrite py_slice_valid by lia.
  rewrite length_take, length_drop. lia.
Qed.

(** The elements of [l[lo:hi]] are those of [l] at [lo], [lo+1], ... *)
Lemma lookup_py_slice {A} (l : list A) (lo hi : Z) (k : nat) :
  0 <= lo -> lo <= hi -> hi <= Z.of_nat (length l) ->
  (k < Z.to_nat (hi - lo))%nat ->
  py_slice l lo hi !! k = l !! (Z.to_nat lo + k)%nat.
Proof.
  intros H1 H2 H3 Hk. rewrite py_slice_valid by lia.
  rewrite lookup_take_lt by lia. by rewrite lookup_drop.
Qed.

(** ** The constructor, phase by phase *)

Open Scope nat_scope.

Section Construction.

Context {tokenizer : Tokenizer}.

(** *** Tokenization (lines 29-42) *)

Lemma floor_index_inv (fl : string) (z : Z) :
  floor_index fl = Ret z -> z = (if String.eqb fl "A" then 0 else 1)%Z.
Proof.
  unfold floor_index. destruct (String.eqb fl "A"); [congruence |].
  destruct (String.eqb fl "B"); [congruence | discriminate].
Qed.

Lemma process_uttr_inv mlen raw w a w' :
  process_uttr mlen raw w = Ret (a, w') ->
  a = length (uttrs (w_store w)) /\
  w' = World (Store (uttrs (w_store w)
                     ++ [tokenized mlen raw (length (metas (w_store w)))])
                    (metas (w_store w) ++ [Meta None]))
             (w_draws w).
Proof.
  unfold process_uttr. intros H. inv_M.
  apply floor_index_inv in H. subst.
  unfold alloc_meta in Hc0. injection Hc0 as <- <-.
  unfold alloc_uttr in Hk0. simpl in Hk0. injection Hk0 as <- <-.
  split; reflexivity.
Qed.

Lemma length_tokenized_list mlen raws m :
  length (tokenized_list mlen raws m) = length raws.
Proof. revert m. induction raws; intros; simpl; [done | by rewrite IHraws]. Qed.

Lemma tokenized_list_app mlen r1 r2 m :
  tokenized_list mlen (r1 ++ r2) m =
  tokenized_list mlen r1 m ++ tokenized_list mlen r2 (m + length r1).
Proof.
  revert m. induction r1 as [|x r1 IH]; intros m; simpl.
  - by rewrite Nat.add_0_r.
  - rewrite IH. do 3 f_equal. lia.
Qed.

Lemma lookup_tokenized_list mlen raws m i raw :
  raws !! i = Some raw ->
  tokenized_list mlen raws m !! i = Some (tokenized mlen raw (m + i)).
Proof.
  revert m i. induction raws as [|x raws IH]; intros m i; [done |].
  destruct i as [|i]; simpl.
  - intros [= ->]. by rewrite Nat.add_0_r.
  - intros H. rewrite (IH (S m) i H). do 2 f_equal. lia.
Qed.

Lemma process_session_inv mlen raws w l w' :
  mapM (process_uttr mlen) raws w = Ret (l, w') ->
  l = seq (length (uttrs (w_store w))) (length raws) /\
  w' = World (Store (uttrs (w_store w)
                     ++ tokenized_list mlen raws (length (metas (w_store w))))
                    (metas (w_store w) ++ replicate (length raws) (Meta None)))
             (w_draws w).
Proof.
  revert w l w'. induction raws as [|raw raws IH]; intros w l w' H; simpl in H.
  - apply ret_inv in H as [-> ->]. simpl. rewrite !app_nil_r.
    by destruct w as [[] ?].
  - inv_M. apply process_uttr_inv in Hc as [-> ->].
    apply IH in Hc0 as [-> ->]. simpl.
    rewrite !length_app. simpl. split.
    + f_equal. f_equal. lia.
    + rewrite <- !app_assoc. simpl.
      by replace (length (metas (w_store w)) + 1)
        with (S (length (metas (w_store w)))) by lia.
Qed.

Lemma process_sessions_inv mlen data w sessions w' :
  process_sessions mlen data w = Ret (sessions, w') ->
  Forall2 (fun sess raws => length sess = length raws) sessions data /\
  concat sessions = seq (length (uttrs (w_store w))) (length (concat data)) /\
  w' = World (Store (uttrs (w_store w)
                     ++ tokenized_list mlen (concat data)
                                       (length (metas (w_store w))))
                    (metas (w_store w)
                     ++ replicate (length (concat data)) (Meta None)))
             (w_draws w).
Proof.
  unfold process_sessions. revert w sessions w'.
  induction data as [|raws data IH]; intros w sessions w' H; simpl in H.
  - apply ret_inv in H as [-> ->]. simpl. rewrite !app_nil_r.
    split; [constructor |]. split; [done |]. by destruct w as [[] ?].
  - inv_M. apply process_session_inv in Hc as [-> ->].
    apply IH in Hc0 as (HF & Hcat & ->). simpl in *.
    split; [constructor; [by rewrite length_seq | done] |].
    rewrite Hcat. rewrite !length_app, length_tokenized_list, length_replicate.
    split.
    + by rewrite seq_app.
    + rewrite tokenized_list_app, replicate_add, <- !app_assoc.
      reflexivity.
Qed.

End Construction.

(** ** Deep copies leave what exists alone *)

Lemma prefix_insert_beyond {A} (l1 l2 : list A) (i : nat) (x : A) :
  l1 `prefix_of` l2 -> length l1 <= i -> l1 `prefix_of` <[i := x]> l2.
Proof.
  intros [k ->] Hi. rewrite insert_app_r_alt by done. by exists (<[i - length l1 := x]> k).
Qed.

Lemma prefix_app_l' {A} (l1 l2 l3 : list A) :
  l1 ++ l2 `prefix_of` l3 -> l1 `prefix_of` l3.
Proof. intros [k ->]. rewrite <- app_assoc. by eexists. Qed.

Lemma prefix_lookup_Some' {A} (l1 l2 : list A) (i : nat) (x : A) :
  l1 `prefix_of` l2 -> l1 !! i = Some x -> l2 !! i = Some x.
Proof. intros [k ->] H. by apply lookup_app_l_Some. Qed.

(** Every cell that exists when a copy starts is unchanged when it ends:
    the copier writes to the cells it has made itself. *)
Lemma deepcopy_uttr_frame fuel a c a' c' :
  deepcopy_uttr fuel a c = Ret (a', c') ->
  uttrs (c_store c) `prefix_of` uttrs (c_store c') /\
  metas (c_store c) `prefix_of` metas (c_store c').
Proof.
  revert a c a' c'. induction fuel as [|fuel IH]; intros a c a' c' H;
    simpl in H; destruct (memo_u c !! a) as [b|] eqn:Hmemo;
    try (injection H as <- <-; done); try discriminate.
  destruct (uttrs (c_store c) !! a) as [u|] eqn:Hu; [|discriminate].
  apply res_bind_inv in H as ([m' c4] & Hmeta & H). injection H as <- <-.
  simpl in *.
  assert (uttrs (c_store c) ++ [u] `prefix_of` uttrs (c_store c4) /\
          metas (c_store c) `prefix_of` metas (c_store c4)) as [Hp1 Hp2].
  { destruct (memo_m c !! utterance_meta u) as [mm|].
    { injection Hmeta as <- <-. done. }
    destruct (metas (c_store c) !! utterance_meta u) as [mt|]; [|discriminate].
    destruct (reference_uttr mt) as [r|].
    - apply res_bind_inv in Hmeta as ([r' c3] & Hrec & Hmeta).
      injection Hmeta as <- <-. apply IH in Hrec as [Hr1 Hr2]. simpl in *.
      split; [done |].
      apply prefix_insert_beyond; [by eapply prefix_app_l' | done].
    - injection Hmeta as <- <-. simpl. split; [done | by apply prefix_app_r]. }
  split; [|done].
  apply prefix_insert_beyond; [by eapply prefix_app_l' | done].
Qed.

(** A top-level copy of one utterance: the copy is a new cell with the
    fields of the original and a new meta dict. *)
Lemma deepcopy_inv a w a' w' :
  deepcopy a w = Ret (a', w') ->
  exists u,
    uttrs (w_store w) !! a = Some u /\
    a' = length (uttrs (w_store w)) /\
    uttrs (w_store w') !! a' =
      Some (with_utterance_meta (length (metas (w_store w))) u) /\
    uttrs (w_store w) `prefix_of` uttrs (w_store w') /\
    metas (w_store w) `prefix_of` metas (w_store w') /\
    length (metas (w_store w)) < length (metas (w_store w')) /\
    w_draws w' = w_draws w.
Proof.
  unfold deepcopy, copy_fuel, start_copy.
  destruct (deepcopy_uttr _ _ _) as [[b c]|f] eqn:H; [|discriminate].
  intros [= <- <-]. simpl in H. rewrite lookup_empty in H.
  destruct (uttrs (w_store w) !! a) as [u|] eqn:Hu; [|discriminate].
  exists u. split; [done |].
  apply res_bind_inv in H as ([m' c4] & Hmeta & H). injection H as <- <-.
  simpl in *. rewrite lookup_empty in Hmeta.
  destruct (metas (w_store w) !! utterance_meta u) as [mt|]; [|discriminate].
  assert (m' = length (metas (w_store w)) /\
          uttrs (w_store w) ++ [u] `prefix_of` uttrs (c_store c4) /\
          metas (w_store w) `prefix_of` metas (c_store c4) /\
          length (metas (w_store w)) < length (metas (c_store c4)))
    as (-> & Hp1 & Hp2 & Hlen).
  { destruct (reference_uttr mt) as [r|].
    - apply res_bind_inv in Hmeta as ([r' c3] & Hrec & Hmeta).
      injection Hmeta as <- <-. apply deepcopy_uttr_frame in Hrec as [Hr1 Hr2].
      simpl in *. split; [done |]. split; [done |].
      pose proof (prefix_length _ _ Hr2) as Hl. rewrite length_app in Hl.
      simpl in Hl. rewrite length_insert. split; [|lia].
      apply prefix_insert_beyond; [by eapply prefix_app_l' | done].
    - injection Hmeta as <- <-. simpl. rewrite length_app. simpl.
      split; [done |]. split; [done |]. split; [by apply prefix_app_r | lia]. }
  pose proof (prefix_length _ _ Hp1) as Hl. rewrite length_app in Hl.
  simpl in Hl.
  split; [done |]. split; [apply list_lookup_insert_eq; lia |].
  split; [|done].
  apply prefix_insert_beyond; [by eapply prefix_app_l' | done].
Qed.

(** ** The sampling loop *)

Lemma random_choice_elem {A} (l : list A) (d : nat) (x : A) :
  random_choice l d = Ret x -> x ∈ l.
Proof.
  unfold random_choice. destruct l as [|y l]; [discriminate |].
  intros H%from_option_inv. by eapply list_elem_of_lookup_2.
Qed.

(** What the loop returns is a pool utterance that passed the test. *)
Lemma sample_loop_inv st pool ids draws q draws' :
  sample_loop st pool ids draws = Ret (q, draws') ->
  q ∈ pool /\
  (exists qu, uttrs st !! q = Some qu /\
              _are_different_uttrs ids (token_ids qu) = Ret true) /\
  exists k, draws' = drop (S k) draws.
Proof.
  revert q draws'. induction draws as [|d draws IH]; intros q draws' H;
    simpl in H; [discriminate |].
  apply res_bind_inv in H as (cand & Hc & H).
  apply res_bind_inv in H as (nu & Hnu & H).
  apply res_bind_inv in H as (different & Hd & H).
  apply from_option_inv in Hnu. destruct different.
  - injection H as <- <-. split; [by eapply random_choice_elem |].
    split; [eauto |]. by exists 0.
  - apply IH in H as (? & ? & k & ->). split; [done |]. split; [done |].
    by exists (S k).
Qed.

Lemma sample_negative_inv pool ids w q w' :
  sample_negative pool ids w = Ret (q, w') ->
  q ∈ pool /\
  (exists qu, uttrs (w_store w) !! q = Some qu /\
              _are_different_uttrs ids (token_ids qu) = Ret true) /\
  w_store w' = w_store w.
Proof.
  unfold sample_negative.
  destruct (sample_loop _ _ _ _) as [[a draws']|f] eqn:H; [|discriminate].
  intros [= <- <-]. apply sample_loop_inv in H as (? & ? & _). done.
Qed.

(** ** Building the segments (lines 50-80) *)

Section Segments.

Context {tokenizer : Tokenizer}.
Variables (n0 m0 : nat) (cells : list utterance).
Hypothesis cells_meta :
  forall i c, cells !! i = Some c -> utterance_meta c = m0 + i.

Local Abbreviation K := (length cells).
Local Abbreviation store_inv := (store_inv n0 m0 cells).
Local Abbreviation evolves := (evolves n0 m0 cells).
Local Abbreviation made_ok := (made_ok n0 m0 cells).

Lemma evolves_refl st : evolves st st.
Proof. repeat split; auto. Qed.

Lemma evolves_trans st1 st2 st3 :
  evolves st1 st2 -> evolves st2 st3 -> evolves st1 st3.
Proof.
  intros (A1 & A2 & A3 & A4) (B1 & B2 & B3 & B4). repeat split.
  - by etrans.
  - lia.
  - intros m H1 H2. rewrite B3 by lia. by apply A3.
  - intros i Hi H. apply B4; [done |]. by apply A4.
Qed.

Lemma made_ok_evolves st st' p :
  m0 + K <= length (metas st) ->
  evolves st st' -> made_ok st p -> made_ok st' p.
Proof.
  intros Hlen (E1 & E2 & E3 & E4) (i & j & pu & qu & m & H).
  destruct H as (H1 & H2 & H3 & H4 & H5 & H6 & H7 & H8 & H9 & H10).
  exists i, j, pu, qu, m. repeat split; try done.
  - by eapply prefix_lookup_Some'.
  - rewrite E3; [done | done |]. by eapply lookup_lt_Some.
  - apply E4; [|done]. by eapply lookup_lt_Some.
Qed.

Lemma set_reference_uttr_inv a t w r w' :
  set_reference_uttr a t w = Ret (r, w') ->
  exists u,
    uttrs (w_store w) !! a = Some u /\
    utterance_meta u < length (metas (w_store w)) /\
    w' = World (Store (uttrs (w_store w))
                      (<[utterance_meta u := Meta (Some t)]>
                         (metas (w_store w))))
               (w_draws w).
Proof. unfold set_reference_uttr. intros H. inv_M. eauto. Qed.

Lemma set_is_next_inv a b w r w' :
  set_is_next a b w = Ret (r, w') ->
  exists u,
    uttrs (w_store w) !! a = Some u /\
    w' = World (Store (<[a := with_is_next b u]> (uttrs (w_store w)))
                      (metas (w_store w)))
               (w_draws w).
Proof. unfold set_is_next. intros H. inv_M. eauto. Qed.

(** One pass of lines 56-80. *)
Lemma build_pair_spec h sess segs e w segs' w' :
  store_inv (w_store w) ->
  Forall (fun a => n0 <= a < n0 + K) sess ->
  (1 <= e < Z.of_nat (length sess))%Z ->
  build_pair h (seq n0 K) sess segs e w = Ret (segs', w') ->
  exists q n,
    segs' = segs ++ pair_segments h (MadePair sess e q n) /\
    store_inv (w_store w') /\
    evolves (w_store w) (w_store w') /\
    made_ok (w_store w') (MadePair sess e q n).
Proof.
  intros (S1 & S2 & S3 & S4) Hsess He H. unfold build_pair in H.
  apply bind_inv in H as (pa & w1 & Hpa & H).
  apply lift_inv in Hpa as [Hpa ->].
  apply py_index_nonneg in Hpa; [|lia].
  assert (n0 <= pa < n0 + K) as Hpa_range.
  { rewrite Forall_forall in Hsess. apply Hsess.
    by eapply list_elem_of_lookup_2. }
  set (i := pa - n0). assert (pa = n0 + i) as Epa by lia.
  destruct (lookup_lt_is_Some_2 cells i ltac:(lia)) as [pu Hpu].
  pose proof (S1 _ _ Hpu) as Hpu_st. rewrite <- Epa in Hpu_st.
  pose proof (cells_meta _ _ Hpu) as Hpu_meta.
  apply bind_inv in H as (r1 & w2 & Hset & H).
  apply set_reference_uttr_inv in Hset as (u & Hu & Hm & ->).
  assert (u = pu) as -> by congruence. clear Hu. rewrite Hpu_meta in *.
  apply bind_inv in H as (pu' & w3 & Hread & H).
  apply read_uttr_inv in Hread as [Hread ->]. simpl in Hread.
  assert (pu' = pu) as -> by congruence. clear Hread.
  apply bind_inv in H as (q & w4 & Hsample & H).
  apply sample_negative_inv in Hsample as (Hq & (qu & Hqu & Hdiff) & Hst4).
  simpl in Hqu. apply elem_of_seq in Hq.
  set (j := q - n0). assert (q = n0 + j) as Eq by lia.
  destruct (lookup_lt_is_Some_2 cells j ltac:(lia)) as [qu' Hqu'].
  pose proof (S1 _ _ Hqu') as Hqu_st. rewrite <- Eq in Hqu_st.
  assert (qu = qu') as -> by congruence. clear Hqu. rename qu' into qu.
  apply bind_inv in H as (n & w5 & Hcopy & H).
  apply deepcopy_inv in Hcopy as (qu0 & Hq0 & Hn & Hcell & Hp1 & Hp2 & Hl & _).
  rewrite Hst4 in *. simpl in *.
  assert (qu0 = qu) as -> by congruence. clear Hq0.
  rewrite length_insert in *.
  apply bind_inv in H as (r2 & w6 & Hset2 & H).
  apply set_reference_uttr_inv in Hset2 as (u & Hu & Hm2 & ->).
  assert (u = with_utterance_meta (length (metas (w_store w))) qu) as ->
    by congruence.
  clear Hu. simpl in *.
  apply bind_inv in H as (r3 & w7 & Hnext & H).
  apply set_is_next_inv in Hnext as (u & Hu & ->). simpl in *.
  assert (u = with_utterance_meta (length (metas (w_store w))) qu) as ->
    by congruence.
  clear Hu.
  apply ret_inv in H as [-> ->]. simpl.
  exists q, n. split; [by rewrite <- app_assoc |].
  pose proof (prefix_length _ _ Hp1) as Hl1.
  pose proof (lookup_lt_Some _ _ _ Hcell) as Hl2.
  assert (forall k, k < length (metas (w_store w)) ->
            metas (w_store w5) !! k =
            <[m0 + i := Meta (Some pa)]> (metas (w_store w)) !! k) as Hmetas5.
  { intros k Hk.
    destruct (lookup_lt_is_Some_2
                (<[m0 + i := Meta (Some pa)]> (metas (w_store w))) k)
      as [x E]; [by rewrite length_insert |].
    rewrite E. by eapply prefix_lookup_Some'. }
  split; [|split].
  - (* the pool is intact *)
    repeat split; simpl.
    + intros k c Hc. rewrite list_lookup_insert_ne.
      * eapply prefix_lookup_Some'; [done |]. by apply S1.
      * apply lookup_lt_Some in Hc. lia.
    + rewrite length_insert. lia.
    + rewrite length_insert. lia.
    + intros k Hk. rewrite list_lookup_insert_ne by lia.
      rewrite Hmetas5 by lia.
      destruct (decide (k = i)) as [->|Hne].
      * right. rewrite list_lookup_insert_eq by lia. by rewrite Epa.
      * rewrite list_lookup_insert_ne by lia. by apply S4.
  - (* only additions and self references *)
    repeat split; simpl.
    + apply prefix_insert_beyond; [done | lia].
    + rewrite length_insert. lia.
    + intros m Hm1 Hm3. rewrite list_lookup_insert_ne by lia.
      rewrite Hmetas5 by lia. rewrite list_lookup_insert_ne by lia. done.
    + intros k Hk Hself. rewrite list_lookup_insert_ne by lia.
      rewrite Hmetas5 by lia.
      destruct (decide (k = i)) as [->|Hne].
      * rewrite list_lookup_insert_eq by lia. by rewrite Epa.
      * by rewrite list_lookup_insert_ne by lia.
  - (* the new pair *)
    exists i, j, pu, qu, (length (metas (w_store w))). simpl.
    rewrite <- Epa. repeat split; try done; try lia.
    + rewrite list_lookup_insert_eq by lia. done.
    + rewrite list_lookup_insert_eq by lia. done.
    + rewrite list_lookup_insert_ne by lia. rewrite Hmetas5 by lia.
      rewrite list_lookup_insert_eq by lia. done.
Qed.

Lemma elem_of_end_points sessions sess e :
  (sess, e) ∈ end_points sessions <->
  sess ∈ sessions /\ (1 <= e < Z.of_nat (length sess))%Z.
Proof.
  unfold end_points. rewrite list_elem_of_bind. split.
  - intros (s & Hin & Hs). apply list_elem_of_fmap in Hin as (e' & [= -> ->] & He).
    split; [done | by apply elem_of_py_range].
  - intros [Hs He]. exists sess. split; [|done].
    apply list_elem_of_fmap. exists e. split; [done | by apply elem_of_py_range].
Qed.

(** The whole of lines 52-80. *)
Lemma build_segments_spec h sessions w segs w' :
  store_inv (w_store w) ->
  Forall (Forall (fun a => n0 <= a < n0 + K)) sessions ->
  foldM (build_session h (seq n0 K)) [] sessions w = Ret (segs, w') ->
  exists mades,
    segs = mades ≫= pair_segments h /\
    pair_point <$> mades = end_points sessions /\
    store_inv (w_store w') /\
    evolves (w_store w) (w_store w') /\
    Forall (made_ok (w_store w')) mades.
Proof.
  intros Hinv Hrange Hrun. unfold build_session in Hrun.
  rewrite (foldM_nested (fun uttrs => py_range 1 (Z.of_nat (length uttrs)))
             (fun uttrs segs e => build_pair h (seq n0 K) uttrs segs e))
    in Hrun.
  fold (end_points sessions) in Hrun.
  revert Hrun.
  apply (foldM_invariant _ (fun done segs w1 =>
    exists mades,
      segs = mades ≫= pair_segments h /\
      pair_point <$> mades = done /\
      store_inv (w_store w1) /\
      evolves (w_store w) (w_store w1) /\
      Forall (made_ok (w_store w1)) mades)).
  - exists []. split; [done |]. split; [done |]. split; [done |].
    split; [apply evolves_refl | constructor].
  - intros done [sess e] rest acc w1 acc' w1' El
      (mades & -> & <- & Hs & He & Hm) Hstep. simpl in Hstep.
    assert ((sess, e) ∈ end_points sessions) as Hin.
    { rewrite El. apply elem_of_app. right. apply list_elem_of_here. }
    apply elem_of_end_points in Hin as [Hsess Hrange_e].
    rewrite Forall_forall in Hrange. specialize (Hrange _ Hsess).
    destruct (build_pair_spec _ _ _ _ _ _ _ Hs Hrange Hrange_e Hstep)
      as (q & n & -> & Hs' & He' & Hnew).
    exists (mades ++ [MadePair sess e q n]). split; [|split; [|split; [|split]]].
    + rewrite bind_app. reflexivity.
    + by rewrite fmap_app.
    + done.
    + by eapply evolves_trans.
    + apply Forall_app. split; [|by constructor].
      eapply Forall_impl; [exact Hm |]. intros p Hp.
      eapply made_ok_evolves; [|exact He' | exact Hp]. apply Hs.
Qed.

End Segments.

Section Init.

Context {tokenizer : Tokenizer}.

Lemma count_tokens_loop_pure (l : list nat) n w r w' :
  foldM count_tokens n l w = Ret (r, w') -> w' = w.
Proof.
  revert n w. induction l as [|a l IH]; intros n w H; simpl in H.
  - by apply ret_inv in H as [_ ->].
  - apply bind_inv in H as (n1 & w1 & Hc & H). unfold count_tokens in Hc.
    inv_M. by apply IH in H.
Qed.

Lemma count_tokens_pure (sessions : list (list nat)) n w r w' :
  foldM (foldM count_tokens) n sessions w = Ret (r, w') -> w' = w.
Proof.
  revert n w. induction sessions as [|s l IH]; intros n w H; simpl in H.
  - by apply ret_inv in H as [_ ->].
  - apply bind_inv in H as (n1 & w1 & Hc & H).
    apply count_tokens_loop_pure in Hc as ->. by apply IH in H.
Qed.

Lemma tokenized_list_lookup_inv mlen raws m i c :
  tokenized_list mlen raws m !! i = Some c ->
  exists raw, raws !! i = Some raw /\ c = tokenized mlen raw (m + i).
Proof.
  intros H. pose proof (lookup_lt_Some _ _ _ H) as Hlt.
  rewrite length_tokenized_list in Hlt.
  destruct (lookup_lt_is_Some_2 raws i Hlt) as [raw Hraw].
  exists raw. split; [done |].
  rewrite (lookup_tokenized_list _ _ _ _ _ Hraw) in H. congruence.
Qed.

(** What the constructor leaves behind. *)
Lemma init_spec data cfg w0 sessions ds w :
  init data cfg w0 = Ret (sessions, ds, w) ->
  let n0 := length (uttrs (w_store w0)) in
  let m0 := length (metas (w_store w0)) in
  let cells := tokenized_list (config.max_uttr_len cfg) (concat data) m0 in
  Forall2 (fun sess raws => length sess = length raws) sessions data /\
  concat sessions = seq n0 (length cells) /\
  utterance_pool ds = concat sessions /\
  history_len ds = config.history_len cfg /\
  cur_segment_idx ds = None /\ segments ds = None /\
  n_segments (statistics ds) = Z.of_nat (length (_segments ds)) /\
  exists mades,
    _segments ds = mades ≫= pair_segments (config.history_len cfg) /\
    pair_point <$> mades = end_points sessions /\
    store_inv n0 m0 cells (w_store w) /\
    Forall (made_ok n0 m0 cells (w_store w)) mades.
Proof.
  intros H n0 m0 cells. unfold init in H.
  apply bind_inv in H as (ss & w1 & Hp & H).
  apply process_sessions_inv in Hp as (HF & Hcat & ->).
  apply bind_inv in H as (segs & w2 & Hsegs & H).
  apply bind_inv in H as (ntok & w3 & Hcount & H).
  apply count_tokens_pure in Hcount as ->.
  apply ret_inv in H as [[= -> ->] ->]. simpl.
  fold n0 m0 cells in Hcat |- *.
  assert (length (concat data) = length cells) as Hlen
    by (unfold cells; by rewrite length_tokenized_list).
  rewrite Hlen in *.
  split; [done |]. split; [done |]. do 5 (split; [done |]).
  rewrite Hcat in Hsegs.
  eapply (build_segments_spec n0 m0 cells) in Hsegs
    as (mades & -> & Hpts & Hinv & _ & Hok).
  - exists mades. done.
  - intros i c Hc. apply tokenized_list_lookup_inv in Hc as (raw & _ & ->).
    reflexivity.
  - repeat split; simpl; fold m0 cells.
    + intros i c Hc. rewrite lookup_app_r by (fold n0; lia).
      fold n0. by replace (n0 + i - n0) with i by lia.
    + rewrite length_app. fold n0. lia.
    + rewrite length_app, length_replicate. fold m0. lia.
    + intros i Hi. left. rewrite lookup_app_r by (fold m0; lia). fold m0.
      replace (m0 + i - m0) with i by lia.
      by apply lookup_replicate_2.
  - assert (Forall (fun a => n0 <= a < n0 + length cells) (concat ss)) as HA.
    { rewrite Hcat. apply Forall_forall. intros a Ha%elem_of_seq. lia. }
    clear -HA. induction ss as [|s l IH]; [constructor |].
    simpl in HA. apply Forall_app in HA as [? ?]. constructor; auto.
Qed.

End Init.

(** ** What the constructor guarantees *)

Section InitLemmas.

Context {tokenizer : Tokenizer}.

Lemma segment_count_spec (n : nat) :
  (n <= 1 -> segment_count n = 0) /\
  (2 <= n -> segment_count n = 2 * (n - 1)).
Proof.
  unfold segment_count. destruct (Nat.leb_spec n 1); split; intros; lia.
Qed.

Lemma length_pair_segments_bind h (mades : list made_pair) :
  length (mades ≫= pair_segments h) = 2 * length mades.
Proof.
  induction mades as [|p l IH]; [done |].
  rewrite bind_cons, length_app, IH. simpl. lia.
Qed.

(** The pairs made for a list of sessions, session by session. *)
Lemma mades_by_session h (sessions : list (list nat)) (mades : list made_pair) :
  pair_point <$> mades = end_points sessions ->
  exists blocks : list (list segment),
    mades ≫= pair_segments h = concat blocks /\
    Forall2 (fun block sess => length block = segment_count (length sess))
            blocks sessions.
Proof.
  revert mades. induction sessions as [|sess l IH]; intros mades H.
  - unfold end_points in H. simpl in H. apply fmap_nil_inv in H as ->.
    exists []. split; [done | constructor].
  - unfold end_points in H. rewrite bind_cons in H.
    apply fmap_app_inv in H as (m1 & m2 & H1 & H2 & ->).
    destruct (IH m2 (eq_sym H2)) as (blocks & E & HF).
    exists ((m1 ≫= pair_segments h) :: blocks). split.
    + rewrite bind_app. simpl. by rewrite E.
    + constructor; [|done].
      rewrite length_pair_segments_bind.
      apply (f_equal length) in H1.
      rewrite !length_fmap, length_py_range in H1. rewrite <- H1.
      destruct (segment_count_spec (length sess)) as [A B].
      destruct (decide (length sess <= 1)); [rewrite A by done | rewrite B by lia];
        lia.
Qed.

Lemma elem_of_py_slice {A} (l : list A) (lo hi : Z) (x : A) :
  x ∈ py_slice l lo hi -> x ∈ l.
Proof.
  unfold py_slice. intros H.
  eapply elem_of_sublist; [exact H |].
  etrans; [apply sublist_take | apply sublist_drop].
Qed.

(** Every segment is the positive or the negative segment of a pair that
    the constructor made for an end index of a session. *)
Lemma segments_classified data cfg w0 sessions ds w :
  init data cfg w0 = Ret (sessions, ds, w) ->
  let n0 := length (uttrs (w_store w0)) in
  let m0 := length (metas (w_store w0)) in
  let cells := tokenized_list (config.max_uttr_len cfg) (concat data) m0 in
  let h := config.history_len cfg in
  forall seg, seg ∈ _segments ds ->
    exists p,
      made_ok n0 m0 cells (w_store w) p /\
      pair_session p ∈ sessions /\
      (1 <= pair_end p < Z.of_nat (length (pair_session p)))%Z /\
      (seg = positive_segment h (pair_session p) (pair_end p) \/
       seg = negative_segment h (pair_session p) (pair_end p)
                              (pair_negative p)).
Proof.
  intros H n0 m0 cells h seg Hseg.
  apply init_spec in H
    as (_ & _ & _ & _ & _ & _ & _ & mades & Hs & Hp & _ & Hok).
  rewrite Hs in Hseg. apply list_elem_of_bind in Hseg as (p & Hin & Hp_in).
  exists p. rewrite Forall_forall in Hok. split; [by apply Hok |].
  assert (pair_point p ∈ end_points sessions) as Hpt.
  { rewrite <- Hp. apply list_elem_of_fmap. eauto. }
  apply elem_of_end_points in Hpt as [? ?]. split; [done |]. split; [done |].
  unfold pair_segments in Hin.
  apply elem_of_cons in Hin as [-> | Hin]; [by left |].
  apply list_elem_of_singleton in Hin as ->. by right.
Qed.

(** The pool utterances are, in the final store, the cells tokenization
    made. *)
Lemma pool_cells data cfg w0 sessions ds w :
  init data cfg w0 = Ret (sessions, ds, w) ->
  let n0 := length (uttrs (w_store w0)) in
  let m0 := length (metas (w_store w0)) in
  forall a, a ∈ concat sessions ->
    exists i raw,
      a = n0 + i /\ concat data !! i = Some raw /\
      uttrs (w_store w) !! a
      = Some (tokenized (config.max_uttr_len cfg) raw (m0 + i)).
Proof.
  intros H n0 m0 a Ha.
  apply init_spec in H
    as (_ & Hcat & _ & _ & _ & _ & _ & mades & _ & _ & Hinv & _).
  rewrite Hcat in Ha. apply elem_of_seq in Ha.
  rewrite length_tokenized_list in Ha.
  destruct (lookup_lt_is_Some_2 (concat data) (a - n0) ltac:(fold n0; lia))
    as [raw Hraw].
  exists (a - n0), raw. split; [fold n0; lia |]. split; [done |].
  destruct Hinv as (S1 & _).
  replace a with (n0 + (a - n0)) at 1 by (fold n0; lia).
  apply S1. by apply lookup_tokenized_list.
Qed.

(** The target of a segment whose flag is false is the negative of its
    pair: the facts the constructor established about it. *)
Lemma negative_target data cfg w0 sessions ds w seg target tu :
  init data cfg w0 = Ret (sessions, ds, w) ->
  seg ∈ _segments ds -> last (utterances seg) = Some target ->
  uttrs (w_store w) !! target = Some tu -> is_next tu = false ->
  let n0 := length (uttrs (w_store w0)) in
  let m0 := length (metas (w_store w0)) in
  let cells := tokenized_list (config.max_uttr_len cfg) (concat data) m0 in
  exists p,
    made_ok n0 m0 cells (w_store w) p /\
    pair_session p ∈ sessions /\
    (1 <= pair_end p < Z.of_nat (length (pair_session p)))%Z /\
    seg = negative_segment (config.history_len cfg) (pair_session p)
                           (pair_end p) (pair_negative p) /\
    target = pair_negative p.
Proof.
  intros H Hseg Hlast Htu Hfalse n0 m0 cells.
  destruct (segments_classified _ _ _ _ _ _ H seg Hseg)
    as (p & Hok & Hsess & He & [-> | ->]).
  - exfalso. unfold positive_segment in Hlast. cbn [utterances] in Hlast.
    apply last_Some_elem_of, elem_of_py_slice in Hlast.
    destruct (pool_cells _ _ _ _ _ _ H target) as (i & raw & _ & _ & Hcell).
    { apply list_elem_of_In, in_concat. exists (pair_session p).
      split; by apply list_elem_of_In. }
    rewrite Hcell in Htu. injection Htu as <-. discriminate.
  - exists p. unfold negative_segment in Hlast. cbn [utterances] in Hlast.
    rewrite last_snoc in Hlast. injection Hlast as <-. done.
Qed.

End InitLemmas.

(** C2: construction appends exactly [2 * (n - 1)] segments for each session
    of [n >= 2] utterances and none for a session of at most one, session
    after session; the [n_segments] statistic and the length query both
    equal the total number of segments. *)
Theorem init_segment_count {tokenizer : Tokenizer} data cfg w0 sessions ds w :
  init data cfg w0 = Ret (sessions, ds, w) ->
  (exists blocks : list (list segment),
     _segments ds = concat blocks /\
     Forall2 (fun block raws => length block = segment_count (length raws))
             blocks data) /\
  (forall n, (n <= 1 -> segment_count n = 0) /\
             (2 <= n -> segment_count n = 2 * (n - 1))) /\
  length (_segments ds) = sum_list (segment_count ∘ length <$> data) /\
  n_segments (statistics ds) = Z.of_nat (length (_segments ds)) /\
  len ds = Z.of_nat (length (_segments ds)).
Proof.
  intros H. apply init_spec in H as (HF & _ & _ & _ & _ & _ & Hn & mades & Hs & Hp & _).
  destruct (mades_by_session (config.history_len cfg) _ _ Hp) as (blocks & E & HB).
  assert (Forall2 (fun block (raws : list raw_utterance) =>
                     length block = segment_count (length raws)) blocks data)
    as HB'.
  { clear -HB HF. revert data HF.
    induction HB as [|b s bl sl Hb _ IH]; intros data HF;
      inversion HF as [|? r ? rl Hr HF']; subst; constructor.
    - by rewrite <- Hr.
    - by apply IH. }
  split; [exists blocks; split; [by rewrite Hs | done] |].
  split; [apply segment_count_spec |].
  split; [|done].
  rewrite Hs, E. clear -HB'.
  induction HB' as [|b r bl rl Hb _ IH]; [done |].
  simpl. rewrite length_app, IH, Hb. reflexivity.
Qed.

Lemma init_segment_count_witness :
  (exists blocks : list (list segment),
     _segments sample_source = concat blocks /\
     Forall2 (fun block raws => length block = segment_count (length raws))
             blocks sample_data) /\
  (forall n, (n <= 1 -> segment_count n = 0) /\
             (2 <= n -> segment_count n = 2 * (n - 1))) /\
  length (_segments sample_source)
  = sum_list (segment_count ∘ length <$> sample_data) /\
  n_segments (statistics sample_source)
  = Z.of_nat (length (_segments sample_source)) /\
  @len sample_source = Z.of_nat (length (_segments sample_source)).
Proof.
  apply (@init_segment_count sample_tokenizer sample_data sample_config
           sample_world sample_sessions sample_source sample_world').
  vm_compute. reflexivity.
Defined.

(** C3: a segment's utterance list has between 2 and [history_len + 1]
    entries; all but the last are the utterances of one session from index
    [max(0, end - history_len)] to [end - 1], in order; the last is the
    session's utterance at [end], with [is_next] true, or a negative with
    [is_next] false whose meta dict refers to that utterance. *)
Theorem segment_invariant {tokenizer : Tokenizer} data cfg w0 sessions ds w :
  (1 <= config.history_len cfg)%Z ->
  init data cfg w0 = Ret (sessions, ds, w) ->
  forall seg, seg ∈ _segments ds ->
    exists sess e context target tu positive,
      let h := config.history_len cfg in
      let start := Z.to_nat (Z.max 0 (e - h)) in
      sess ∈ sessions /\ (1 <= e < Z.of_nat (length sess))%Z /\
      utterances seg = context ++ [target] /\
      (2 <= Z.of_nat (length (utterances seg)) <= h + 1)%Z /\
      start + length context = Z.to_nat e /\
      (forall k, k < length context -> context !! k = sess !! (start + k)) /\
      sess !! Z.to_nat e = Some positive /\
      uttrs (w_store w) !! target = Some tu /\
      ((target = positive /\ is_next tu = true) \/
       (is_next tu = false /\
        metas (w_store w) !! utterance_meta tu = Some (Meta (Some positive)))).
Proof.
  intros Hh H seg Hseg.
  destruct (segments_classified _ _ _ _ _ _ H seg Hseg)
    as (p & Hok & Hsess & He & Hcase).
  destruct Hok as (i & j & pu & qu & m & Hpos & Hpu & Hsrc & Hqu & Hdiff
                   & Hneg & Hcell & Hm & Hmeta & Hself).
  set (sess := pair_session p) in *. set (e := pair_end p) in *.
  set (h := config.history_len cfg) in *.
  assert (0 <= Z.max 0 (e - h) /\ Z.max 0 (e - h) < e)%Z as [Hs0 Hs1] by lia.
  assert (length (context_of h sess e) = Z.to_nat (e - Z.max 0 (e - h)))
    as Hlen by (apply length_py_slice; lia).
  assert (sess !! Z.to_nat e
          = Some (length (uttrs (w_store w0)) + i)) as Hpos' by exact Hpos.
  assert (forall k, k < length (context_of h sess e) ->
            context_of h sess e !! k
            = sess !! (Z.to_nat (Z.max 0 (e - h)) + k)) as Hctx.
  { intros k Hk. apply lookup_py_slice; lia. }
  destruct (pool_cells _ _ _ _ _ _ H (length (uttrs (w_store w0)) + i))
    as (i' & raw & Ei & Hraw & Hcell_p).
  { apply list_elem_of_lookup_2 in Hpos'.
    apply list_elem_of_In, in_concat. exists sess.
    split; by apply list_elem_of_In. }
  destruct Hcase as [-> | ->].
  - exists sess, e, (context_of h sess e), (length (uttrs (w_store w0)) + i),
      (tokenized (config.max_uttr_len cfg) raw
                 (length (metas (w_store w0)) + i')),
      (length (uttrs (w_store w0)) + i).
    cbn zeta. fold h. unfold positive_segment. cbn [utterances].
    rewrite (py_slice_snoc sess _ e _ Hs0 ltac:(lia) Hpos').
    fold (context_of h sess e). rewrite length_app. simpl.
    split; [done |]. split; [done |]. split; [done |]. split; [lia |].
    split; [lia |]. split; [done |]. split; [done |]. split; [done |].
    by left.
  - exists sess, e, (context_of h sess e), (pair_negative p),
      (with_is_next false (with_utterance_meta m qu)),
      (length (uttrs (w_store w0)) + i).
    cbn zeta. fold h. unfold negative_segment. cbn [utterances].
    rewrite length_app. simpl.
    split; [done |]. split; [done |]. split; [done |]. split; [lia |].
    split; [lia |]. split; [done |]. split; [done |]. split; [done |].
    by right.
Qed.

Lemma segment_invariant_witness :
  @init sample_tokenizer sample_data sample_config sample_world
  = Ret (sample_sessions, sample_source, sample_world') /\
  forall seg, seg ∈ _segments sample_source ->
    exists sess e context target tu positive,
      let h := config.history_len sample_config in
      let start := Z.to_nat (Z.max 0 (e - h)) in
      sess ∈ sample_sessions /\ (1 <= e < Z.of_nat (length sess))%Z /\
      utterances seg = context ++ [target] /\
      (2 <= Z.of_nat (length (utterances seg)) <= h + 1)%Z /\
      start + length context = Z.to_nat e /\
      (forall k, k < length context -> context !! k = sess !! (start + k)) /\
      sess !! Z.to_nat e = Some positive /\
      uttrs (w_store sample_world') !! target = Some tu /\
      ((target = positive /\ is_next tu = true) \/
       (is_next tu = false /\
        metas (w_store sample_world') !! utterance_meta tu
        = Some (Meta (Some positive)))).
Proof.
  split; [vm_compute; reflexivity |].
  apply (@segment_invariant sample_tokenizer sample_data sample_config
           sample_world sample_sessions sample_source sample_world').
  - vm_compute. discriminate.
  - vm_compute. reflexivity.
Defined.

(** C1: the target of every negative segment has a coverage score with its
    true positive that is below the threshold [0.8]; the score is the float
    [(|A∩B|/|A| + |A∩B|/|B|) / 2] over the sets of unique ids; and the test
    accepts a candidate exactly when its score is below the threshold. *)
Theorem negative_below_threshold {tokenizer : Tokenizer}
  data cfg w0 sessions ds w :
  init data cfg w0 = Ret (sessions, ds, w) ->
  (forall seg target tu,
     seg ∈ _segments ds -> last (utterances seg) = Some target ->
     uttrs (w_store w) !! target = Some tu -> is_next tu = false ->
     exists positive pu score,
       metas (w_store w) !! utterance_meta tu = Some (Meta (Some positive)) /\
       positive ∈ utterance_pool ds /\
       uttrs (w_store w) !! positive = Some pu /\
       coverage_score (token_ids pu) (token_ids tu) = Ret score /\
       (score <? threshold)%float = true) /\
  (forall (ids1 ids2 : list Z) score,
     coverage_score ids1 ids2 = Ret score ->
     let i := float_of_len (size (id_set ids1 ∩ id_set ids2)) in
     score = ((i / float_of_len (size (id_set ids1))
               + i / float_of_len (size (id_set ids2))) / 2)%float) /\
  (forall ids1 ids2 : list Z,
     _are_different_uttrs ids1 ids2 = Ret true <->
     exists score, coverage_score ids1 ids2 = Ret score /\
                   (score <? threshold)%float = true).
Proof.
  intros H. split; [|split].
  - intros seg target tu Hseg Hlast Htu Hfalse.
    destruct (negative_target _ _ _ _ _ _ _ _ _ H Hseg Hlast Htu Hfalse)
      as (p & Hok & Hsess & He & -> & ->).
    destruct Hok as (i & j & pu & qu & m & Hpos & Hpu & Hsrc & Hqu & Hdiff
                     & Hneg & Hcell & Hm & Hmeta & Hself).
    rewrite Hcell in Htu. injection Htu as <-. simpl.
    apply are_different_uttrs_spec in Hdiff as (score & Hscore & Hlt).
    exists (length (uttrs (w_store w0)) + i), pu, score.
    pose proof H as Hspec.
    apply init_spec in Hspec
      as (_ & Hcat & Hpool & _ & _ & _ & _ & _ & _ & _ & Hinv & _).
    split; [done |]. split; [|split; [|done]].
    + rewrite Hpool, Hcat. apply elem_of_seq.
      apply lookup_lt_Some in Hpu. lia.
    + destruct Hinv as (S1 & _). by apply S1.
  - intros ids1 ids2 score Hs. unfold coverage_score in Hs.
    apply res_bind_inv in Hs as (q1 & H1 & Hs).
    apply res_bind_inv in Hs as (q2 & H2 & Hs).
    apply true_div_inv in H1 as [_ ->]. apply true_div_inv in H2 as [_ ->].
    by injection Hs as <-.
  - intros ids1 ids2. rewrite are_different_uttrs_spec.
    split; intros (score & Hs & Hb); exists score; split; done.
Qed.

Lemma negative_below_threshold_witness :
  @init sample_tokenizer sample_data sample_config sample_world
  = Ret (sample_sessions, sample_source, sample_world') /\
  (forall seg target tu,
     seg ∈ _segments sample_source -> last (utterances seg) = Some target ->
     uttrs (w_store sample_world') !! target = Some tu -> is_next tu = false ->
     exists positive pu score,
       metas (w_store sample_world') !! utterance_meta tu
       = Some (Meta (Some positive)) /\
       positive ∈ utterance_pool sample_source /\
       uttrs (w_store sample_world') !! positive = Some pu /\
       coverage_score (token_ids pu) (token_ids tu) = Ret score /\
       (score <? threshold)%float = true).
Proof.
  split; [vm_compute; reflexivity |].
  apply (@negative_below_threshold sample_tokenizer sample_data sample_config
           sample_world sample_sessions sample_source sample_world').
  vm_compute. reflexivity.
Defined.

(** C8: a negative target is a cell of its own, outside the pool, with the
    fields of a pool utterance other than the positive and a meta dict that
    no pool utterance has; the pool utterances are, after construction,
    exactly what tokenization made them, [is_next] true included. *)
Theorem negative_is_independent_copy {tokenizer : Tokenizer}
  data cfg w0 sessions ds w :
  init data cfg w0 = Ret (sessions, ds, w) ->
  (forall seg target tu,
     seg ∈ _segments ds -> last (utterances seg) = Some target ->
     uttrs (w_store w) !! target = Some tu -> is_next tu = false ->
     (target ∉ utterance_pool ds) /\
     exists source su positive,
       source ∈ utterance_pool ds /\
       uttrs (w_store w) !! source = Some su /\
       tu = with_is_next false (with_utterance_meta (utterance_meta tu) su) /\
       (forall q qu, q ∈ utterance_pool ds ->
          uttrs (w_store w) !! q = Some qu ->
          utterance_meta tu <> utterance_meta qu) /\
       metas (w_store w) !! utterance_meta tu = Some (Meta (Some positive)) /\
       positive ∈ utterance_pool ds /\
       source <> positive /\ target <> positive) /\
  (exists w1,
     process_sessions (config.max_uttr_len cfg) data w0 = Ret (sessions, w1) /\
     forall q, q ∈ utterance_pool ds ->
       exists qu, uttrs (w_store w1) !! q = Some qu /\
                  uttrs (w_store w) !! q = Some qu /\
                  is_next qu = true).
Proof.
  intros H. pose proof H as Hspec.
  apply init_spec in Hspec
    as (_ & Hcat & Hpool & _ & _ & _ & _ & _ & _ & _ & Hinv & _).
  destruct Hinv as (S1 & S2 & S3 & S4).
  set (n0 := length (uttrs (w_store w0))) in *.
  set (m0 := length (metas (w_store w0))) in *.
  set (cells := tokenized_list (config.max_uttr_len cfg) (concat data) m0) in *.
  assert (forall a, a ∈ utterance_pool ds <-> n0 <= a < n0 + length cells)
    as Hin_pool.
  { intros a. rewrite Hpool, Hcat, elem_of_seq. lia. }
  assert (forall q qu, q ∈ utterance_pool ds ->
            uttrs (w_store w) !! q = Some qu ->
            cells !! (q - n0) = Some qu /\ utterance_meta qu = m0 + (q - n0) /\
            is_next qu = true) as Hpool_cell.
  { intros q qu Hq Hqu. apply Hin_pool in Hq.
    destruct (lookup_lt_is_Some_2 cells (q - n0) ltac:(lia)) as [c Hc].
    pose proof (S1 _ _ Hc) as Hc'. replace (n0 + (q - n0)) with q in Hc' by lia.
    assert (qu = c) as -> by congruence.
    apply tokenized_list_lookup_inv in Hc as Hc2. destruct Hc2 as (raw & _ & ->).
    done. }
  split.
  - intros seg target tu Hseg Hlast Htu Hfalse.
    destruct (negative_target _ _ _ _ _ _ _ _ _ H Hseg Hlast Htu Hfalse)
      as (p & Hok & Hsess & He & -> & ->).
    destruct Hok as (i & j & pu & qu & m & Hpos & Hpu & Hsrc & Hqu & Hdiff
                     & Hneg & Hcell & Hm & Hmeta & Hself).
    fold n0 m0 cells in Hpos, Hpu, Hsrc, Hqu, Hneg, Hcell, Hm, Hmeta, Hself.
    rewrite Hcell in Htu. injection Htu as <-. simpl.
    pose proof (lookup_lt_Some _ _ _ Hpu) as Hi.
    pose proof (lookup_lt_Some _ _ _ Hqu) as Hj.
    split; [rewrite Hin_pool; lia |].
    exists (n0 + j), qu, (n0 + i).
    split; [apply Hin_pool; lia |]. split; [by apply S1 |].
    split; [by destruct qu |].
    split.
    { intros q qu' Hq Hqu'. destruct (Hpool_cell _ _ Hq Hqu') as (_ & -> & _).
      apply Hin_pool in Hq. lia. }
    split; [done |]. split; [apply Hin_pool; lia |].
    split; [|lia].
    intros E. assert (j = i) as -> by lia.
    assert (qu = pu) as -> by congruence.
    by apply are_different_uttrs_self in Hdiff.
  - unfold init in H. apply bind_inv in H as (ss & w1 & Hp & H).
    apply bind_inv in H as (segs & w2 & Hsegs & H).
    apply bind_inv in H as (ntok & w3 & Hcount & H).
    apply ret_inv in H as [[= -> ->] ->].
    exists w1. split; [done |]. intros q Hq.
    apply process_sessions_inv in Hp as (_ & _ & ->). simpl.
    pose proof Hq as Hq'. apply Hin_pool in Hq'.
    destruct (lookup_lt_is_Some_2 cells (q - n0) ltac:(lia)) as [c Hc].
    pose proof (S1 _ _ Hc) as Hc'. replace (n0 + (q - n0)) with q in Hc' by lia.
    exists c. split; [|split; [done |]].
    + rewrite lookup_app_r by (fold n0; lia). by fold n0 m0 cells.
    + by destruct (Hpool_cell _ _ Hq Hc') as (_ & _ & ?).
Qed.

Lemma negative_is_independent_copy_witness :
  @init sample_tokenizer sample_data sample_config sample_world
  = Ret (sample_sessions, sample_source, sample_world') /\
  (forall seg target tu,
     seg ∈ _segments sample_source -> last (utterances seg) = Some target ->
     uttrs (w_store sample_world') !! target = Some tu -> is_next tu = false ->
     (target ∉ utterance_pool sample_source) /\
     exists source su positive,
       source ∈ utterance_pool sample_source /\
       uttrs (w_store sample_world') !! source = Some su /\
       tu = with_is_next false (with_utterance_meta (utterance_meta tu) su) /\
       (forall q qu, q ∈ utterance_pool sample_source ->
          uttrs (w_store sample_world') !! q = Some qu ->
          utterance_meta tu <> utterance_meta qu) /\
       metas (w_store sample_world') !! utterance_meta tu
       = Some (Meta (Some positive)) /\
       positive ∈ utterance_pool sample_source /\
       source <> positive /\ target <> positive).
Proof.
  split; [vm_compute; reflexivity |].
  apply (@negative_is_independent_copy sample_tokenizer sample_data
           sample_config sample_world sample_sessions sample_source
           sample_world').
  vm_compute. reflexivity.
Defined.

(** ** The batch loop *)

Section NextLoop.

Context {tokenizer : Tokenizer}.

Lemma length_get_uttrs st l us :
  get_uttrs st l = Ret us -> length us = length l.
Proof.
  revert us. induction l as [|a l IH]; intros us H; simpl in H.
  - by injection H as <-.
  - inv_M. injection H as <-. simpl. f_equal. by apply IH.
Qed.

(** Lines 143-162 add the sample of the segment. *)
Lemma emit_segment_sample st h l acc :
  emit_segment st h l acc =
  res_bind (sample_of st l) (fun s => Ret (emit h acc s)).
Proof.
  unfold emit_segment, sample_of.
  destruct (get_uttrs st (py_slice l 0 (-1))) as [context|] eqn:Hctx;
    [|reflexivity]. simpl.
  destruct (py_index l (-1)) as [last|] eqn:Hlast; [|reflexivity]. simpl.
  destruct (get_uttr st last) as [uttr|]; [|reflexivity]. simpl.
  destruct (get_meta st (utterance_meta uttr)) as [mt|]; [|reflexivity]. simpl.
  destruct (from_option (Exc KeyError) (reference_uttr mt)) as [ref|];
    [|reflexivity]. simpl.
  destruct (get_uttr st ref) as [ref_uttr|]; [|reflexivity]. simpl.
  apply py_index_last_inv in Hlast as (l' & ->).
  rewrite py_slice_init in Hctx. apply length_get_uttrs in Hctx.
  unfold emit, sample_rows, sample_floors, n_pad. simpl.
  rewrite length_app, !length_fmap, Hctx. simpl.
  rewrite <- !list_fmap_compose.
  replace (length l' + 1) with (S (length l')) by lia.
  reflexivity.
Qed.

Lemma sample_of_is_next st l s :
  sample_of st l = Ret s ->
  exists last uttr,
    py_index l (-1) = Ret last /\ get_uttr st last = Ret uttr /\
    is_next uttr = s_is_next s.
Proof.
  unfold sample_of. intros H.
  apply res_bind_inv in H as (context & _ & H).
  apply res_bind_inv in H as (last & Hlast & H).
  apply res_bind_inv in H as (uttr & Huttr & H).
  apply res_bind_inv in H as (mt & _ & H).
  apply res_bind_inv in H as (ref & _ & H).
  apply res_bind_inv in H as (ref_uttr & _ & H).
  injection H as <-. eauto.
Qed.

(** Lines 135-162 on a segment that has a sample. *)
Lemma take_segment_sample st h paired seg acc s :
  sample_of st (utterances seg) = Ret s ->
  take_segment st h paired seg acc =
  Ret (if skipped paired s then acc else emit h acc s).
Proof.
  intros Hs. unfold take_segment, skipped.
  destruct paired; simpl.
  - destruct (sample_of_is_next _ _ _ Hs) as (last & uttr & H1 & H2 & H3).
    rewrite H1. simpl. rewrite H2. simpl. rewrite H3.
    destruct (s_is_next s); [done |].
    by rewrite emit_segment_sample, Hs.
  - by rewrite emit_segment_sample, Hs.
Qed.

Lemma length_cY_emit h acc s :
  length (cY (emit h acc s)) = S (length (cY acc)).
Proof. simpl. rewrite length_app. simpl. lia. Qed.

(** The loop of lines 131-162 over segments that have samples: it examines
    [examined ...] of them and emits those it does not skip. *)
Lemma next_loop_samples st h bs paired rest ss cur acc :
  Forall2 (fun seg s => sample_of st (utterances seg) = Ret s) rest ss ->
  let k := examined bs paired ss (length (cY acc)) in
  next_loop st h bs paired rest cur acc =
  (cur + k, Ret (foldl (emit h) acc (accepted paired (take k ss)))).
Proof.
  intros HF. revert cur acc.
  induction HF as [|seg s rest ss Hs _ IH]; intros cur acc; simpl.
  - by rewrite Nat.add_0_r.
  - destruct (Z.of_nat (length (cY acc)) =? bs)%Z eqn:E.
    + by rewrite Nat.add_0_r.
    + rewrite (take_segment_sample _ _ _ _ _ _ Hs).
      change (take (S ?n) (s :: ss)) with (s :: take n ss).
      unfold accepted. rewrite filter_cons.
      destruct (skipped paired s) eqn:Hskip.
      * rewrite IH. rewrite decide_False by done.
        f_equal. lia.
      * rewrite IH, length_cY_emit. rewrite decide_True by done.
        simpl. f_equal. lia.
Qed.

Lemma examined_le bs paired ss n : examined bs paired ss n <= length ss.
Proof.
  revert n. induction ss as [|s ss IH]; intros n; simpl; [lia |].
  destruct (Z.of_nat n =? bs)%Z; [lia |]. specialize (IH
    (if skipped paired s then n else S n)). lia.
Qed.

(** The loop stops early only with a full batch. *)
Lemma examined_stop bs paired ss n :
  let k := examined bs paired ss n in
  k = length ss \/
  Z.of_nat (n + length (accepted paired (take k ss))) = bs.
Proof.
  revert n. induction ss as [|s ss IH]; intros n; simpl; [by left |].
  destruct (Z.of_nat n =? bs)%Z eqn:E.
  - right. simpl. apply Z.eqb_eq in E. lia.
  - change (take (S ?n) (s :: ss)) with (s :: take n ss).
    unfold accepted in *. rewrite filter_cons.
    destruct (skipped paired s) eqn:Hskip.
    + rewrite decide_False by done.
      destruct (IH n) as [-> | H]; [by left | by right].
    + rewrite decide_True by done.
      destruct (IH (S n)) as [-> | H]; [by left |]. right. simpl in *. lia.
Qed.

(** While the batch is not full the loop goes on. *)
Lemma examined_count bs paired ss n :
  (Z.of_nat n <= bs)%Z ->
  let k := examined bs paired ss n in
  (Z.of_nat (n + length (accepted paired (take k ss))) <= bs)%Z.
Proof.
  revert n. induction ss as [|s ss IH]; intros n Hn; simpl; [lia |].
  destruct (Z.of_nat n =? bs)%Z eqn:E; [simpl; lia |].
  apply Z.eqb_neq in E.
  change (take (S ?n) (s :: ss)) with (s :: take n ss).
  unfold accepted in *. rewrite filter_cons.
  destruct (skipped paired s) eqn:Hskip.
  - rewrite decide_False by done. by apply IH.
  - rewrite decide_True by done. specialize (IH (S n) ltac:(lia)).
    simpl in *. lia.
Qed.

(** The six lists after a run of accepted samples. *)
Lemma foldl_emit_fields h acc l :
  let acc' := foldl (emit h) acc l in
  cX acc' = cX acc ++ concat (sample_rows h <$> l) /\
  cY acc' = cY acc ++ (s_target_ids <$> l) /\
  cY_ref acc' = cY_ref acc ++ (s_ref_ids <$> l) /\
  cX_floor acc' = cX_floor acc ++ concat (sample_floors h <$> l) /\
  cY_floor acc' = cY_floor acc ++ (s_target_floor <$> l) /\
  cY_is_next acc' = cY_is_next acc ++ (s_is_next <$> l).
Proof.
  revert acc. induction l as [|s l IH]; intros acc; simpl.
  - by rewrite !app_nil_r.
  - destruct (IH (emit h acc s)) as (-> & -> & -> & -> & -> & ->). simpl.
    by rewrite <- !app_assoc.
Qed.

End NextLoop.

(** ** Tensors *)

Section Tensors.

Context {tokenizer : Tokenizer}.

Lemma max_len_ge (batch_ids : list (list Z)) ids :
  ids ∈ batch_ids -> length ids <= max_len batch_ids.
Proof.
  unfold max_len. induction batch_ids as [|x l IH]; intros H.
  - by apply elem_of_nil in H.
  - rewrite fmap_cons. cbn [foldr].
    apply elem_of_cons in H as [-> | H]; [lia |].
    specialize (IH H). lia.
Qed.

Lemma length_pad_row width ids :
  length ids <= width -> length (pad_row width ids) = width.
Proof.
  intros H. unfold pad_row. rewrite length_app, length_replicate. lia.
Qed.

Lemma convert_batch_ids_to_tensor_rows batch_ids :
  convert_batch_ids_to_tensor batch_ids
  = pad_row (max_len batch_ids) <$> batch_ids.
Proof. reflexivity. Qed.

Lemma length_tensor batch_ids :
  length (convert_batch_ids_to_tensor batch_ids) = length batch_ids.
Proof. rewrite convert_batch_ids_to_tensor_rows. apply length_fmap. Qed.

(** The rows of a tensor all have the width of the longest sequence. *)
Lemma tensor_rows_uniform batch_ids :
  Forall (fun row => length row = max_len batch_ids)
         (convert_batch_ids_to_tensor batch_ids).
Proof.
  rewrite convert_batch_ids_to_tensor_rows. apply Forall_fmap, Forall_forall.
  intros ids Hin. simpl. by apply length_pad_row, max_len_ge.
Qed.

Lemma length_concat_uniform {A} (rows : list (list A)) (width : nat) :
  Forall (fun r => length r = width) rows ->
  length (concat rows) = length rows * width.
Proof.
  induction 1 as [|r rows Hr _ IH]; [done |].
  simpl. rewrite length_app, IH, Hr. lia.
Qed.

(** The [k]-th stretch of [width] elements of the concatenation of rows of
    that width is the [k]-th row. *)
Lemma take_drop_concat_uniform {A} (rows : list (list A)) (width k : nat) r :
  Forall (fun r => length r = width) rows ->
  rows !! k = Some r ->
  take width (drop (k * width) (concat rows)) = r.
Proof.
  intros HF. revert k. induction HF as [|r0 rows Hr0 _ IH]; intros k Hk;
    [done |].
  destruct k as [|k]; simpl in *.
  - injection Hk as ->. rewrite drop_0. by apply take_app_length'.
  - rewrite drop_app_add' by done. by apply IH.
Qed.

Lemma chunks_of_concat {A} (rows : list (list A)) (width : nat) :
  Forall (fun r => length r = width) rows ->
  (fun i => take width (drop (i * width) (concat rows)))
    <$> seq 0 (length rows) = rows.
Proof.
  intros HF. apply list_eq. intros i. rewrite list_lookup_fmap.
  destruct (rows !! i) as [r|] eqn:Hr.
  - rewrite (lookup_seq_lt _ _ _ (lookup_lt_Some _ _ _ Hr)). simpl.
    f_equal. by apply take_drop_concat_uniform.
  - rewrite lookup_seq_ge; [done |]. by apply lookup_ge_None.
Qed.

Lemma lookup_concat_uniform {A} (blocks : list (list A)) (d i j : nat) :
  Forall (fun b => length b = d) blocks -> j < d ->
  concat blocks !! (i * d + j) = blocks !! i ≫= (.!! j).
Proof.
  intros HF Hj. revert i. induction HF as [|b blocks Hb _ IH]; intros i;
    [done |].
  destruct i as [|i]; simpl.
  - rewrite lookup_app_l by lia. done.
  - rewrite lookup_app_r by lia. rewrite <- IH. f_equal. lia.
Qed.

(** [view(d0, d1, -1)] of [d0] blocks of [d1] rows of one width gives the
    blocks back. *)
Lemma view3_blocks (blocks : list (list (list Z))) (d1 width : nat) :
  Forall (fun b => length b = d1) blocks ->
  Forall (fun r => length r = width) (concat blocks) ->
  blocks <> [] -> 0 < d1 ->
  view3 (concat blocks) (length blocks) d1 = Ret blocks.
Proof.
  intros Hb Hr Hne Hd. unfold view3.
  assert (0 < length blocks) by (destruct blocks; [done | simpl; lia]).
  rewrite (length_concat_uniform _ _ Hr), (length_concat_uniform _ _ Hb).
  rewrite decide_False by nia.
  rewrite (Nat.mul_comm (length blocks * d1) width).
  rewrite decide_True by (by rewrite Nat.Div0.mod_mul).
  rewrite Nat.div_mul by nia.
  f_equal. apply list_eq. intros i. rewrite list_lookup_fmap.
  destruct (blocks !! i) as [b|] eqn:Hbi.
  - pose proof (lookup_lt_Some _ _ _ Hbi) as Hi.
    rewrite (lookup_seq_lt _ _ _ Hi). simpl. f_equal.
    rewrite Forall_forall in Hb.
    assert (length b = d1) as Hlb
      by (apply Hb; by eapply list_elem_of_lookup_2).
    rewrite <- Hlb. apply list_eq. intros j. rewrite list_lookup_fmap.
    destruct (b !! j) as [r|] eqn:Hbj.
    + pose proof (lookup_lt_Some _ _ _ Hbj) as Hj.
      rewrite (lookup_seq_lt _ _ _ Hj). simpl. f_equal.
      apply take_drop_concat_uniform; [done |].
      rewrite Hlb. rewrite lookup_concat_uniform; [| |lia].
      * by rewrite Hbi.
      * by apply Forall_forall.
    + rewrite lookup_seq_ge; [done |]. by apply lookup_ge_None.
  - rewrite lookup_seq_ge; [done |]. by apply lookup_ge_None.
Qed.

Lemma view2_blocks (blocks : list (list Z)) (d1 : nat) :
  Forall (fun b => length b = d1) blocks ->
  view2 (concat blocks) (length blocks) d1 = Ret blocks.
Proof.
  intros Hb. unfold view2.
  rewrite decide_True by (by apply length_concat_uniform).
  f_equal. by apply chunks_of_concat.
Qed.

End Tensors.

(** ** [next], on segments that have samples *)

Section NextSpec.

Context {tokenizer : Tokenizer}.

Lemma fmap_concat {A B} (f : A -> B) (ls : list (list A)) :
  fmap (M := list) f (concat ls)
  = concat (fmap (M := list) (fmap (M := list) f) ls).
Proof.
  induction ls as [|l ls IH]; [done |].
  simpl. by rewrite fmap_app, IH.
Qed.

Lemma length_sample_rows (hn : nat) s :
  length (s_context s) <= hn ->
  length (sample_rows (Z.of_nat hn) s) = hn.
Proof.
  intros H. unfold sample_rows, n_pad.
  rewrite length_app, length_fmap, length_replicate. lia.
Qed.

Lemma length_sample_floors (hn : nat) s :
  length (s_context s) <= hn ->
  length (sample_floors (Z.of_nat hn) s) = hn.
Proof.
  intros H. unfold sample_floors, n_pad.
  rewrite length_app, length_fmap, length_replicate. lia.
Qed.

Lemma assemble_nothing : assemble nothing_collected = raise ZeroDivisionError.
Proof. reflexivity. Qed.

(** Lines 164-188 on the lists of a non-empty run of samples whose
    contexts fit the history. *)
Lemma assemble_accepted (hn : nat) (l : list sample) :
  0 < hn -> l <> [] ->
  Forall (fun s => length (s_context s) <= hn) l ->
  assemble (foldl (emit (Z.of_nat hn)) nothing_collected l)
  = Ret (batch_of (Z.of_nat hn) l).
Proof.
  intros Hhn Hne Hfit. set (h := Z.of_nat hn).
  destruct (foldl_emit_fields h nothing_collected l)
    as (EX & EY & ER & EF & EYF & EN).
  unfold assemble. rewrite EX, EY, ER, EF, EYF, EN. simpl.
  assert (0 < length l) as Hl by (destruct l; [done | simpl; lia]).
  rewrite (length_tensor (s_target_ids <$> l)), length_fmap.
  rewrite decide_False by lia.
  set (blocks := (fun s => pad_row (max_len (concat (sample_rows h <$> l)))
                             <$> sample_rows h s) <$> l).
  assert (convert_batch_ids_to_tensor (concat (sample_rows h <$> l))
          = concat blocks) as EXt.
  { rewrite convert_batch_ids_to_tensor_rows, fmap_concat.
    unfold blocks. by rewrite <- list_fmap_compose. }
  assert (Forall (fun b => length b = hn) blocks) as Hblocks.
  { unfold blocks. apply Forall_fmap. eapply Forall_impl; [exact Hfit |].
    intros s Hs. simpl. rewrite length_fmap. by apply length_sample_rows. }
  assert (length blocks = length l) as Hlb
    by (unfold blocks; by rewrite length_fmap).
  rewrite EXt. rewrite (length_concat_uniform _ _ Hblocks), Hlb.
  rewrite Nat.mul_comm, Nat.div_mul by lia.
  rewrite <- Hlb at 1.
  rewrite (view3_blocks blocks hn (max_len (concat (sample_rows h <$> l))));
    [| done | | | done].
  - simpl.
    assert (Forall (fun b => length b = hn) (sample_floors h <$> l)) as Hfl.
    { apply Forall_fmap. eapply Forall_impl; [exact Hfit |].
      intros s Hs. by apply length_sample_floors. }
    replace (length l) with (length (sample_floors h <$> l))
      by (by rewrite length_fmap).
    rewrite (view2_blocks _ _ Hfl). reflexivity.
  - rewrite <- EXt. apply tensor_rows_uniform.
  - intros E. rewrite E in Hlb. simpl in Hlb. lia.
Qed.

Lemma set_iteration_fields cur segs ds :
  cur_segment_idx (set_iteration cur segs ds) = Some cur /\
  segments (set_iteration cur segs ds) = Some segs /\
  _segments (set_iteration cur segs ds) = _segments ds /\
  history_len (set_iteration cur segs ds) = history_len ds /\
  utterance_pool (set_iteration cur segs ds) = utterance_pool ds /\
  statistics (set_iteration cur segs ds) = statistics ds.
Proof. done. Qed.

(** [next], when the segments from the cursor on have samples. *)
Lemma next_samples st bs paired ds cur segs ss :
  cur_segment_idx ds = Some cur -> segments ds = Some segs ->
  cur < length segs ->
  samples_from st segs cur ss ->
  let k := examined bs paired ss 0 in
  next st bs paired ds =
  (set_iteration (cur + k) segs ds,
   res_bind (assemble (foldl (emit (history_len ds)) nothing_collected
                             (accepted paired (take k ss))))
            (fun b => Ret (Some b))).
Proof.
  intros Hcur Hsegs Hlt Hss k. unfold next. rewrite Hcur, Hsegs.
  rewrite decide_False by lia.
  rewrite (next_loop_samples _ _ _ _ _ _ _ _ Hss). reflexivity.
Qed.

Lemma next_exhausted st bs paired ds segs :
  cur_segment_idx ds = Some (length segs) -> segments ds = Some segs ->
  next st bs paired ds = (ds, Ret None).
Proof.
  intros Hcur Hsegs. unfold next. rewrite Hcur, Hsegs.
  by rewrite decide_True.
Qed.

End NextSpec.

(** ** Deep copies are faithful *)

Section Copy.

Variable st : store.
Variable R : nat -> Prop.
Hypothesis R_closed : closed_under_reference st R.

Local Abbreviation copy_ok := (copy_ok st).
Local Abbreviation linked := (linked st).
Local Abbreviation meta_done := (meta_done st).
Local Abbreviation copier_post := (copier_post st).

Lemma with_utterance_meta_id u : with_utterance_meta (utterance_meta u) u = u.
Proof. by destruct u. Qed.

Lemma with_utterance_meta_twice m m' u :
  with_utterance_meta m (with_utterance_meta m' u) = with_utterance_meta m u.
Proof. by destruct u. Qed.

Lemma copier_ext_refl c : copier_ext c c.
Proof. by repeat split. Qed.

Lemma copier_ext_trans c1 c2 c3 :
  copier_ext c1 c2 -> copier_ext c2 c3 -> copier_ext c1 c3.
Proof.
  intros (A1 & A2 & A3 & A4) (B1 & B2 & B3 & B4).
  repeat split; by etrans.
Qed.

Lemma linked_ext c c' x : copier_ext c c' -> linked c x -> linked c' x.
Proof.
  intros (E1 & E2 & E3 & E4) (x' & u & m' & H1 & H2 & H3 & H4).
  exists x', u, m'. repeat split; try done.
  - by eapply lookup_weaken.
  - by eapply prefix_lookup_Some'.
  - by eapply lookup_weaken.
Qed.

Lemma meta_done_ext c c' m : copier_ext c c' -> meta_done c m -> meta_done c' m.
Proof.
  intros (E1 & E2 & E3 & E4) (m' & mt & H1 & H2 & H3 & H4).
  exists m', mt. split; [by eapply lookup_weaken |]. split; [done |].
  split.
  - apply (prefix_lookup_Some' _ _ _ _ E2) in H3. rewrite H3. do 2 f_equal.
    destruct (reference_uttr mt) as [r|]; [|done]. simpl.
    destruct (H4 r eq_refl) as [r' Hr]. rewrite Hr.
    symmetry. by eapply lookup_weaken.
  - intros r Hr. destruct (H4 r Hr) as [r' Hr'].
    exists r'. by eapply lookup_weaken.
Qed.

Lemma deepcopy_uttr_post fuel : forall a c a' c',
  R a -> copy_ok c -> deepcopy_uttr fuel a c = Ret (a', c') ->
  copier_post c c' /\ memo_u c' !! a = Some a'.
Proof.
  induction fuel as [|fuel IH]; intros a c a0 c' Ha Hok H; simpl in H;
    destruct (memo_u c !! a) as [b|] eqn:Hmemo.
  1, 3: injection H as <- <-; (split; [|done]); split; [done |];
    split; [apply copier_ext_refl |]; split; intros ? ? Hn Hs; congruence.
  { discriminate. }
  destruct (R_closed a Ha) as (u & mt & Hu & Hmt & Hclosed).
  pose proof Hok as (P1 & P2 & P3 & P4).
  rewrite (prefix_lookup_Some' _ _ _ _ P1 Hu) in H.
  apply res_bind_inv in H as ([m' c4] & Hmeta & H). injection H as <- <-.
  simpl in Hmeta.
  set (a' := length (uttrs (c_store c))) in *.
  set (c1 := Copier (Store (uttrs (c_store c) ++ [u]) (metas (c_store c)))
                    (<[a := a']> (memo_u c)) (memo_m c)).
  assert (copy_ok c1) as Hok1.
  { split; [simpl; by apply prefix_app_r |]. split; [done |]. split.
    - intros x x' Hx. simpl in Hx. apply lookup_insert_Some in Hx
        as [[<- <-] | [Hne Hx]].
      + exists u, (utterance_meta u). split; [done |]. simpl.
        rewrite with_utterance_meta_id. by apply list_lookup_middle.
      + destruct (P3 _ _ Hx) as (u0 & m0 & H1 & H2).
        exists u0, m0. split; [done |]. simpl. by apply lookup_app_l_Some.
    - intros m0 m0' Hm0. simpl. by eapply P4. }
  assert (copy_ok c4 /\
          uttrs (c_store c) ++ [u] `prefix_of` uttrs (c_store c4) /\
          metas (c_store c) `prefix_of` metas (c_store c4) /\
          <[a := a']> (memo_u c) ⊆ memo_u c4 /\
          memo_m c ⊆ memo_m c4 /\
          memo_m c4 !! utterance_meta u = Some m' /\
          (forall x x', <[a := a']> (memo_u c) !! x = None ->
             memo_u c4 !! x = Some x' -> linked c4 x /\ S a' <= x') /\
          (forall m0 m0', memo_m c !! m0 = None ->
             memo_m c4 !! m0 = Some m0' ->
             meta_done c4 m0 /\ length (metas (c_store c)) <= m0'))
    as (Hok4 & U4 & M4 & MU4 & MM4 & Hm' & New4 & NewM4).
  { destruct (memo_m c !! utterance_meta u) as [mm|] eqn:Hmm.
    { (* the meta dict has a copy already *)
      injection Hmeta as <- <-. fold c1.
      split; [done |]. split; [done |]. split; [done |]. split; [done |].
      split; [done |]. split; [done |].
      split; intros ? ? Hn Hs; simpl in *; congruence. }
    rewrite (prefix_lookup_Some' _ _ _ _ P2 Hmt) in Hmeta.
    set (m2 := length (metas (c_store c))) in *.
    set (c2 := Copier (Store (uttrs (c_store c) ++ [u])
                             (metas (c_store c) ++ [Meta None]))
                      (<[a := a']> (memo_u c))
                      (<[utterance_meta u := m2]> (memo_m c))).
    assert (copy_ok c2) as Hok2.
    { destruct Hok1 as (Q1 & Q2 & Q3 & Q4).
      split; [done |]. split; [simpl; by apply prefix_app_r |].
      split; [done |].
      intros m0 m0' Hm0. simpl in *. rewrite length_app. simpl.
      apply lookup_insert_Some in Hm0 as [[<- <-] | [Hne Hm0]]; [lia |].
      specialize (P4 _ _ Hm0). lia. }
    destruct (reference_uttr mt) as [r|] eqn:Href.
    - (* the meta dict refers to an utterance: copy it *)
      apply res_bind_inv in Hmeta as ([r' c3] & Hrec & Hmeta).
      injection Hmeta as <- <-. fold c2 in Hrec.
      apply IH in Hrec as [(Hok3 & (E1 & E2 & E3 & E4) & New3 & NewM3) Hr'];
        [| by apply Hclosed | done].
      simpl in E1, E2, E3, E4.
      pose proof Hok3 as (T1 & T2 & T3 & T4).
      assert (m2 < length (metas (c_store c3))) as Hm2.
      { apply prefix_length in E2. rewrite length_app in E2. simpl in E2.
        lia. }
      split; [|split; [|split; [|split; [|split; [|split; [|split]]]]]];
        simpl.
      + split; simpl; [done |]. split.
        { apply prefix_insert_beyond; [done |]. apply prefix_length in P2.
          lia. }
        split; [done |]. intros m0 m0' Hm0. rewrite length_insert.
        by eapply T4.
      + done.
      + apply prefix_insert_beyond; [by eapply prefix_app_l' | done].
      + done.
      + etrans; [|exact E4]. by apply insert_subseteq.
      + eapply lookup_weaken; [|exact E4]. apply lookup_insert_eq.
      + intros x x' Hn Hs. destruct (New3 _ _ Hn Hs) as [Hl Hb].
        simpl in Hb. rewrite length_app in Hb. simpl in Hb.
        split; [|fold a' in Hb; lia].
        destruct Hl as (y & u0 & m0 & L1 & L2 & L3 & L4).
        by exists y, u0, m0.
      + intros m0 m0' Hn Hs.
        destruct (decide (m0 = utterance_meta u)) as [-> | Hne].
        * assert (m0' = m2) as ->.
          { pose proof (lookup_weaken _ _ (utterance_meta u) m2
                          (lookup_insert_eq _ _ _) E4) as Hw.
            simpl in Hs. congruence. }
          split; [|done]. exists m2, mt. simpl.
          split; [done |]. split; [done |]. split.
          { rewrite list_lookup_insert_eq by done. rewrite Href. simpl.
            by rewrite Hr'. }
          intros r0 Hr0. assert (r0 = r) as -> by congruence. by exists r'.
        * assert (<[utterance_meta u := m2]> (memo_m c) !! m0 = None) as Hn2
            by (by rewrite lookup_insert_ne).
          destruct (NewM3 _ _ Hn2 Hs) as [Hd Hb]. simpl in Hb.
          rewrite length_app in Hb. simpl in Hb. split; [|fold m2 in Hb; lia].
          destruct Hd as (y & mt0 & D1 & D2 & D3 & D4).
          exists y, mt0. simpl. split; [done |]. split; [done |].
          split; [|done].
          rewrite list_lookup_insert_ne; [done |].
          assert (y = m0') as -> by congruence. fold m2 in Hb. lia.
    - (* the meta dict refers to nothing *)
      injection Hmeta as <- <-. fold c2.
      split; [done |]. split; [done |].
      split; [simpl; by apply prefix_app_r |]. split; [done |].
      split; [simpl; by apply insert_subseteq |].
      split; [simpl; apply lookup_insert_eq |].
      split; [intros ? ? Hn Hs; simpl in *; congruence |].
      intros m0 m0' Hn Hs. simpl in Hs.
      apply lookup_insert_Some in Hs as [[<- <-] | [_ Hs]]; [|congruence].
      split; [|done]. exists m2, mt. simpl.
      split; [apply lookup_insert_eq |]. split; [done |].
      split; [|intros r0; congruence].
      rewrite Href. simpl. by apply list_lookup_middle. }
  (* the copy gets its meta dict *)
  assert (a' < length (uttrs (c_store c4))) as Ha'.
  { apply prefix_length in U4. rewrite length_app in U4. simpl in U4.
    fold a' in U4. lia. }
  assert (memo_u c4 !! a = Some a') as Hmemo4.
  { eapply lookup_weaken; [|exact MU4]. apply lookup_insert_eq. }
  assert (forall x x', memo_u c4 !! x = Some x' -> x' = a' -> x = a) as Hinj.
  { intros x x' Hx ->. destruct (decide (x = a)) as [|Hne]; [done |].
    destruct (memo_u c !! x) as [y|] eqn:Hy.
    - assert (<[a := a']> (memo_u c) !! x = Some y) as Hy'
        by (by rewrite lookup_insert_ne).
      pose proof (lookup_weaken _ _ _ _ Hy' MU4) as Hw.
      assert (y = a') as -> by congruence.
      destruct (P3 _ _ Hy) as (? & ? & _ & Hc).
      apply lookup_lt_Some in Hc. fold a' in Hc. lia.
    - assert (<[a := a']> (memo_u c) !! x = None) as Hn
        by (by rewrite lookup_insert_ne).
      destruct (New4 _ _ Hn Hx) as [_ ?]. lia. }
  pose proof Hok4 as (T1 & T2 & T3 & T4).
  split; [|done].
  split; [|split; [|split]].
  - split; simpl.
    { apply prefix_insert_beyond; [done |]. apply prefix_length in P1.
      fold a'. lia. }
    split; [done |]. split; [|done].
    intros x x' Hx. destruct (decide (x' = a')) as [-> | Hne].
    + rewrite (Hinj _ _ Hx eq_refl). exists u, m'. split; [done |].
      by apply list_lookup_insert_eq.
    + rewrite list_lookup_insert_ne by done. by eapply T3.
  - split; simpl.
    { apply prefix_insert_beyond; [by eapply prefix_app_l' | done]. }
    split; [done |].
    split; [|done]. etrans; [|exact MU4]. by apply insert_subseteq.
  - intros x x' Hn Hs. simpl in Hs.
    destruct (decide (x = a)) as [-> | Hne].
    + assert (x' = a') as -> by congruence. split; [|done].
      exists a', u, m'. simpl. split; [done |]. split; [done |].
      split; [by apply list_lookup_insert_eq | done].
    + assert (<[a := a']> (memo_u c) !! x = None) as Hn2
        by (by rewrite lookup_insert_ne).
      destruct (New4 _ _ Hn2 Hs) as [Hl Hb]. split; [|lia].
      destruct Hl as (y & u0 & m0 & L1 & L2 & L3 & L4).
      exists y, u0, m0. simpl. split; [done |]. split; [done |].
      split; [|done]. rewrite list_lookup_insert_ne; [done |].
      assert (y = x') as -> by congruence. lia.
  - intros m0 m0' Hn Hs. simpl in Hs.
    destruct (NewM4 _ _ Hn Hs) as [Hd Hb]. split; [|done].
    destruct Hd as (y & mt0 & D1 & D2 & D3 & D4). by exists y, mt0.
Qed.

(** Between calls from the top, everything in the memo is finished. *)
Lemma deepcopy_uttr_done fuel a c a' c' :
  R a -> copy_ok c -> all_done st c ->
  deepcopy_uttr fuel a c = Ret (a', c') ->
  copy_ok c' /\ all_done st c' /\ copier_ext c c' /\
  memo_u c' !! a = Some a'.
Proof.
  intros Ha Hok [Du Dm] H.
  apply deepcopy_uttr_post in H as [(Hok' & Hext & New & NewM) Hmemo];
    [| done | done].
  split; [done |]. split; [|done].
  split.
  - intros x [x' Hx]. destruct (memo_u c !! x) as [y|] eqn:Hy.
    + eapply linked_ext; [exact Hext |]. apply Du. by exists y.
    + by destruct (New _ _ Hy Hx).
  - intros m [m' Hm]. destruct (memo_m c !! m) as [y|] eqn:Hy.
    + eapply meta_done_ext; [exact Hext |]. apply Dm. by exists y.
    + by destruct (NewM _ _ Hy Hm).
Qed.

Lemma deepcopy_list_done fuel l : forall c l' c',
  Forall R l -> copy_ok c -> all_done st c ->
  deepcopy_list fuel l c = Ret (l', c') ->
  copy_ok c' /\ all_done st c' /\ copier_ext c c' /\
  Forall2 (fun a a' => memo_u c' !! a = Some a') l l'.
Proof.
  induction l as [|a l IH]; intros c l' c' HR Hok Hdone H; simpl in H.
  - injection H as <- <-. split; [done |]. split; [done |].
    split; [apply copier_ext_refl | constructor].
  - apply Forall_cons in HR as [Ha HR].
    apply res_bind_inv in H as ([a' c1] & Hc & H).
    apply res_bind_inv in H as ([l'' c2] & Hl & H). injection H as <- <-.
    apply deepcopy_uttr_done in Hc as (Hok1 & Hdone1 & Hext1 & Hmemo);
      [| done..].
    apply IH in Hl as (Hok2 & Hdone2 & Hext2 & HF); [| done..].
    split; [done |]. split; [done |].
    split; [by eapply copier_ext_trans |].
    constructor; [|done].
    destruct Hext2 as (_ & _ & E & _). by eapply lookup_weaken.
Qed.

Lemma deepcopy_segs_done fuel segs : forall c segs' c',
  Forall (fun seg => Forall R (utterances seg)) segs ->
  copy_ok c -> all_done st c ->
  deepcopy_segs fuel segs c = Ret (segs', c') ->
  copy_ok c' /\ all_done st c' /\ copier_ext c c' /\
  Forall2 (fun seg seg' =>
             Forall2 (fun a a' => memo_u c' !! a = Some a')
                     (utterances seg) (utterances seg')) segs segs'.
Proof.
  induction segs as [|seg segs IH]; intros c segs' c' HR Hok Hdone H;
    simpl in H.
  - injection H as <- <-. split; [done |]. split; [done |].
    split; [apply copier_ext_refl | constructor].
  - apply Forall_cons in HR as [Hseg HR].
    apply res_bind_inv in H as ([l c1] & Hc & H).
    apply res_bind_inv in H as ([segs'' c2] & Hl & H). injection H as <- <-.
    apply deepcopy_list_done in Hc as (Hok1 & Hdone1 & Hext1 & HF1);
      [| done..].
    apply IH in Hl as (Hok2 & Hdone2 & Hext2 & HF); [| done..].
    split; [done |]. split; [done |].
    split; [by eapply copier_ext_trans |].
    constructor; [|done]. simpl.
    destruct Hext2 as (_ & _ & E & _).
    eapply Forall2_impl; [exact HF1 |]. intros a a' Ha. simpl in Ha.
    by eapply lookup_weaken.
Qed.

Lemma start_copy_ok : copy_ok (start_copy st) /\ all_done st (start_copy st).
Proof.
  split.
  - split; [done |]. split; [done |].
    split; intros ? ? H; simpl in H; by rewrite lookup_empty in H.
  - split; intros ? [? H]; simpl in H; by rewrite lookup_empty in H.
Qed.

(** The copies of a run of utterances have the fields of the originals. *)
Lemma get_uttrs_copied c l l' us :
  copy_ok c ->
  Forall2 (fun a a' => memo_u c !! a = Some a') l l' ->
  get_uttrs st l = Ret us ->
  exists us', get_uttrs (c_store c) l' = Ret us' /\
              ids_and_floor <$> us' = ids_and_floor <$> us.
Proof.
  intros (_ & _ & P3 & _) HF. revert us.
  induction HF as [|a a' l l' Ha _ IH]; intros us H; simpl in H.
  - injection H as <-. by exists [].
  - apply res_bind_inv in H as (u & Hu & H).
    apply res_bind_inv in H as (us0 & Hus & H). injection H as <-.
    apply from_option_inv in Hu.
    destruct (P3 _ _ Ha) as (u0 & m & H1 & H2).
    assert (u0 = u) as -> by congruence.
    destruct (IH _ Hus) as (us' & Hus' & E).
    exists (with_utterance_meta m u :: us'). simpl.
    unfold get_uttr. rewrite H2. simpl. rewrite Hus'. simpl.
    split; [done |].
    change (ids_and_floor (with_utterance_meta m u) :: (ids_and_floor <$> us')
            = ids_and_floor u :: (ids_and_floor <$> us0)).
    rewrite E. by destruct u.
Qed.

(** The copy of a segment has the sample of the segment. *)
Lemma sample_of_copied c l l' s :
  copy_ok c -> all_done st c ->
  Forall2 (fun a a' => memo_u c !! a = Some a') l l' ->
  sample_of st l = Ret s ->
  sample_of (c_store c) l' = Ret s.
Proof.
  intros Hok [Du Dm] HF H. unfold sample_of in H.
  apply res_bind_inv in H as (context & Hctx & H).
  apply res_bind_inv in H as (last & Hlast & H).
  apply res_bind_inv in H as (uttr & Huttr & H).
  apply res_bind_inv in H as (mt & Hmt & H).
  apply res_bind_inv in H as (ref & Href & H).
  apply res_bind_inv in H as (ref_uttr & Hru & H). injection H as <-.
  apply from_option_inv in Huttr, Hmt, Href, Hru.
  apply py_index_last_inv in Hlast as (k & ->).
  apply Forall2_app_inv_l in HF as (k' & t' & Hk & Ht & ->).
  apply Forall2_cons_inv_l in Ht as (last' & nil' & Hl & Hnil & ->).
  apply Forall2_nil_inv_l in Hnil as ->.
  rewrite py_slice_init in Hctx.
  destruct (get_uttrs_copied _ _ _ _ Hok Hk Hctx) as (us' & Hus' & E).
  unfold sample_of. rewrite py_slice_init, Hus'. simpl.
  rewrite py_index_last. simpl.
  destruct (Du last (ex_intro _ _ Hl)) as (x' & u & m' & L1 & L2 & L3 & L4).
  assert (x' = last') as -> by congruence.
  assert (u = uttr) as -> by congruence.
  unfold get_uttr at 1. rewrite L3. simpl.
  destruct (Dm _ (ex_intro _ _ L4)) as (y & mt0 & D1 & D2 & D3 & D4).
  assert (y = m') as -> by congruence.
  assert (mt0 = mt) as -> by congruence.
  unfold get_meta. rewrite D3. simpl. rewrite Href. simpl.
  destruct (D4 _ Href) as [ref' Hr']. rewrite Hr'. simpl.
  destruct Hok as (_ & _ & P3 & _).
  destruct (P3 _ _ Hr') as (ru & m & R1 & R2).
  assert (ru = ref_uttr) as -> by congruence.
  unfold get_uttr. rewrite R2. simpl. by rewrite E.
Qed.

End Copy.

(** ** The samples of the constructed segments *)

Section CanonicalSamples.

Variables (n0 m0 : nat) (cells : list utterance).
Hypothesis cells_meta :
  forall i c, cells !! i = Some c -> utterance_meta c = m0 + i.
Hypothesis cells_next : forall i c, cells !! i = Some c -> is_next c = true.

Local Abbreviation store_inv := (store_inv n0 m0 cells).
Local Abbreviation made_ok := (made_ok n0 m0 cells).

Lemma get_uttrs_pool st (l : list nat) :
  store_inv st ->
  Forall (fun a => n0 <= a < n0 + length cells) l ->
  exists us, get_uttrs st l = Ret us.
Proof.
  intros (S1 & _) HF. induction HF as [|a l Ha _ [us IH]]; [by exists [] |].
  destruct (lookup_lt_is_Some_2 cells (a - n0) ltac:(lia)) as [c Hc].
  pose proof (S1 _ _ Hc) as Hc'. replace (n0 + (a - n0)) with a in Hc' by lia.
  exists (c :: us). simpl. unfold get_uttr. rewrite Hc'. simpl.
  by rewrite IH.
Qed.

Lemma Forall_py_slice {A} (P : A -> Prop) (l : list A) lo hi :
  Forall P l -> Forall P (py_slice l lo hi).
Proof.
  rewrite !Forall_forall. intros H x Hx. by eapply H, elem_of_py_slice.
Qed.

(** The two segments of a made pair have samples, and these are the
    positive and the negative sample of the pair's end index. *)
Lemma made_samples st h p :
  (0 <= h)%Z ->
  store_inv st -> made_ok st p ->
  Forall (fun a => n0 <= a < n0 + length cells) (pair_session p) ->
  (1 <= pair_end p < Z.of_nat (length (pair_session p)))%Z ->
  exists sp,
    Forall2 (fun seg s => sample_of st (utterances seg) = Ret s)
            (pair_segments h p) (pair_list sp) /\
    pair_sampled st h (pair_point p) sp /\
    (Z.of_nat (length (s_context sp.1)) <= h)%Z /\
    (Z.of_nat (length (s_context sp.2)) <= h)%Z.
Proof.
  intros Hh Hinv Hok Hrange He. pose proof Hinv as (S1 & S2 & S3 & S4).
  destruct Hok as (i & j & pu & qu & m & Hpos & Hpu & Hsrc & Hqu & Hdiff
                   & Hneg & Hcell & Hm & Hmeta & Hself).
  set (sess := pair_session p) in *. set (e := pair_end p) in *.
  destruct (get_uttrs_pool st (context_of h sess e) Hinv) as [us Hus].
  { by apply Forall_py_slice. }
  pose proof (length_get_uttrs _ _ _ Hus) as Hlen.
  unfold context_of in Hlen. rewrite length_py_slice in Hlen by lia.
  pose proof (S1 _ _ Hpu) as Hpu_st.
  pose proof (cells_meta _ _ Hpu) as Hpu_meta.
  pose proof (cells_next _ _ Hpu) as Hpu_next.
  set (ctx := ids_and_floor <$> us).
  exists (Sample ctx (token_ids pu) (floor_id pu) true (token_ids pu),
          Sample ctx (token_ids qu) (floor_id qu) false (token_ids pu)).
  split; [|split; [|split]]; simpl.
  - unfold pair_segments, pair_list. simpl. fold sess e.
    constructor; [|constructor; [|constructor]].
    + unfold positive_segment. cbn [utterances].
      assert (0 <= Z.max 0 (e - h))%Z as Hlo by lia.
      assert (Z.max 0 (e - h) <= e)%Z as Hle by lia.
      rewrite (py_slice_snoc sess _ e _ Hlo Hle Hpos).
      fold (context_of h sess e). unfold sample_of.
      rewrite py_slice_init, Hus. simpl. rewrite py_index_last. simpl.
      unfold get_uttr at 1. rewrite Hpu_st. simpl.
      unfold get_meta. rewrite Hpu_meta, Hself. simpl.
      unfold get_uttr. rewrite Hpu_st. simpl. by rewrite Hpu_next.
    + unfold negative_segment. cbn [utterances]. unfold sample_of.
      rewrite py_slice_init, Hus. simpl. rewrite py_index_last. simpl.
      unfold get_uttr at 1. rewrite Hcell. simpl.
      unfold get_meta. rewrite Hmeta. simpl.
      unfold get_uttr. rewrite Hpu_st. simpl. by destruct qu.
  - split; simpl; fold sess e.
    + exists (n0 + i), pu. repeat split; try done. by exists us.
    + exists (n0 + i), pu. repeat split; try done. by exists us.
  - unfold ctx. rewrite length_fmap, Hlen. lia.
  - unfold ctx. rewrite length_fmap, Hlen. lia.
Qed.

End CanonicalSamples.

(** ** Stores that only grow *)

Lemma store_ext_refl st : store_ext st st.
Proof. by split. Qed.

Lemma get_uttrs_ext st st' l us :
  store_ext st st' -> get_uttrs st l = Ret us -> get_uttrs st' l = Ret us.
Proof.
  intros [E1 E2]. revert us. induction l as [|a l IH]; intros us H;
    simpl in *; [done |].
  apply res_bind_inv in H as (u & Hu & H).
  apply res_bind_inv in H as (us0 & Hus & H). injection H as <-.
  apply from_option_inv in Hu. unfold get_uttr.
  rewrite (prefix_lookup_Some' _ _ _ _ E1 Hu). simpl.
  by rewrite (IH _ Hus).
Qed.

Lemma sample_of_ext st st' l s :
  store_ext st st' -> sample_of st l = Ret s -> sample_of st' l = Ret s.
Proof.
  intros Hext H. pose proof Hext as [E1 E2]. unfold sample_of in *.
  apply res_bind_inv in H as (context & Hctx & H).
  apply res_bind_inv in H as (last & Hlast & H).
  apply res_bind_inv in H as (uttr & Huttr & H).
  apply res_bind_inv in H as (mt & Hmt & H).
  apply res_bind_inv in H as (ref & Href & H).
  apply res_bind_inv in H as (ref_uttr & Hru & H). injection H as <-.
  apply from_option_inv in Huttr, Hmt, Href, Hru.
  rewrite (get_uttrs_ext _ _ _ _ Hext Hctx). simpl. rewrite Hlast. simpl.
  unfold get_uttr at 1. rewrite (prefix_lookup_Some' _ _ _ _ E1 Huttr). simpl.
  unfold get_meta. rewrite (prefix_lookup_Some' _ _ _ _ E2 Hmt). simpl.
  rewrite Href. simpl.
  unfold get_uttr. by rewrite (prefix_lookup_Some' _ _ _ _ E1 Hru).
Qed.

(** ** [random.shuffle] permutes *)

Lemma insert_swap_head {A} (l : list A) (j : nat) (y z : A) :
  l !! j = Some y -> y :: <[j := z]> l ≡ₚ z :: l.
Proof.
  revert j. induction l as [|w l IH]; intros j Hj; [done |].
  destruct j as [|j]; simpl in *.
  - injection Hj as ->. apply perm_swap.
  - rewrite perm_swap. rewrite (IH _ Hj). apply perm_swap.
Qed.

Lemma swap_Permutation {A} (l : list A) (i j : nat) : swap l i j ≡ₚ l.
Proof.
  unfold swap. destruct (l !! i) as [x|] eqn:Hi; [|done].
  destruct (l !! j) as [y|] eqn:Hj; [|done].
  revert i j x y Hi Hj.
  induction l as [|z l IH]; intros i j x y Hi Hj; [done |].
  destruct i as [|i], j as [|j]; simpl in *.
  - by injection Hi as ->.
  - injection Hi as ->. by apply insert_swap_head.
  - injection Hj as ->. by apply insert_swap_head.
  - constructor. by apply IH.
Qed.

Lemma shuffle_from_Permutation {A} (i : nat) : forall (l : list A) draws l' draws',
  shuffle_from i l draws = Ret (l', draws') -> l' ≡ₚ l.
Proof.
  induction i as [|i IH]; intros l draws l' draws' H; simpl in H.
  - by injection H as <- <-.
  - destruct draws as [|d draws]; [discriminate |].
    apply IH in H. rewrite H. apply swap_Permutation.
Qed.

Lemma random_shuffle_inv {A} (l : list A) w l' w' :
  random_shuffle l w = Ret (l', w') -> l' ≡ₚ l /\ w_store w' = w_store w.
Proof.
  unfold random_shuffle.
  destruct (shuffle_from _ _ _) as [[l0 d0]|] eqn:H; [|discriminate].
  intros [= <- <-]. split; [by eapply shuffle_from_Permutation | done].
Qed.

(** ** The invariant of the reachable states *)

Section StaticFacts.

Variables (n0 m0 : nat) (cells : list utterance).
Hypothesis cells_meta :
  forall i c, cells !! i = Some c -> utterance_meta c = m0 + i.
Hypothesis cells_next : forall i c, cells !! i = Some c -> is_next c = true.

Local Abbreviation store_inv := (store_inv n0 m0 cells).
Local Abbreviation made_ok := (made_ok n0 m0 cells).
Local Abbreviation in_segments := (in_segments n0 cells).

Lemma store_inv_ext st st' :
  store_ext st st' -> store_inv st -> store_inv st'.
Proof.
  intros [E1 E2] (S1 & S2 & S3 & S4).
  pose proof (prefix_length _ _ E1). pose proof (prefix_length _ _ E2).
  repeat split; try lia.
  - intros i c Hc. eapply prefix_lookup_Some'; [done |]. by apply S1.
  - intros i Hi. destruct (S4 i Hi) as [H' | H']; [left | right];
      by eapply prefix_lookup_Some'.
Qed.

Lemma made_ok_ext st st' p : store_ext st st' -> made_ok st p -> made_ok st' p.
Proof.
  intros [E1 E2] (i & j & pu & qu & m & H).
  destruct H as (H1 & H2 & H3 & H4 & H5 & H6 & H7 & H8 & H9 & H10).
  exists i, j, pu, qu, m. repeat split; try done;
    by eapply prefix_lookup_Some'.
Qed.

Lemma in_segments_closed st mades :
  store_inv st -> Forall (made_ok st) mades ->
  closed_under_reference st (in_segments mades).
Proof.
  intros (S1 & S2 & S3 & S4) Hok x [Hx | (p & Hp & ->)].
  - destruct (lookup_lt_is_Some_2 cells (x - n0) ltac:(lia)) as [c Hc].
    pose proof (S1 _ _ Hc) as Hc'. replace (n0 + (x - n0)) with x in Hc' by lia.
    pose proof (cells_meta _ _ Hc) as Hm.
    destruct (S4 (x - n0) ltac:(lia)) as [Hn | Hs].
    + exists c, (Meta None). rewrite Hm. repeat split; try done.
    + exists c, (Meta (Some (n0 + (x - n0)))). rewrite Hm.
      repeat split; try done. simpl. intros r [= <-].
      unfold in_segments. left. lia.
  - rewrite Forall_forall in Hok.
    destruct (Hok _ Hp) as (i & j & pu & qu & m & H).
    destruct H as (H1 & H2 & H3 & H4 & H5 & H6 & H7 & H8 & H9 & H10).
    exists (with_is_next false (with_utterance_meta m qu)),
      (Meta (Some (n0 + i))).
    split; [done |]. split; [by destruct qu |].
    simpl. intros r [= <-]. unfold in_segments. left.
    apply lookup_lt_Some in H2. lia.
Qed.

Lemma pair_segments_in_segments st h mades p :
  p ∈ mades -> made_ok st p ->
  Forall (fun a => n0 <= a < n0 + length cells) (pair_session p) ->
  Forall (fun seg => Forall (in_segments mades) (utterances seg))
         (pair_segments h p).
Proof.
  intros Hp Hok Hrange.
  assert (forall lo hi,
            Forall (in_segments mades) (py_slice (pair_session p) lo hi)) as Hs.
  { intros lo hi. apply Forall_py_slice.
    eapply Forall_impl; [exact Hrange |]. intros a Ha.
    unfold in_segments. by left. }
  unfold pair_segments. repeat constructor; simpl.
  - apply Hs.
  - apply Forall_app. split; [apply Hs |]. constructor; [|constructor].
    unfold in_segments. right. by exists p.
Qed.

(** The constructed segments have samples: per pair, the positive and the
    negative sample of its end index, with contexts that fit the history. *)
Lemma segments_samples st h (sessions : list (list nat)) mades :
  (0 <= h)%Z ->
  store_inv st -> Forall (made_ok st) mades ->
  Forall (Forall (fun a => n0 <= a < n0 + length cells)) sessions ->
  Forall (fun p => pair_point p ∈ end_points sessions) mades ->
  exists sps,
    Forall2 (fun seg s => sample_of st (utterances seg) = Ret s)
            (mades ≫= pair_segments h) (sps ≫= pair_list) /\
    Forall2 (pair_sampled st h) (pair_point <$> mades) sps /\
    Forall (fun s => (Z.of_nat (length (s_context s)) <= h)%Z)
           (sps ≫= pair_list).
Proof.
  intros Hh Hinv Hok Hrange Hpts.
  induction mades as [|p mades IH].
  - exists []. repeat split; constructor.
  - apply Forall_cons in Hok as [Hp Hok]. apply Forall_cons in Hpts as [Hpt Hpts].
    destruct (IH Hok Hpts) as (sps & F1 & F2 & F3).
    unfold pair_point in Hpt. apply elem_of_end_points in Hpt as [Hsess He].
    rewrite Forall_forall in Hrange. specialize (Hrange _ Hsess).
    destruct (made_samples n0 m0 cells cells_meta cells_next st h p
                Hh Hinv Hp Hrange He) as (sp & G1 & G2 & G3 & G4).
    exists (sp :: sps). rewrite !bind_cons, fmap_cons.
    split; [by apply Forall2_app |]. split; [by constructor |].
    apply Forall_app. split; [|done]. unfold pair_list.
    by repeat constructor.
Qed.

End StaticFacts.

Section ReachableOk.

Context {tokenizer : Tokenizer}.
Variables (data : dataset) (cfg : config.t) (w0 : world).

Local Abbreviation n0 := (length (uttrs (w_store w0))).
Local Abbreviation m0 := (length (metas (w_store w0))).
Local Abbreviation cells :=
  (tokenized_list (config.max_uttr_len cfg) (concat data) m0).
Local Abbreviation h := (config.history_len cfg).
Local Abbreviation source_ok := (source_ok data cfg w0).
Local Abbreviation sampled st :=
  (Forall2 (fun seg s => sample_of st (utterances seg) = Ret s)).

Lemma cells_have_meta i c : cells !! i = Some c -> utterance_meta c = m0 + i.
Proof. intros H. by apply tokenized_list_lookup_inv in H as (raw & _ & ->). Qed.

Lemma cells_are_next i c : cells !! i = Some c -> is_next c = true.
Proof. intros H. by apply tokenized_list_lookup_inv in H as (raw & _ & ->). Qed.

Lemma sessions_in_range (sessions : list (list nat)) :
  concat sessions = seq n0 (length cells) ->
  Forall (Forall (fun a => n0 <= a < n0 + length cells)) sessions.
Proof.
  intros Hcat.
  assert (Forall (fun a => n0 <= a < n0 + length cells) (concat sessions)) as HA.
  { rewrite Hcat. apply Forall_forall. intros a Ha%elem_of_seq. lia. }
  clear Hcat. induction sessions as [|s l IH]; [constructor |].
  simpl in HA. apply Forall_app in HA as [? ?]. constructor; auto.
Qed.

Lemma mades_points (sessions : list (list nat)) (mades : list made_pair) :
  pair_point <$> mades = end_points sessions ->
  Forall (fun p => pair_point p ∈ end_points sessions) mades.
Proof.
  intros <-. apply Forall_forall. intros p Hp.
  apply list_elem_of_fmap. eauto.
Qed.

(** The samples of the constructed segments, in a store that satisfies
    the static part of the invariant. *)
Lemma static_samples st (sessions : list (list nat)) mades :
  (0 <= h)%Z ->
  concat sessions = seq n0 (length cells) ->
  store_inv n0 m0 cells st ->
  pair_point <$> mades = end_points sessions ->
  Forall (made_ok n0 m0 cells st) mades ->
  exists sps,
    sampled st (mades ≫= pair_segments h) (sps ≫= pair_list) /\
    Forall2 (pair_sampled st h) (end_points sessions) sps /\
    Forall (fun s => (Z.of_nat (length (s_context s)) <= h)%Z)
           (sps ≫= pair_list).
Proof.
  intros Hh Hcat Hinv Hpts Hok.
  destruct (segments_samples n0 m0 cells cells_have_meta cells_are_next
              st h sessions mades Hh Hinv Hok (sessions_in_range _ Hcat)
              (mades_points _ _ Hpts)) as (sps & F1 & F2 & F3).
  exists sps. rewrite Hpts in F2. done.
Qed.

Lemma init_ok sessions ds w :
  init data cfg w0 = Ret (sessions, ds, w) -> source_ok sessions ds w.
Proof.
  intros H. apply init_spec in H
    as (_ & Hcat & _ & Hh & Hc & Hs & _ & mades & Hsegs & Hpts & Hinv & Hok).
  split; [done |]. split; [done |]. split; [done |].
  split; [by exists mades |].
  unfold epoch_ok. by rewrite Hc, Hs.
Qed.

Lemma length_deepcopy_list fuel l : forall c l' c',
  deepcopy_list fuel l c = Ret (l', c') -> length l' = length l.
Proof.
  induction l as [|a l IH]; intros c l' c' H; simpl in H.
  - by injection H as <- <-.
  - apply res_bind_inv in H as ([a' c1] & _ & H).
    apply res_bind_inv in H as ([l'' c2] & Hl & H). injection H as <- <-.
    simpl. f_equal. by eapply IH.
Qed.

(** [copy.deepcopy(self._segments)]: the store only grows, and the copies
    have the samples of the originals. *)
Lemma deepcopy_segments_inv (R : nat -> Prop) segs w segs' w' ss :
  closed_under_reference (w_store w) R ->
  Forall (fun seg => Forall R (utterances seg)) segs ->
  sampled (w_store w) segs ss ->
  deepcopy_segments segs w = Ret (segs', w') ->
  store_ext (w_store w) (w_store w') /\
  w_draws w' = w_draws w /\
  sampled (w_store w') segs' ss.
Proof.
  intros Hclosed HR Hss H. unfold deepcopy_segments in H.
  destruct (deepcopy_segs _ _ _) as [[segs0 c]|] eqn:Hcopy; [|discriminate].
  injection H as <- <-. simpl.
  destruct (start_copy_ok (w_store w)) as [Hok0 Hdone0].
  apply (deepcopy_segs_done (w_store w) R Hclosed) in Hcopy
    as (Hok & Hdone & (E1 & E2 & _) & HF); [| done..].
  split; [by split |]. split; [done |].
  clear -Hok Hdone HF Hss. revert ss Hss.
  induction HF as [|seg seg' segs segs' Hseg _ IH]; intros ss Hss.
  - apply Forall2_nil_inv_l in Hss as ->. constructor.
  - apply Forall2_cons_inv_l in Hss as (s & ss' & Hs & Hss & ->).
    constructor; [|by apply IH].
    by eapply sample_of_copied.
Qed.

Lemma next_loop_cursor st hl bs paired rest : forall cur acc cur' r,
  next_loop st hl bs paired rest cur acc = (cur', r) ->
  cur <= cur' <= cur + length rest.
Proof.
  induction rest as [|seg rest IH]; intros cur acc cur' r H; simpl in H.
  - injection H as <- <-. lia.
  - destruct (Z.of_nat (length (cY acc)) =? bs)%Z.
    + injection H as <- <-. simpl. lia.
    + destruct (take_segment st hl paired seg acc).
      * apply IH in H. simpl. lia.
      * injection H as <- <-. simpl. lia.
Qed.

(** What [next] does to the object: nothing but moving the cursor forward,
    and not past the segments. *)
Lemma next_object st bs paired ds ds' r :
  next st bs paired ds = (ds', r) ->
  ds' = ds \/
  exists cur segs cur',
    cur_segment_idx ds = Some cur /\ segments ds = Some segs /\
    cur <> length segs /\ cur <= cur' /\ cur' <= Nat.max cur (length segs) /\
    ds' = set_iteration cur' segs ds.
Proof.
  unfold next. destruct (cur_segment_idx ds) as [cur|] eqn:Hc;
    [|intros [= <- <-]; by left].
  destruct (segments ds) as [segs|] eqn:Hs; [|intros [= <- <-]; by left].
  case_decide; [intros [= <- <-]; by left |].
  destruct (next_loop _ _ _ _ _ _ _) as [cur' col] eqn:Hloop.
  intros [= <- <-]. right. exists cur, segs, cur'.
  apply next_loop_cursor in Hloop. rewrite length_drop in Hloop.
  repeat split; try done; lia.
Qed.

Lemma segments_in_segments st (sessions : list (list nat)) mades :
  concat sessions = seq n0 (length cells) ->
  pair_point <$> mades = end_points sessions ->
  Forall (made_ok n0 m0 cells st) mades ->
  Forall (fun seg => Forall (in_segments n0 cells mades) (utterances seg))
         (mades ≫= pair_segments h).
Proof.
  intros Hcat Hpts Hok. apply Forall_forall. intros seg Hseg.
  apply list_elem_of_bind in Hseg as (p & Hseg & Hp).
  rewrite Forall_forall in Hok.
  pose proof (mades_points _ _ Hpts) as HP. rewrite Forall_forall in HP.
  specialize (HP _ Hp). unfold pair_point in HP.
  apply elem_of_end_points in HP as [Hsess _].
  pose proof (sessions_in_range _ Hcat) as Hr. rewrite Forall_forall in Hr.
  pose proof (pair_segments_in_segments n0 m0 cells st h mades p Hp
                (Hok _ Hp) (Hr _ Hsess)) as HF.
  rewrite Forall_forall in HF. by apply HF.
Qed.

Lemma epoch_init_ok sessions shuffle ds w ds' w' :
  (0 <= h)%Z ->
  source_ok sessions ds w ->
  epoch_init shuffle ds w = Ret (ds', w') ->
  source_ok sessions ds' w'.
Proof.
  intros Hh (Hhl & Hcat & Hinv & (mades & Hsegs & Hpts & Hok) & _) H.
  destruct (static_samples _ _ _ Hh Hcat Hinv Hpts Hok) as (sps & F1 & _ & _).
  unfold epoch_init in H. destruct shuffle.
  - apply bind_inv in H as (copied & w1 & Hcopy & H).
    apply bind_inv in H as (shuffled & w2 & Hshuffle & H).
    apply ret_inv in H as [-> ->].
    apply (deepcopy_segments_inv (in_segments n0 cells mades) _ _ _ _
             (sps ≫= pair_list)) in Hcopy as (Hext & _ & Hcopied).
    2: by apply (in_segments_closed n0 m0 cells cells_have_meta).
    2: by (rewrite Hsegs; eapply segments_in_segments).
    2: by rewrite Hsegs.
    apply random_shuffle_inv in Hshuffle as [Hperm Hst].
    rewrite <- Hst in Hext, Hcopied.
    destruct (Permutation_Forall2 (symmetry Hperm) Hcopied)
      as (ss & Hss & Hshuffled).
    split; [done |]. split; [done |].
    split; [by eapply store_inv_ext |].
    split.
    { exists mades. split; [done |]. split; [done |].
      eapply Forall_impl; [exact Hok |]. intros p Hp.
      by eapply made_ok_ext. }
    unfold epoch_ok. simpl. split; [lia |].
    exists ss, (sps ≫= pair_list). split; [done |]. split; [|done].
    rewrite Hsegs. eapply Forall2_impl; [exact F1 |].
    intros seg s Hs. by eapply sample_of_ext.
  - apply ret_inv in H as [-> ->].
    split; [done |]. split; [done |]. split; [done |].
    split; [by exists mades |].
    unfold epoch_ok. simpl. split; [lia |].
    exists (sps ≫= pair_list), (sps ≫= pair_list).
    rewrite Hsegs. done.
Qed.

Lemma next_ok sessions st bs paired ds w ds' r :
  source_ok sessions ds w ->
  next st bs paired ds = (ds', r) ->
  source_ok sessions ds' w.
Proof.
  intros Hok H. apply next_object in H
    as [-> | (cur & segs & cur' & Hc & Hs & Hne & Hle & Hmax & ->)]; [done |].
  destruct Hok as (Hhl & Hcat & Hinv & Hmades & Hepoch).
  split; [done |]. split; [done |]. split; [done |]. split; [done |].
  unfold epoch_ok in *. rewrite Hc, Hs in Hepoch. simpl.
  destruct Hepoch as (Hcur & Hss). split; [lia | done].
Qed.

(** Every reachable state satisfies the invariant. *)
Lemma reachable_ok sessions ds w :
  (0 <= h)%Z -> reachable data cfg w0 sessions ds w -> source_ok sessions ds w.
Proof.
  intros Hh H. induction H as
    [sessions ds w Hinit
    |sessions ds w shuffle ds' w' _ IH Hepoch
    |sessions ds w bs paired ds' r _ IH Hnext
    |sessions ds w draws _ IH].
  - by apply init_ok.
  - by eapply epoch_init_ok.
  - by eapply next_ok.
  - exact IH.
Qed.

End ReachableOk.

(** ** [next] in a reachable state *)

Section NextReachable.

Context {tokenizer : Tokenizer}.
Variables (data : dataset) (cfg : config.t) (w0 : world).

Local Abbreviation h := (config.history_len cfg).
Local Abbreviation sampled st :=
  (Forall2 (fun seg s => sample_of st (utterances seg) = Ret s)).

Lemma sampled_unique st segs ss ss' :
  sampled st segs ss -> sampled st segs ss' -> ss = ss'.
Proof.
  intros H. revert ss'. induction H as [|seg s segs ss Hs _ IH]; intros ss' H'.
  - by apply Forall2_nil_inv_l in H' as ->.
  - apply Forall2_cons_inv_l in H' as (s' & ss0 & Hs' & H' & ->).
    f_equal; [congruence | by apply IH].
Qed.

Lemma pair_sampled_known st sessions (pts : list (list nat * Z)) sps :
  Forall (fun pt => pt ∈ end_points sessions) pts ->
  Forall2 (pair_sampled st h) pts sps ->
  Forall (fun s => (Z.of_nat (length (s_context s)) <= h)%Z)
         (sps ≫= pair_list) ->
  Forall (known_sample st h sessions) (sps ≫= pair_list).
Proof.
  intros Hpts HF. induction HF as [|[sess e] sp pts sps [Hp Hn] _ IH];
    intros Hlen; [constructor |].
  apply Forall_cons in Hpts as [Hpt Hpts].
  apply elem_of_end_points in Hpt as [Hsess He].
  rewrite bind_cons in Hlen |- *. apply Forall_app in Hlen as [Hl Hlen].
  apply Forall_app. split; [|by apply IH].
  unfold pair_list in *. apply Forall_cons in Hl as [L1 Hl].
  apply Forall_cons in Hl as [L2 _].
  constructor; [|constructor; [|constructor]].
  - exists sess, e. repeat split; try done; try lia. by left.
  - exists sess, e. repeat split; try done; try lia. by right.
Qed.

(** In a reachable state that an epoch has been started in, the segments
    from the cursor on have samples, each the sample of a segment of some
    end index, and [next] is determined by them. *)
Lemma next_reachable sessions ds w cur segs bs paired :
  (0 <= h)%Z ->
  reachable data cfg w0 sessions ds w ->
  cur_segment_idx ds = Some cur -> segments ds = Some segs ->
  cur <= length segs /\
  exists ss,
    samples_from (w_store w) segs cur ss /\
    Forall (known_sample (w_store w) h sessions) ss /\
    (cur < length segs ->
     let k := examined bs paired ss 0 in
     next (w_store w) bs paired ds =
     (set_iteration (cur + k) segs ds,
      res_bind (assemble (foldl (emit h) nothing_collected
                                (accepted paired (take k ss))))
               (fun b => Ret (Some b)))).
Proof.
  intros Hh Hreach Hc Hs.
  apply reachable_ok in Hreach
    as (Hhl & Hcat & Hinv & (mades & Hsegs & Hpts & Hok) & Hepoch); [|done].
  unfold epoch_ok in Hepoch. rewrite Hc, Hs in Hepoch.
  destruct Hepoch as (Hcur & ss & ss0 & Hss & Hss0 & Hperm).
  split; [done |].
  destruct (static_samples data cfg w0 _ _ _ Hh Hcat Hinv Hpts Hok)
    as (sps & F1 & F2 & F3).
  rewrite Hsegs in Hss0.
  pose proof (sampled_unique _ _ _ _ Hss0 F1) as ->.
  assert (Forall (known_sample (w_store w) h sessions) ss) as Hknown.
  { rewrite Hperm. eapply pair_sampled_known; [|exact F2 | exact F3].
    apply Forall_forall. auto. }
  exists (drop cur ss). split; [by apply Forall2_drop |].
  split; [by apply Forall_drop |].
  intros Hlt k. rewrite <- Hhl.
  apply next_samples; try done. by apply Forall2_drop.
Qed.

End NextReachable.

(** ** The iteration protocol *)

Section Cursor.

Context {tokenizer : Tokenizer}.
Variables (data : dataset) (cfg : config.t) (w0 : world).

Lemma length_deepcopy_segs fuel segs : forall c segs' c',
  deepcopy_segs fuel segs c = Ret (segs', c') -> length segs' = length segs.
Proof.
  induction segs as [|seg segs IH]; intros c segs' c' H; simpl in H.
  - by injection H as <- <-.
  - apply res_bind_inv in H as ([l c1] & _ & H).
    apply res_bind_inv in H as ([l'' c2] & Hl & H). injection H as <- <-.
    simpl. f_equal. by eapply IH.
Qed.

Lemma epoch_init_cursor shuffle ds w ds' w' :
  epoch_init shuffle ds w = Ret (ds', w') ->
  exists segs,
    cur_segment_idx ds' = Some 0 /\ segments ds' = Some segs /\
    length segs = length (_segments ds) /\ _segments ds' = _segments ds /\
    (shuffle = false -> segs = _segments ds /\ w' = w).
Proof.
  unfold epoch_init. destruct shuffle; intros H.
  - apply bind_inv in H as (copied & w1 & Hcopy & H).
    apply bind_inv in H as (shuffled & w2 & Hshuffle & H).
    apply ret_inv in H as [-> ->]. exists shuffled.
    repeat split; try done.
    apply random_shuffle_inv in Hshuffle as [Hperm _].
    rewrite (Permutation_length Hperm).
    unfold deepcopy_segments in Hcopy.
    destruct (deepcopy_segs _ _ _) as [[s c]|] eqn:E; [|discriminate].
    injection Hcopy as <- <-. by eapply length_deepcopy_segs.
  - apply ret_inv in H as [-> ->]. by exists (_segments ds).
Qed.

Lemma reachable_cursor sessions ds w :
  reachable data cfg w0 sessions ds w -> cursor_ok ds.
Proof.
  intros H. induction H as
    [sessions ds w Hinit
    |sessions ds w shuffle ds' w' _ IH Hepoch
    |sessions ds w bs paired ds' r _ IH Hnext
    |sessions ds w draws _ IH]; [| | |done].
  - apply init_spec in Hinit as (_ & _ & _ & _ & Hc & Hs & _).
    unfold cursor_ok. by rewrite Hc, Hs.
  - apply epoch_init_cursor in Hepoch as (segs & Hc & Hs & Hl & Hseg & _).
    unfold cursor_ok. rewrite Hc, Hs, Hseg. split; [lia | done].
  - apply next_object in Hnext
      as [-> | (cur & segs & cur' & Hc & Hs & Hne & Hle & Hmax & ->)];
      [done |].
    unfold cursor_ok in *. rewrite Hc, Hs in IH. simpl. split; lia.
Qed.

(** A call of [next] that does not find the cursor at the end never
    returns the terminal signal. *)
Lemma next_None st bs paired ds cur segs :
  cur_segment_idx ds = Some cur -> segments ds = Some segs ->
  (next st bs paired ds).2 = Ret None <-> cur = length segs.
Proof.
  intros Hc Hs. unfold next. rewrite Hc, Hs. case_decide; [done |].
  destruct (next_loop _ _ _ _ _ _ _) as [cur' col]. simpl.
  split; [|done]. destruct col as [acc|]; simpl; [|discriminate].
  destruct (assemble acc); simpl; discriminate.
Qed.

End Cursor.

(** C5: [next] returns the terminal signal [None] if and only if the
    cursor already equals the segment count when it is called; at the end
    of an epoch it does so and leaves the object as it is; and the cursor
    is never beyond the segment count, before or after any call. *)
Theorem next_exhaustion {tokenizer : Tokenizer}
  data cfg w0 sessions ds w cur bs paired :
  reachable data cfg w0 sessions ds w ->
  cur_segment_idx ds = Some cur ->
  (exists segs, segments ds = Some segs /\
                length segs = length (_segments ds)) /\
  cur <= length (_segments ds) /\
  ((next (w_store w) bs paired ds).2 = Ret None <->
   Z.of_nat cur = len ds) /\
  (Z.of_nat cur = len ds -> next (w_store w) bs paired ds = (ds, Ret None)) /\
  (exists cur',
     cur_segment_idx (next (w_store w) bs paired ds).1 = Some cur' /\
     cur <= cur' <= length (_segments ds) /\
     _segments (next (w_store w) bs paired ds).1 = _segments ds).
Proof.
  intros Hreach Hc. pose proof (reachable_cursor _ _ _ _ _ _ Hreach) as Hok.
  unfold cursor_ok in Hok. rewrite Hc in Hok.
  destruct (segments ds) as [segs|] eqn:Hs; [|done].
  destruct Hok as [Hle Hlen]. unfold len.
  split; [by exists segs |]. split; [lia |].
  split; [rewrite (next_None _ _ _ _ _ _ Hc Hs); lia |].
  split.
  { intros E. apply next_exhausted with (segs := segs); [|done].
    rewrite Hc. f_equal. lia. }
  destruct (next (w_store w) bs paired ds) as [ds' r] eqn:Hnext.
  apply next_object in Hnext
    as [-> | (cur0 & segs0 & cur' & Hc0 & Hs0 & Hne & Hle0 & Hmax & ->)].
  - exists cur. simpl. split; [done |]. split; [lia | done].
  - exists cur'. simpl. split; [done |].
    assert (cur0 = cur) as -> by congruence.
    assert (segs0 = segs) as -> by congruence.
    split; [lia | done].
Qed.

Lemma sample_drained_reachable :
  @reachable sample_tokenizer sample_data sample_config sample_world
             sample_sessions sample_drained sample_world'.
Proof.
  apply (reach_next _ _ _ _ sample_epoch _ 4%Z false _
                    (@next sample_tokenizer (w_store sample_world') 4 false
                           sample_epoch).2).
  - apply (reach_epoch_init _ _ _ _ sample_source sample_world' false).
    + apply reach_init. vm_compute. reflexivity.
    + vm_compute. reflexivity.
  - vm_compute. reflexivity.
Qed.

Lemma next_exhaustion_witness :
  cur_segment_idx sample_drained = Some 4 /\
  (exists segs, segments sample_drained = Some segs /\
                length segs = length (_segments sample_drained)) /\
  4 <= length (_segments sample_drained) /\
  ((@next sample_tokenizer (w_store sample_world') 2 false sample_drained).2
   = Ret None <-> Z.of_nat 4 = len sample_drained) /\
  (Z.of_nat 4 = len sample_drained ->
   @next sample_tokenizer (w_store sample_world') 2 false sample_drained
   = (sample_drained, Ret None)).
Proof.
  split; [reflexivity |].
  destruct (@next_exhaustion sample_tokenizer sample_data sample_config
              sample_world sample_sessions sample_drained sample_world' 4
              2%Z false sample_drained_reachable eq_refl)
    as (A & B & C & D & _).
  auto.
Defined.

(** ** The batches *)

Section Batches.

Context {tokenizer : Tokenizer}.
Variables (data : dataset) (cfg : config.t) (w0 : world).

Local Abbreviation h := (config.history_len cfg).

Lemma accepted_paired ss :
  accepted true ss = filter (fun s => s_is_next s = false) ss.
Proof.
  unfold accepted. induction ss as [|s ss IH]; [done |].
  rewrite !filter_cons, IH. unfold skipped. simpl.
  destruct (s_is_next s); [by rewrite !decide_False | by rewrite !decide_True].
Qed.

Lemma accepted_unpaired ss : accepted false ss = ss.
Proof.
  unfold accepted. induction ss as [|s ss IH]; [done |].
  rewrite filter_cons, IH. by rewrite decide_True.
Qed.

Lemma Forall_accepted (P : sample -> Prop) paired ss :
  Forall P ss -> Forall P (accepted paired ss).
Proof.
  rewrite !Forall_forall. intros H s Hs. unfold accepted in Hs.
  apply list_elem_of_filter in Hs as [_ Hs]. by apply H.
Qed.

(** A batch that [next] returns in a reachable state is the batch of the
    samples it accepted among those it examined, and these are samples of
    segments of end indices of the sessions. *)
Lemma next_batch_reachable sessions ds w bs paired ds' b :
  (1 <= h)%Z ->
  reachable data cfg w0 sessions ds w ->
  next (w_store w) bs paired ds = (ds', Ret (Some b)) ->
  exists cur segs ss,
    let k := examined bs paired ss 0 in
    cur_segment_idx ds = Some cur /\ segments ds = Some segs /\
    cur < length segs /\
    samples_from (w_store w) segs cur ss /\
    Forall (known_sample (w_store w) h sessions) ss /\
    ds' = set_iteration (cur + k) segs ds /\
    accepted paired (take k ss) <> [] /\
    b = batch_of h (accepted paired (take k ss)).
Proof.
  intros Hh Hreach Hnext.
  destruct (cur_segment_idx ds) as [cur|] eqn:Hc;
    [|unfold next in Hnext; rewrite Hc in Hnext; discriminate].
  destruct (segments ds) as [segs|] eqn:Hs;
    [|unfold next in Hnext; rewrite Hc, Hs in Hnext; discriminate].
  destruct (next_reachable data cfg w0 sessions ds w cur segs bs paired
              ltac:(lia) Hreach Hc Hs) as (Hle & ss & Hss & Hknown & Hrun).
  assert (cur <> length segs) as Hne.
  { intros ->. rewrite (next_exhausted _ _ _ _ _ Hc Hs) in Hnext.
    discriminate. }
  rewrite Hrun in Hnext by lia. injection Hnext as <- Hb.
  exists cur, segs, ss. cbn zeta.
  set (l := accepted paired (take (examined bs paired ss 0) ss)) in *.
  assert (Forall (known_sample (w_store w) h sessions) l) as Hl.
  { apply Forall_accepted. by apply Forall_take. }
  assert (l <> []) as Hlne.
  { intros E. rewrite E in Hb. simpl in Hb. discriminate. }
  repeat split; try done; try lia.
  replace h with (Z.of_nat (Z.to_nat h)) in Hb |- * by lia.
  rewrite assemble_accepted in Hb; [| lia | done |].
  - simpl in Hb. by injection Hb as <-.
  - eapply Forall_impl; [exact Hl |].
    intros s (sess & e & _ & _ & Hlen & _). lia.
Qed.

Lemma known_negative st sessions s :
  known_sample st h sessions s -> s_is_next s = false ->
  exists sess e,
    sess ∈ sessions /\ (1 <= e < Z.of_nat (length sess))%Z /\
    negative_sample st h sess e s.
Proof.
  intros (sess & e & Hsess & He & _ & [Hp | Hn]) Hfalse.
  - destruct Hp as (pos & pu & _ & _ & _ & _ & _ & Htrue & _). congruence.
  - by exists sess, e.
Qed.

Lemma flags_all_false (l : list sample) :
  Forall (fun s => s_is_next s = false) l ->
  s_is_next <$> l = replicate (length l) false.
Proof.
  induction 1 as [|s l Hs _ IH]; [done |].
  rewrite fmap_cons. simpl. by rewrite Hs, IH.
Qed.

End Batches.

(** C7: with [return_paired_Y] the segments whose target is a true next
    utterance are examined, and so consumed from the cursor, but add
    nothing: the batch is made of the negatives among the examined
    segments, every flag in [Y_is_next] is false, and the row of [Y_ref]
    for a negative holds the token ids of the utterance at the end index
    whose window is the negative's context, the positive that the negative
    replaced. *)
Theorem paired_batch {tokenizer : Tokenizer}
  data cfg w0 sessions ds w bs ds' b :
  (1 <= config.history_len cfg)%Z ->
  reachable data cfg w0 sessions ds w ->
  next (w_store w) bs true ds = (ds', Ret (Some b)) ->
  exists cur segs ss k,
    let st := w_store w in
    let h := config.history_len cfg in
    let l := filter (fun s => s_is_next s = false) (take k ss) in
    cur_segment_idx ds = Some cur /\ segments ds = Some segs /\
    samples_from st segs cur ss /\ k <= length ss /\
    cur_segment_idx ds' = Some (cur + k) /\
    Y_is_next b = replicate (length l) false /\
    Y b = convert_batch_ids_to_tensor (s_target_ids <$> l) /\
    Y_ref b = pad_row (max_len (s_ref_ids <$> l)) <$> (s_ref_ids <$> l) /\
    Forall (fun s =>
              exists sess e,
                sess ∈ sessions /\ (1 <= e < Z.of_nat (length sess))%Z /\
                negative_sample st h sess e s) l.
Proof.
  intros Hh Hreach Hnext.
  destruct (next_batch_reachable _ _ _ _ _ _ _ _ _ _ Hh Hreach Hnext)
    as (cur & segs & ss & Hc & Hs & Hlt & Hss & Hknown & -> & Hne & ->).
  exists cur, segs, ss, (examined bs true ss 0). cbn zeta.
  rewrite accepted_paired in *.
  set (l := filter (fun s => s_is_next s = false)
                   (take (examined bs true ss 0) ss)) in *.
  assert (Forall (fun s => s_is_next s = false) l) as Hfalse.
  { apply Forall_forall. intros s Hin.
    by apply list_elem_of_filter in Hin as [? _]. }
  assert (Forall (known_sample (w_store w) (config.history_len cfg) sessions) l)
    as Hl.
  { apply Forall_forall. intros s Hin.
    apply list_elem_of_filter in Hin as [_ Hin].
    rewrite Forall_forall in Hknown. apply Hknown.
    eapply elem_of_sublist; [exact Hin | apply sublist_take]. }
  split; [done |]. split; [done |]. split; [done |].
  split; [apply examined_le |]. split; [done |].
  split; [by apply flags_all_false |]. split; [done |]. split; [done |].
  apply Forall_forall. intros s Hin. rewrite Forall_forall in Hl, Hfalse.
  eapply known_negative; auto.
Qed.

Lemma sample_epoch_reachable :
  @reachable sample_tokenizer sample_data sample_config sample_world
             sample_sessions sample_epoch sample_world'.
Proof.
  apply (reach_epoch_init _ _ _ _ sample_source sample_world' false).
  - apply reach_init. vm_compute. reflexivity.
  - vm_compute. reflexivity.
Qed.

Lemma paired_batch_witness :
  exists ds' b,
    @next sample_tokenizer (w_store sample_world') 4 true sample_epoch
    = (ds', Ret (Some b)) /\
    exists cur segs ss k,
      let st := w_store sample_world' in
      let h := config.history_len sample_config in
      let l := filter (fun s => s_is_next s = false) (take k ss) in
      cur_segment_idx sample_epoch = Some cur /\
      segments sample_epoch = Some segs /\
      samples_from st segs cur ss /\ k <= length ss /\
      cur_segment_idx ds' = Some (cur + k) /\
      Y_is_next b = replicate (length l) false /\
      Y b = @convert_batch_ids_to_tensor sample_tokenizer (s_target_ids <$> l) /\
      Y_ref b = @pad_row sample_tokenizer (max_len (s_ref_ids <$> l))
                  <$> (s_ref_ids <$> l) /\
      Forall (fun s =>
                exists sess e,
                  sess ∈ sample_sessions /\
                  (1 <= e < Z.of_nat (length sess))%Z /\
                  negative_sample st h sess e s) l.
Proof.
  destruct (@next sample_tokenizer (w_store sample_world') 4 true sample_epoch)
    as [ds' [[b|]|]] eqn:E; try (vm_compute in E; discriminate).
  exists ds', b. split; [reflexivity |].
  apply (@paired_batch sample_tokenizer sample_data sample_config
           sample_world sample_sessions sample_epoch sample_world' 4%Z ds' b).
  - vm_compute. discriminate.
  - exact sample_epoch_reachable.
  - exact E.
Defined.

(** C4, as the code has it: for every segment accepted into a batch, the
    [X] and [X_floor] entries of the sample have exactly [history_len]
    slots: the token ids and floor ids of the segment's context utterances
    first, and after them the placeholders (the ids of the empty sentence
    with bos and eos, floor id 0); [X] has the shape batch x history_len x
    width. *)
Theorem batch_context_slots {tokenizer : Tokenizer}
  data cfg w0 sessions ds w bs paired ds' b :
  (1 <= config.history_len cfg)%Z ->
  reachable data cfg w0 sessions ds w ->
  next (w_store w) bs paired ds = (ds', Ret (Some b)) ->
  exists l : list sample,
    let st := w_store w in
    let h := config.history_len cfg in
    let hn := Z.to_nat h in
    let width := max_len (concat (sample_rows h <$> l)) in
    (exists cur segs ss k,
       cur_segment_idx ds = Some cur /\ segments ds = Some segs /\
       samples_from st segs cur ss /\ l = accepted paired (take k ss)) /\
    Forall (fun s =>
              length (s_context s) <= hn /\
              exists sess e,
                sess ∈ sessions /\ (1 <= e < Z.of_nat (length sess))%Z /\
                context_sample st h sess e (s_context s)) l /\
    Forall2 (fun x s =>
               x = pad_row width
                     <$> ((fst <$> s_context s)
                          ++ replicate (hn - length (s_context s)) empty_ids))
            (X b) l /\
    Forall2 (fun f s =>
               f = (snd <$> s_context s)
                   ++ replicate (hn - length (s_context s)) 0%Z)
            (X_floor b) l /\
    length (X b) = length (Y b) /\
    Forall (fun x => length x = hn /\
                     Forall (fun row => length row = width) x) (X b) /\
    Forall (fun f => length f = hn) (X_floor b).
Proof.
  intros Hh Hreach Hnext.
  destruct (next_batch_reachable _ _ _ _ _ _ _ _ _ _ Hh Hreach Hnext)
    as (cur & segs & ss & Hc & Hs & Hlt & Hss & Hknown & -> & Hne & ->).
  set (h := config.history_len cfg) in *.
  set (l := accepted paired (take (examined bs paired ss 0) ss)) in *.
  exists l. cbn zeta.
  assert (Forall (known_sample (w_store w) h sessions) l) as Hl.
  { apply Forall_accepted. by apply Forall_take. }
  assert (forall s, s ∈ l -> length (s_context s) <= Z.to_nat h) as Hfit.
  { intros s Hin. rewrite Forall_forall in Hl.
    destruct (Hl _ Hin) as (_ & _ & _ & _ & Hlen & _). lia. }
  assert (forall s, s ∈ l -> n_pad h s = Z.to_nat h - length (s_context s))
    as Hpad.
  { intros s Hin. specialize (Hfit _ Hin). unfold n_pad. lia. }
  split; [by exists cur, segs, ss, (examined bs paired ss 0) |].
  split.
  { apply Forall_forall. intros s Hin. split; [by apply Hfit |].
    rewrite Forall_forall in Hl.
    destruct (Hl _ Hin) as (sess & e & Hsess & He & _ & [Hp | Hn]).
    - destruct Hp as (pos & pu & _ & _ & Hctx & _). by exists sess, e.
    - destruct Hn as (pos & pu & _ & _ & Hctx & _). by exists sess, e. }
  split.
  { simpl. apply Forall2_fmap_l, Forall2_same_length_lookup.
    split; [done |]. intros i s s' H1 H2.
    assert (s = s') as <- by congruence. simpl.
    unfold sample_rows. rewrite Hpad; [done |].
    by eapply list_elem_of_lookup_2. }
  split.
  { simpl. apply Forall2_fmap_l, Forall2_same_length_lookup.
    split; [done |]. intros i s s' H1 H2.
    assert (s = s') as <- by congruence. simpl.
    unfold sample_floors. rewrite Hpad; [done |].
    by eapply list_elem_of_lookup_2. }
  split; [simpl; by rewrite length_tensor, !length_fmap |].
  split.
  - simpl. apply Forall_fmap, Forall_forall. intros s Hin. simpl.
    rewrite length_fmap. split.
    + unfold sample_rows. rewrite length_app, length_fmap, length_replicate.
      rewrite (Hpad _ Hin). specialize (Hfit _ Hin). lia.
    + apply Forall_fmap, Forall_forall. intros ids Hids. simpl.
      apply length_pad_row, max_len_ge.
      apply list_elem_of_In, in_concat. exists (sample_rows h s).
      split; [|by apply list_elem_of_In].
      apply list_elem_of_In, list_elem_of_fmap. eauto.
  - simpl. apply Forall_fmap, Forall_forall. intros s Hin. simpl.
    unfold sample_floors. rewrite length_app, length_fmap, length_replicate.
    rewrite (Hpad _ Hin). specialize (Hfit _ Hin). lia.
Qed.

Lemma batch_context_slots_witness :
  exists ds' b,
    @next sample_tokenizer (w_store sample_world') 4 false sample_epoch
    = (ds', Ret (Some b)) /\
    exists l : list sample,
      let st := w_store sample_world' in
      let h := config.history_len sample_config in
      let hn := Z.to_nat h in
      let width := max_len (concat (@sample_rows sample_tokenizer h <$> l)) in
      (exists cur segs ss k,
         cur_segment_idx sample_epoch = Some cur /\
         segments sample_epoch = Some segs /\
         samples_from st segs cur ss /\ l = accepted false (take k ss)) /\
      Forall (fun s =>
                length (s_context s) <= hn /\
                exists sess e,
                  sess ∈ sample_sessions /\
                  (1 <= e < Z.of_nat (length sess))%Z /\
                  context_sample st h sess e (s_context s)) l /\
      Forall2 (fun x s =>
                 x = @pad_row sample_tokenizer width
                       <$> ((fst <$> s_context s)
                            ++ replicate (hn - length (s_context s))
                                         (@empty_ids sample_tokenizer)))
              (X b) l /\
      Forall2 (fun f s =>
                 f = (snd <$> s_context s)
                     ++ replicate (hn - length (s_context s)) 0%Z)
              (X_floor b) l /\
      length (X b) = length (Y b) /\
      Forall (fun x => length x = hn /\
                       Forall (fun row => length row = width) x) (X b) /\
      Forall (fun f => length f = hn) (X_floor b).
Proof.
  destruct (@next sample_tokenizer (w_store sample_world') 4 false sample_epoch)
    as [ds' [[b|]|]] eqn:E; try (vm_compute in E; discriminate).
  exists ds', b. split; [reflexivity |].
  apply (@batch_context_slots sample_tokenizer sample_data sample_config
           sample_world sample_sessions sample_epoch sample_world' 4%Z false
           ds' b).
  - vm_compute. discriminate.
  - exact sample_epoch_reachable.
  - exact E.
Defined.

(** C4 as stated does not hold: in the first batch of the sample source
    the entry of the first sample has its one context utterance in the
    first slot and the four placeholders after it, which is not what
    padding on the left would give. *)
Lemma context_is_not_left_padded :
  exists ds' b s x,
    @next sample_tokenizer (w_store sample_world') 4 false sample_epoch
    = (ds', Ret (Some b)) /\
    segments sample_epoch = Some (Segment [0; 1] :: drop 1 (_segments sample_epoch)) /\
    sample_of (w_store sample_world') [0; 1] = Ret s /\
    X b !! 0 = Some x /\
    x = [[1; 3362; 2; 0]; [1; 2; 0; 0]; [1; 2; 0; 0]; [1; 2; 0; 0];
         [1; 2; 0; 0]]%Z /\
    x = @pad_row sample_tokenizer 4
          <$> @sample_rows sample_tokenizer 5 s /\
    x <> @pad_row sample_tokenizer 4
           <$> @left_padded_rows sample_tokenizer 5 s.
Proof.
  destruct (@next sample_tokenizer (w_store sample_world') 4 false sample_epoch)
    as [ds' [[b|]|]] eqn:E; try (vm_compute in E; discriminate).
  destruct (sample_of (w_store sample_world') [0; 1]) as [s|] eqn:Es;
    [|vm_compute in Es; discriminate].
  destruct (X b !! 0) as [x|] eqn:Ex.
  2: { vm_compute in E. injection E as _ <-. vm_compute in Ex. discriminate. }
  exists ds', b, s, x. split; [reflexivity |].
  split; [vm_compute; reflexivity |]. split; [reflexivity |].
  split; [exact Ex |].
  vm_compute in E. injection E as _ <-.
  vm_compute in Es. injection Es as <-.
  vm_compute in Ex. injection Ex as <-.
  split; [reflexivity |]. split; [vm_compute; reflexivity |].
  vm_compute. discriminate.
Qed.

(** ** Order of the unshuffled epoch *)

Section Order.

Context {tokenizer : Tokenizer}.
Variables (data : dataset) (cfg : config.t) (w0 : world).

Local Abbreviation h := (config.history_len cfg).

(** Positive and negative samples alternate. *)
Lemma flags_alternate st (pts : list (list nat * Z)) sps (o : nat) :
  Nat.even o = true ->
  Forall2 (pair_sampled st h) pts sps ->
  s_is_next <$> (sps ≫= pair_list) = Nat.even <$> seq o (length (sps ≫= pair_list)).
Proof.
  intros Ho HF. revert o Ho.
  induction HF as [|pt sp pts sps [Hp Hn] _ IH]; intros o Ho; [done |].
  rewrite bind_cons. unfold pair_list at 1 3. cbn [app length seq fmap list_fmap].
  destruct Hp as (? & ? & _ & _ & _ & _ & _ & -> & _).
  destruct Hn as (? & ? & _ & _ & _ & -> & _).
  rewrite Ho. rewrite Nat.even_succ, <- Nat.negb_even, Ho. simpl.
  do 2 f_equal. apply (IH (S (S o))). by rewrite Nat.even_succ_succ.
Qed.

(** Without filtering the loop takes segments until the batch is full or
    they run out. *)
Lemma examined_unfiltered bs ss n :
  (Z.of_nat n <= bs)%Z ->
  examined bs false ss n = Nat.min (Z.to_nat bs - n) (length ss).
Proof.
  revert n. induction ss as [|s ss IH]; intros n Hn; simpl; [lia |].
  destruct (Z.eqb_spec (Z.of_nat n) bs) as [E | E]; [lia |].
  rewrite IH by lia. lia.
Qed.

Lemma after_calls_reachable sessions st calls : forall ds w,
  st = w_store w ->
  reachable data cfg w0 sessions ds w ->
  reachable data cfg w0 sessions (after_calls st calls ds) w.
Proof.
  induction calls as [|[bs paired] calls IH]; intros ds w -> Hreach; [done |].
  simpl. apply IH; [done |].
  eapply reach_next; [exact Hreach |]. apply surjective_pairing.
Qed.

Lemma after_calls_segments st calls : forall ds segs,
  segments ds = Some segs -> is_Some (cur_segment_idx ds) ->
  segments (after_calls st calls ds) = Some segs /\
  is_Some (cur_segment_idx (after_calls st calls ds)) /\
  _segments (after_calls st calls ds) = _segments ds.
Proof.
  induction calls as [|[bs paired] calls IH]; intros ds segs Hs Hc; [done |].
  simpl. destruct (next st bs paired ds) as [ds' r] eqn:Hnext. simpl.
  apply next_object in Hnext
    as [-> | (cur & segs0 & cur' & Hc0 & Hs0 & _ & _ & _ & ->)].
  - by apply IH.
  - assert (segs0 = segs) as -> by congruence.
    destruct (IH (set_iteration cur' segs ds) segs) as (? & ? & ?);
      [done | by eexists | done].
Qed.

(** An unfiltered [next] in a reachable state, before the end of the
    epoch: it returns the batch of the next [k] segments. *)
Lemma next_unfiltered sessions ds w cur segs ss bs :
  (1 <= h)%Z -> (1 <= bs)%Z ->
  reachable data cfg w0 sessions ds w ->
  cur_segment_idx ds = Some cur -> segments ds = Some segs ->
  samples_from (w_store w) segs 0 ss ->
  cur < length segs ->
  let k := Nat.min (Z.to_nat bs) (length segs - cur) in
  next (w_store w) bs false ds =
  (set_iteration (cur + k) segs ds,
   Ret (Some (batch_of h (take k (drop cur ss))))).
Proof.
  intros Hh Hbs Hreach Hc Hs Hss Hlt k.
  destruct (next_reachable data cfg w0 sessions ds w cur segs bs false
              ltac:(lia) Hreach Hc Hs) as (_ & ss' & Hss' & Hknown & Hrun).
  unfold samples_from in Hss, Hss'. rewrite drop_0 in Hss.
  pose proof (sampled_unique _ _ _ _ Hss' (Forall2_drop _ _ _ cur Hss)) as ->.
  rewrite Hrun by done. cbn zeta.
  pose proof (Forall2_length _ _ _ Hss) as Hlen.
  rewrite (examined_unfiltered bs (drop cur ss) 0) by (simpl; lia).
  rewrite length_drop, <- Hlen, Nat.sub_0_r. fold k.
  rewrite accepted_unpaired. f_equal.
  replace h with (Z.of_nat (Z.to_nat h)) by lia.
  rewrite assemble_accepted; [done | lia | |].
  - intros E. apply (f_equal length) in E.
    rewrite length_take, length_drop in E. simpl in E. lia.
  - apply Forall_take. eapply Forall_impl; [exact Hknown |].
    intros s (sess & e & _ & _ & Hl & _). lia.
Qed.

Lemma flags_of_stretch (ss : list sample) (cur k : nat) :
  s_is_next <$> ss = Nat.even <$> seq 0 (length ss) ->
  cur + k <= length ss ->
  s_is_next <$> take k (drop cur ss) = Nat.even <$> seq cur k.
Proof.
  intros Hflags Hle. rewrite fmap_take, fmap_drop, Hflags.
  rewrite <- fmap_drop, <- fmap_take. rewrite drop_seq, take_seq. simpl.
  do 2 f_equal. lia.
Qed.

Lemma drain_step (fuel : nat) st bs ds ds' b :
  next st bs false ds = (ds', Ret (Some b)) ->
  drain (S fuel) st bs ds = b :: drain fuel st bs ds'.
Proof. intros Hnext. cbn [drain]. by rewrite Hnext. Qed.

Lemma drain_stop (fuel : nat) st bs ds ds' :
  next st bs false ds = (ds', Ret None) ->
  drain (S fuel) st bs ds = [].
Proof. intros Hnext. cbn [drain]. by rewrite Hnext. Qed.

(** The caller's loop collects the flags of all segments, in order. *)
Lemma drain_flags sessions w segs ss bs (fuel : nat) : forall ds cur,
  (1 <= h)%Z -> (1 <= bs)%Z ->
  reachable data cfg w0 sessions ds w ->
  cur_segment_idx ds = Some cur -> segments ds = Some segs ->
  samples_from (w_store w) segs 0 ss ->
  s_is_next <$> ss = Nat.even <$> seq 0 (length ss) ->
  cur <= length segs -> length segs - cur <= fuel ->
  concat (Y_is_next <$> drain (S fuel) (w_store w) bs ds)
  = Nat.even <$> seq cur (length segs - cur).
Proof.
  induction fuel as [|fuel IH];
    intros ds cur Hh Hbs Hreach Hc Hs Hss Hflags Hle Hfuel.
  - assert (cur = length segs) as -> by lia.
    rewrite (drain_stop _ _ _ _ _ (next_exhausted _ _ _ _ _ Hc Hs)).
    by rewrite Nat.sub_diag.
  - destruct (decide (cur = length segs)) as [-> | Hne].
    { rewrite (drain_stop _ _ _ _ _ (next_exhausted _ _ _ _ _ Hc Hs)).
      by rewrite Nat.sub_diag. }
    pose proof (next_unfiltered sessions ds w cur segs ss bs Hh Hbs Hreach
                  Hc Hs Hss ltac:(lia)) as Hnext.
    cbn zeta in Hnext. rewrite (drain_step _ _ _ _ _ _ Hnext).
    set (k := Nat.min (Z.to_nat bs) (length segs - cur)) in *.
    rewrite fmap_cons. cbn [concat].
    rewrite (IH (set_iteration (cur + k) segs ds) (cur + k)); try done;
      try lia.
    + pose proof (Forall2_length _ _ _ Hss) as Hlen. rewrite drop_0 in Hlen.
      simpl. rewrite (flags_of_stretch ss cur k Hflags) by lia.
      rewrite <- fmap_app. f_equal.
      replace (length segs - cur) with (k + (length segs - (cur + k))) by lia.
      by rewrite seq_app.
    + eapply reach_next; [exact Hreach | exact Hnext].
Qed.

End Order.

(** C9: after [epoch_init(shuffle=False)] the epoch's segments are the
    constructed ones in construction order: sessions in input order, end
    indices ascending within a session, the positive segment of an end
    index immediately before its negative.  Every unfiltered call of
    [next] takes the next stretch of this list, so the flags of its batch
    are the stretch [cur, cur + k) of the alternating pattern
    [true, false, true, false, ...], and the caller's loop collects exactly
    that pattern over the whole epoch. *)
Theorem unshuffled_order {tokenizer : Tokenizer}
  data cfg w0 sessions ds w ds1 w1 :
  (1 <= config.history_len cfg)%Z ->
  reachable data cfg w0 sessions ds w ->
  epoch_init false ds w = Ret (ds1, w1) ->
  let st := w_store w in
  let h := config.history_len cfg in
  let n := length (_segments ds) in
  w1 = w /\ cur_segment_idx ds1 = Some 0 /\
  segments ds1 = Some (_segments ds) /\
  (exists mades,
     _segments ds = mades ≫= pair_segments h /\
     pair_point <$> mades = end_points sessions) /\
  (exists ss,
     samples_from st (_segments ds) 0 ss /\
     s_is_next <$> ss = Nat.even <$> seq 0 n /\
     forall calls bs ds3 b,
       let ds2 := after_calls st calls ds1 in
       next st bs false ds2 = (ds3, Ret (Some b)) ->
       exists cur k,
         cur_segment_idx ds2 = Some cur /\
         cur_segment_idx ds3 = Some (cur + k) /\
         cur + k <= n /\
         b = batch_of h (take k (drop cur ss)) /\
         Y_is_next b = Nat.even <$> seq cur k) /\
  (forall bs, (1 <= bs)%Z ->
     concat (Y_is_next <$> drain (S n) st bs ds1) = Nat.even <$> seq 0 n).
Proof.
  intros Hh Hreach Hepoch st h n.
  pose proof (reach_epoch_init _ _ _ _ _ _ _ _ _ Hreach Hepoch) as Hreach1.
  apply epoch_init_cursor in Hepoch
    as (segs & Hc1 & Hs1 & _ & Hseg1 & Horder).
  destruct (Horder eq_refl) as [-> ->]. clear Horder.
  assert (0 <= config.history_len cfg)%Z as Hh0 by lia.
  pose proof (reachable_ok _ _ _ _ _ _ Hh0 Hreach)
    as (Hhl & Hcat & Hinv & (mades & Hsegs & Hpts & Hok) & _).
  destruct (static_samples data cfg w0 _ _ _ Hh0 Hcat Hinv Hpts Hok)
    as (sps & F1 & F2 & F3).
  set (ss := sps ≫= pair_list) in *.
  assert (samples_from st (_segments ds) 0 ss) as Hss.
  { unfold samples_from. rewrite drop_0, Hsegs. exact F1. }
  assert (length ss = n) as Hlen.
  { unfold n. rewrite Hsegs. symmetry. by eapply Forall2_length. }
  assert (s_is_next <$> ss = Nat.even <$> seq 0 (length ss)) as Hflags.
  { eapply flags_alternate; [done | exact F2]. }
  split; [done |]. split; [done |]. split; [done |].
  split; [by exists mades |].
  split.
  - exists ss. split; [done |]. split; [by rewrite <- Hlen |].
    intros calls bs ds3 b ds2 Hnext.
    pose proof (after_calls_reachable data cfg w0 sessions st calls ds1 w
                  eq_refl Hreach1) as Hreach2.
    destruct (after_calls_segments st calls ds1 _ Hs1 ltac:(by eexists))
      as (Hs2 & [cur Hc2] & Hseg2).
    fold ds2 in Hreach2, Hs2, Hc2, Hseg2.
    destruct (next_batch_reachable _ _ _ _ _ _ _ _ _ _ Hh Hreach2 Hnext)
      as (cur' & segs' & ss' & Hc & Hs & Hlt & Hss' & _ & -> & _ & ->).
    assert (cur' = cur) as -> by congruence.
    assert (segs' = _segments ds) as -> by congruence.
    unfold samples_from in Hss, Hss'. rewrite drop_0 in Hss.
    pose proof (sampled_unique _ _ _ _ Hss' (Forall2_drop _ _ _ cur Hss))
      as ->.
    rewrite accepted_unpaired.
    set (k := examined bs false (drop cur ss) 0).
    assert (cur + k <= n) as Hk.
    { pose proof (examined_le bs false (drop cur ss) 0) as Hle.
      rewrite length_drop in Hle. fold k in Hle. lia. }
    exists cur, k. split; [done |]. split; [done |]. split; [done |].
    split; [done |]. simpl. apply flags_of_stretch; [done | lia].
  - intros bs Hbs.
    pose proof (drain_flags data cfg w0 sessions w (_segments ds) ss bs n
                  ds1 0 Hh Hbs Hreach1 Hc1 Hs1 Hss Hflags ltac:(lia)
                  ltac:(fold n; lia)) as Hdrain.
    rewrite Nat.sub_0_r in Hdrain. exact Hdrain.
Qed.

Lemma sample_source_reachable :
  @reachable sample_tokenizer sample_data sample_config sample_world
             sample_sessions sample_source sample_world'.
Proof. apply reach_init. vm_compute. reflexivity. Qed.

Lemma unshuffled_order_witness :
  @epoch_init false sample_source sample_world'
  = Ret (sample_epoch, sample_world') /\
  cur_segment_idx sample_epoch = Some 0 /\
  segments sample_epoch = Some (_segments sample_source) /\
  (exists mades,
     _segments sample_source
     = mades ≫= pair_segments (config.history_len sample_config) /\
     pair_point <$> mades = end_points sample_sessions) /\
  (exists ss,
     samples_from (w_store sample_world') (_segments sample_source) 0 ss /\
     s_is_next <$> ss = Nat.even <$> seq 0 4) /\
  (forall bs, (1 <= bs)%Z ->
     concat (Y_is_next
               <$> @drain sample_tokenizer 5 (w_store sample_world') bs
                     sample_epoch)
     = [true; false; true; false]).
Proof.
  assert (@epoch_init false sample_source sample_world'
          = Ret (sample_epoch, sample_world')) as E
    by (vm_compute; reflexivity).
  split; [exact E |].
  destruct (@unshuffled_order sample_tokenizer sample_data sample_config
              sample_world sample_sessions sample_source sample_world'
              sample_epoch sample_world'
              ltac:(vm_compute; discriminate) sample_source_reachable E)
    as (_ & Hc & Hs & Hmades & (ss & Hss & Hflags & _) & Hdrain).
  split; [exact Hc |]. split; [exact Hs |]. split; [exact Hmades |].
  split; [exists ss; split; [exact Hss | exact Hflags] |].
  exact Hdrain.
Defined.

(** ** The tail of an epoch *)

Section Tail.

Context {tokenizer : Tokenizer}.
Variables (data : dataset) (cfg : config.t) (w0 : world).

Local Abbreviation h := (config.history_len cfg).

(** What a call of [next] before the end of the segments does, in every
    reachable state: it examines [k] segments and moves the cursor past
    them; when it accepted at least one of them it returns their batch,
    which is smaller than [batch_size] only when the segments ran out; when
    it accepted none, the division of line 169 raises. *)
Lemma next_outcome sessions ds w cur segs bs paired :
  (1 <= h)%Z -> (0 <= bs)%Z ->
  reachable data cfg w0 sessions ds w ->
  cur_segment_idx ds = Some cur -> segments ds = Some segs ->
  cur < length segs ->
  exists ss,
    let k := examined bs paired ss 0 in
    let l := accepted paired (take k ss) in
    samples_from (w_store w) segs cur ss /\
    (Z.of_nat (length l) <= bs)%Z /\
    ((Z.of_nat (length l) < bs)%Z -> cur + k = length segs) /\
    next (w_store w) bs paired ds =
    (set_iteration (cur + k) segs ds,
     if decide (l = []) then Fail (Exc ZeroDivisionError)
     else Ret (Some (batch_of h l))).
Proof.
  intros Hh Hbs Hreach Hc Hs Hlt.
  destruct (next_reachable data cfg w0 sessions ds w cur segs bs paired
              ltac:(lia) Hreach Hc Hs) as (_ & ss & Hss & Hknown & Hrun).
  exists ss. cbn zeta. split; [done |].
  pose proof (examined_count bs paired ss 0 ltac:(lia)) as Hcount.
  pose proof (examined_stop bs paired ss 0) as Hstop.
  cbn zeta in Hcount, Hstop. simpl in Hcount, Hstop.
  split; [done |]. split.
  { intros Hsmall. destruct Hstop as [-> | ?]; [|lia].
    pose proof (Forall2_length _ _ _ Hss) as Hlen.
    rewrite length_drop in Hlen. lia. }
  rewrite Hrun by done. cbn zeta. f_equal.
  set (l := accepted paired (take (examined bs paired ss 0) ss)).
  destruct (decide (l = [])) as [-> | Hne]; [done |].
  replace h with (Z.of_nat (Z.to_nat h)) by lia.
  rewrite assemble_accepted; [done | lia | done |].
  apply Forall_accepted, Forall_take.
  eapply Forall_impl; [exact Hknown |].
  intros s (sess & e & _ & _ & Hl & _). lia.
Qed.

End Tail.

Lemma sample_shuffled_next_reachable :
  @reachable sample_tokenizer sample_data sample_config sample_world
             sample_sessions sample_shuffled_next sample_shuffled_world.
Proof.
  eapply (reach_next _ _ _ _ sample_shuffled sample_shuffled_world 2%Z true).
  - apply (reach_epoch_init _ _ _ _ sample_source sample_world' true).
    + exact sample_source_reachable.
    + vm_compute. reflexivity.
  - apply surjective_pairing.
Qed.

(** C6 at the failing input: the sample source after
    [epoch_init(shuffle=True)] with the draws that put the two negative
    segments first.  [next(2, return_paired_Y=True)] returns the two
    negatives and leaves the cursor at 2 of 4; the next call skips the two
    remaining segments, both positive, collects nothing, and the division
    by the batch size of line 169 raises [ZeroDivisionError]: no empty
    batch is returned. *)
Theorem paired_tail_raises :
  @epoch_init true sample_source sample_world'
  = Ret (sample_shuffled, sample_shuffled_world) /\
  (exists b,
     @next sample_tokenizer (w_store sample_shuffled_world) 2 true
           sample_shuffled
     = (sample_shuffled_next, Ret (Some b)) /\
     Y_is_next b = [false; false]) /\
  @reachable sample_tokenizer sample_data sample_config sample_world
             sample_sessions sample_shuffled_next sample_shuffled_world /\
  cur_segment_idx sample_shuffled_next = Some 2 /\
  length <$> segments sample_shuffled_next = Some 4 /\
  exists ds',
    @next sample_tokenizer (w_store sample_shuffled_world) 2 true
          sample_shuffled_next
    = (ds', Fail (Exc ZeroDivisionError)) /\
    cur_segment_idx ds' = Some 4.
Proof.
  split; [vm_compute; reflexivity |].
  split.
  { destruct (@next sample_tokenizer (w_store sample_shuffled_world) 2 true
                    sample_shuffled) as [ds1 [[b|]|]] eqn:E;
      try (vm_compute in E; discriminate).
    exists b. vm_compute in E. injection E as <- <-.
    split; vm_compute; reflexivity. }
  split; [exact sample_shuffled_next_reachable |].
  split; [vm_compute; reflexivity |].
  split; [vm_compute; reflexivity |].
  eexists. split; vm_compute; reflexivity.
Qed.

(** * Further properties *)

(** ** The dissimilarity test at its edges *)

Lemma size_id_set_zero (ids : list Z) : size (id_set ids) = 0 <-> ids = [].
Proof.
  unfold id_set. split; [|by intros ->].
  intros H. apply size_empty_inv in H.
  destruct ids as [|x ids]; [done |].
  exfalso. apply (not_elem_of_empty (C := gset Z) x).
  rewrite <- (leibniz_equiv _ _ H). set_solver.
Qed.

Lemma size_id_set_pos (ids : list Z) : ids <> [] -> 0 < size (id_set ids).
Proof.
  intros N. destruct (size (id_set ids)) eqn:E; [|lia].
  by apply size_id_set_zero in E.
Qed.

Lemma are_different_uttrs_raises (ids1 ids2 : list Z) :
  ids1 = [] \/ ids2 = [] ->
  _are_different_uttrs ids1 ids2 = raise ZeroDivisionError.
Proof.
  intros H. unfold _are_different_uttrs, coverage_score.
  destruct (decide (ids1 = [])) as [-> | N1]; [reflexivity |].
  destruct H as [-> | ->]; [done |].
  rewrite true_div_ret; [reflexivity |]. by apply size_id_set_pos.
Qed.

Lemma are_different_uttrs_returns (ids1 ids2 : list Z) :
  ids1 <> [] -> ids2 <> [] ->
  exists r, _are_different_uttrs ids1 ids2 = Ret r.
Proof.
  intros N1 N2. unfold _are_different_uttrs, coverage_score.
  rewrite !true_div_ret by (by apply size_id_set_pos). simpl.
  match goal with |- context [if ?c then _ else _] => destruct c end;
    eauto.
Qed.

(** X1: [_are_different_uttrs] raises [ZeroDivisionError] exactly when one of
    the two id sequences is empty, and returns a boolean exactly when
    neither is. *)
Theorem are_different_uttrs_empty (ids1 ids2 : list Z) :
  (_are_different_uttrs ids1 ids2 = raise ZeroDivisionError
   <-> ids1 = [] \/ ids2 = []) /\
  ((exists r, _are_different_uttrs ids1 ids2 = Ret r)
   <-> ids1 <> [] /\ ids2 <> []).
Proof.
  split; split.
  - intros H. destruct (decide (ids1 = [])) as [? | N1]; [by left |].
    destruct (decide (ids2 = [])) as [? | N2]; [by right |].
    destruct (are_different_uttrs_returns _ _ N1 N2) as [r Hr].
    rewrite Hr in H. discriminate.
  - apply are_different_uttrs_raises.
  - intros [r Hr].
    split; intros E; rewrite are_different_uttrs_raises in Hr by auto;
      discriminate.
  - intros [N1 N2]. by apply are_different_uttrs_returns.
Qed.

Lemma same_id_set_rejected (ids1 ids2 : list Z) :
  ids1 <> [] -> id_set ids1 = id_set ids2 ->
  _are_different_uttrs ids1 ids2 = Ret false.
Proof.
  intros N1 E. unfold _are_different_uttrs, coverage_score.
  rewrite <- E, (idemp_L (∩) (id_set ids1)).
  rewrite !true_div_ret by (by apply size_id_set_pos). simpl.
  by rewrite self_coverage_not_below.
Qed.

(** X2: Two id sequences with the same set of unique ids are never different,
    whatever their order and their repetitions: such a candidate is always
    rejected. *)
Theorem same_id_set_not_different (ids1 ids2 : list Z) :
  ids1 <> [] -> id_set ids1 = id_set ids2 ->
  _are_different_uttrs ids1 ids2 = Ret false.
Proof.
  intros N1 E.
  destruct (are_different_uttrs_returns ids1 ids2 N1) as [r Hr].
  { intros ->. apply N1. apply size_id_set_zero.
    by rewrite E. }
  destruct r; [|done].
  apply are_different_uttrs_spec in Hr as (score & Hs & Hb).
  unfold coverage_score in Hs.
  rewrite <- E, (idemp_L (∩) (id_set ids1)) in Hs.
  rewrite !true_div_ret in Hs by (by apply size_id_set_pos).
  simpl in Hs. injection Hs as <-.
  rewrite self_coverage_not_below in Hb. discriminate.
Qed.

Lemma same_id_set_not_different_witness :
  [3; 7; 7; 5]%Z <> [] /\ id_set [3; 7; 7; 5]%Z = id_set [5; 3; 7]%Z /\
  _are_different_uttrs [3; 7; 7; 5]%Z [5; 3; 7]%Z = Ret false.
Proof.
  assert ([3; 7; 7; 5]%Z <> []) as N by discriminate.
  assert (id_set [3; 7; 7; 5]%Z = id_set [5; 3; 7]%Z) as E
    by (vm_compute; reflexivity).
  split; [exact N |]. split; [exact E |].
  exact (same_id_set_not_different [3; 7; 7; 5]%Z [5; 3; 7]%Z N E).
Defined.

(** ** The training script *)

Module train_facts.

Import train.

Lemma lower_char_t (c : ascii) :
  lower_char c = "t"%char <-> c = "t"%char \/ c = "T"%char.
Proof.
  destruct c as [[] [] [] [] [] [] [] []]; vm_compute;
    split; try discriminate; try (intros [?|?]; discriminate); auto.
Qed.

Lemma lower_char_r (c : ascii) :
  lower_char c = "r"%char <-> c = "r"%char \/ c = "R"%char.
Proof.
  destruct c as [[] [] [] [] [] [] [] []]; vm_compute;
    split; try discriminate; try (intros [?|?]; discriminate); auto.
Qed.

Lemma lower_char_u (c : ascii) :
  lower_char c = "u"%char <-> c = "u"%char \/ c = "U"%char.
Proof.
  destruct c as [[] [] [] [] [] [] [] []]; vm_compute;
    split; try discriminate; try (intros [?|?]; discriminate); auto.
Qed.

Lemma lower_char_e (c : ascii) :
  lower_char c = "e"%char <-> c = "e"%char \/ c = "E"%char.
Proof.
  destruct c as [[] [] [] [] [] [] [] []]; vm_compute;
    split; try discriminate; try (intros [?|?]; discriminate); auto.
Qed.

Lemma lower_char_1 (c : ascii) : lower_char c = "1"%char <-> c = "1"%char.
Proof.
  destruct c as [[] [] [] [] [] [] [] []]; vm_compute;
    split; try discriminate; auto.
Qed.

(** No character lowers to a capital letter. *)
Lemma lower_char_not_T (c : ascii) : lower_char c <> "T"%char.
Proof. destruct c as [[] [] [] [] [] [] [] []]; vm_compute; discriminate. Qed.

Lemma lower_nil (s : string) : lower s = ""%string <-> s = ""%string.
Proof. destruct s; simpl; split; try discriminate; auto. Qed.

Lemma lower_cons (s : string) (c : ascii) (t : string) :
  lower s = String c t <->
  exists c' s', s = String c' s' /\ lower_char c' = c /\ lower s' = t.
Proof.
  destruct s as [|c' s']; simpl; split.
  - discriminate.
  - intros (? & ? & ? & _); discriminate.
  - intros [= <- <-]. eauto.
  - intros (? & ? & [= <- <-] & <- & <-). reflexivity.
Qed.

End train_facts.

(** X17: [str2bool] accepts ["1"] and the sixteen spellings of ["true"] in
    upper and lower case, and nothing else; the third member of its tuple,
    ["True"], is never what decides, since no lowered string has a capital
    letter. *)
Theorem str2bool_accepts (v : string) :
  (train.str2bool v = true <->
   v = "1"%string \/
   exists c1 c2 c3 c4,
     v = String c1 (String c2 (String c3 (String c4 ""))) /\
     (c1 = "t" \/ c1 = "T")%char /\ (c2 = "r" \/ c2 = "R")%char /\
     (c3 = "u" \/ c3 = "U")%char /\ (c4 = "e" \/ c4 = "E")%char) /\
  String.eqb (train.lower v) "True" = false.
Proof.
  assert (String.eqb (train.lower v) "True" = false) as Hdead.
  { apply String.eqb_neq. intros H.
    apply train_facts.lower_cons in H as (c & s & _ & Hc & _).
    by apply train_facts.lower_char_not_T in Hc. }
  split; [|exact Hdead].
  unfold train.str2bool. cbn zeta. rewrite Hdead, orb_false_r.
  rewrite orb_true_iff, !String.eqb_eq. split.
  - intros [H | H].
    + right.
      apply train_facts.lower_cons in H as (c1 & s1 & -> & H1 & H).
      apply train_facts.lower_cons in H as (c2 & s2 & -> & H2 & H).
      apply train_facts.lower_cons in H as (c3 & s3 & -> & H3 & H).
      apply train_facts.lower_cons in H as (c4 & s4 & -> & H4 & H).
      apply train_facts.lower_nil in H as ->.
      exists c1, c2, c3, c4. split; [reflexivity |].
      apply train_facts.lower_char_t in H1.
      apply train_facts.lower_char_r in H2.
      apply train_facts.lower_char_u in H3.
      apply train_facts.lower_char_e in H4. done.
    + left.
      apply train_facts.lower_cons in H as (c1 & s1 & -> & H1 & H).
      apply train_facts.lower_nil in H as ->.
      by apply train_facts.lower_char_1 in H1 as ->.
  - intros [-> | (c1 & c2 & c3 & c4 & -> & H1 & H2 & H3 & H4)];
      [by right |]. left. simpl.
    apply train_facts.lower_char_t in H1 as ->.
    apply train_facts.lower_char_r in H2 as ->.
    apply train_facts.lower_char_u in H3 as ->.
    apply train_facts.lower_char_e in H4 as ->. reflexivity.
Qed.

(** X21: A floor label that the data source turns into a floor id comes back
    from the script's logging expression as the other label: ["A"] is 0
    and is logged as ["B"], ["B"] is 1 and is logged as ["A"]. *)
Theorem floor_label_of_index (fl : string) (i : Z) :
  floor_index fl = Ret i ->
  (fl = "A"%string /\ i = 0%Z /\ train.floor_label i = "B"%string) \/
  (fl = "B"%string /\ i = 1%Z /\ train.floor_label i = "A"%string).
Proof.
  unfold floor_index.
  destruct (String.eqb fl "A") eqn:EA.
  - apply String.eqb_eq in EA as ->. intros [= <-]. by left.
  - destruct (String.eqb fl "B") eqn:EB; [|discriminate].
    apply String.eqb_eq in EB as ->. intros [= <-]. by right.
Qed.

Lemma floor_label_of_index_witness :
  floor_index "A" = Ret 0%Z /\
  (("A"%string = "A"%string /\ 0%Z = 0%Z /\
    train.floor_label 0 = "B"%string) \/
   ("A"%string = "B"%string /\ 0%Z = 1%Z /\
    train.floor_label 0 = "A"%string)).
Proof.
  assert (floor_index "A" = Ret 0%Z) as E by reflexivity.
  split; [exact E |]. exact (floor_label_of_index "A" 0%Z E).
Defined.

(** X20: A periodic action of the training loop is due exactly at the positive
    steps that the period divides; it is never due at step 0, whatever the
    period; and a period of 0 does not switch it off: the test raises
    [ZeroDivisionError] at every step after the first. *)
Theorem due_steps (n_step period : Z) :
  (train.due n_step period = Ret true
   <-> (0 < n_step)%Z /\ period <> 0%Z /\ (period | n_step)%Z) /\
  (train.due n_step period = raise ZeroDivisionError
   <-> (0 < n_step)%Z /\ period = 0%Z) /\
  train.due 0 period = Ret false.
Proof.
  unfold train.due.
  split; [|split; [|reflexivity]].
  - destruct (Z.ltb_spec 0 n_step) as [Hn | Hn];
      [|split; [discriminate | lia]].
    destruct (Z.eqb_spec period 0) as [-> | Hp].
    + split; [discriminate | intros (_ & ? & _); done].
    + split.
      * intros [= H]. apply Z.eqb_eq in H.
        repeat split; try done. by apply Z.mod_divide.
      * intros (_ & _ & Hd). f_equal. apply Z.eqb_eq.
        by apply Z.mod_divide.
  - destruct (Z.ltb_spec 0 n_step) as [Hn | Hn];
      [|split; [discriminate | lia]].
    destruct (Z.eqb_spec period 0) as [-> | Hp]; [done |].
    split; [discriminate | intros [_ ?]; done].
Qed.

(** ** Merging the corpus configuration into the arguments *)

Section MergeFacts.

Context {V : Type}.

Lemma collect_corpus_config_lookup (config corpus_config : gmap string V)
  (k : string) :
  train.collect_corpus_config config corpus_config !! k =
  if String.prefix "__" k then None
  else match config !! k with
       | Some _ => None
       | None => corpus_config !! k
       end.
Proof.
  unfold train.collect_corpus_config.
  apply (map_fold_weak_ind (fun r (m : gmap string V) =>
    r !! k = if String.prefix "__" k then None
             else match config !! k with
                  | Some _ => None
                  | None => m !! k
                  end)).
  - rewrite !lookup_empty. destruct (String.prefix "__" k); [done |].
    by destruct (config !! k).
  - intros i x m r Hi IH.
    destruct (decide (i = k)) as [-> | Hne].
    + rewrite lookup_insert_eq.
      destruct (String.prefix "__" k) eqn:Hp; simpl; [by rewrite IH |].
      destruct (config !! k) eqn:Hc; simpl.
      * exact IH.
      * by rewrite lookup_insert_eq.
    + rewrite (lookup_insert_ne m) by done.
      destruct (negb (String.prefix "__" i)
                && negb (bool_decide (is_Some (config !! i))));
        [by rewrite lookup_insert_ne |done].
Qed.

End MergeFacts.

(** X18: "priority: parse args > corpus config": after the merge a key of the
    command line has the value the command line gave it; any other key has
    the value of the corpus configuration, unless it starts with two
    underscores, and then it is absent. *)
Theorem merge_config_lookup {V : Type} (config corpus_config : gmap string V)
  (k : string) :
  train.merge_config config corpus_config !! k =
  match config !! k with
  | Some v => Some v
  | None => if String.prefix "__" k then None else corpus_config !! k
  end.
Proof.
  unfold train.merge_config.
  destruct (config !! k) as [v|] eqn:Hc.
  - apply lookup_union_Some_raw. right. split; [|done].
    rewrite collect_corpus_config_lookup, Hc.
    by destruct (String.prefix "__" k).
  - rewrite lookup_union_l by done.
    rewrite collect_corpus_config_lookup, Hc. reflexivity.
Qed.

(** X19: Merging the same corpus configuration a second time changes nothing. *)
Theorem merge_config_idempotent {V : Type}
  (config corpus_config : gmap string V) :
  train.merge_config (train.merge_config config corpus_config) corpus_config
  = train.merge_config config corpus_config.
Proof.
  apply map_eq. intros k. unfold train.merge_config.
  rewrite !lookup_union, !collect_corpus_config_lookup, !lookup_union,
    !collect_corpus_config_lookup.
  destruct (String.prefix "__" k), (config !! k), (corpus_config !! k);
    reflexivity.
Qed.

(** ** The constructor, run forward

    What the constructor does on an input, phase by phase: whether it
    returns, and if not, how it fails. *)

Section Forward.

Context {tokenizer : Tokenizer}.

Lemma floor_index_valid (raw : raw_utterance) :
  valid_floor raw ->
  floor_index (raw_floor raw)
  = Ret (if String.eqb (raw_floor raw) "A" then 0 else 1)%Z.
Proof. intros [E | E]; rewrite E; reflexivity. Qed.

Lemma floor_index_invalid (raw : raw_utterance) :
  ~ valid_floor raw -> floor_index (raw_floor raw) = raise ValueError.
Proof.
  intros H. unfold floor_index.
  destruct (String.eqb_spec (raw_floor raw) "A") as [E | _];
    [destruct H; by left |].
  destruct (String.eqb_spec (raw_floor raw) "B") as [E | _];
    [destruct H; by right | reflexivity].
Qed.

Lemma process_uttr_valid mlen raw w :
  valid_floor raw ->
  process_uttr mlen raw w =
  Ret (length (uttrs (w_store w)),
       World (Store (uttrs (w_store w)
                     ++ [tokenized mlen raw (length (metas (w_store w)))])
                    (metas (w_store w) ++ [Meta None]))
             (w_draws w)).
Proof.
  intros H. unfold process_uttr, bind, lift.
  rewrite (floor_index_valid raw H). reflexivity.
Qed.

Lemma process_uttr_invalid mlen raw w :
  ~ valid_floor raw -> process_uttr mlen raw w = raise ValueError.
Proof.
  intros H. unfold process_uttr, bind, lift.
  rewrite (floor_index_invalid raw H). reflexivity.
Qed.

(** Tokenizing a session returns when all its floor labels are valid, and
    raises [ValueError] otherwise. *)
Lemma process_session_run mlen raws : forall w,
  (Forall valid_floor raws /\
   exists l w', mapM (process_uttr mlen) raws w = Ret (l, w')) \/
  (~ Forall valid_floor raws /\
   mapM (process_uttr mlen) raws w = raise ValueError).
Proof.
  induction raws as [|raw raws IH]; intros w; simpl.
  - left. split; [constructor |]. by eexists _, _.
  - unfold bind. destruct (decide (valid_floor raw)) as [Hv | Hn].
    + rewrite (process_uttr_valid mlen raw w Hv).
      match goal with |- context [mapM _ raws ?w1] =>
        destruct (IH w1) as [[HF (l & w' & ->)] | [HF ->]] end.
      * left. split; [by constructor |]. by eexists _, _.
      * right. split; [|reflexivity]. intros HF'. apply HF.
        by apply Forall_cons in HF' as [_ ?].
    + rewrite (process_uttr_invalid mlen raw w Hn). right.
      split; [|reflexivity]. intros HF'. apply Hn.
      by apply Forall_cons in HF' as [? _].
Qed.

Lemma process_sessions_run mlen data : forall w,
  (Forall (Forall valid_floor) data /\
   exists sessions w', process_sessions mlen data w = Ret (sessions, w')) \/
  (~ Forall (Forall valid_floor) data /\
   process_sessions mlen data w = raise ValueError).
Proof.
  unfold process_sessions.
  induction data as [|raws data IH]; intros w; simpl.
  - left. split; [constructor |]. by eexists _, _.
  - unfold bind.
    destruct (process_session_run mlen raws w)
      as [[Hv (l & w1 & ->)] | [Hn ->]].
    + destruct (IH w1) as [[HF (ss & w' & ->)] | [HF ->]].
      * left. split; [by constructor |]. by eexists _, _.
      * right. split; [|reflexivity]. intros HF'. apply HF.
        by apply Forall_cons in HF' as [_ ?].
    + right. split; [|reflexivity]. intros HF'. apply Hn.
      by apply Forall_cons in HF' as [? _].
Qed.

End Forward.

Lemma random_choice_run {A} (l : list A) (d : nat) :
  l <> [] -> exists x, random_choice l d = Ret x /\ x ∈ l.
Proof.
  intros Hne. unfold random_choice. destruct l as [|y l]; [done |].
  destruct (lookup_lt_is_Some_2 (y :: l) (d mod length (y :: l))) as [x Hx].
  { apply Nat.mod_upper_bound. simpl. lia. }
  exists x. rewrite Hx. split; [reflexivity |].
  by eapply list_elem_of_lookup_2.
Qed.

(** A loop returns when every step does, and fails with the failure of
    the first step that fails.  The invariant counts the steps. *)
Lemma foldM_run {A B} (body : B -> A -> M B)
  (I : nat -> B -> world -> Prop) (F : failure -> Prop) (l : list A) :
  forall k acc w,
    I k acc w ->
    (forall k x acc w, x ∈ l -> I k acc w ->
       (exists acc' w', body acc x w = Ret (acc', w') /\ I (S k) acc' w') \/
       (exists f, body acc x w = Fail f /\ F f)) ->
    (exists acc' w',
       foldM body acc l w = Ret (acc', w') /\ I (k + length l) acc' w') \/
    (exists f, foldM body acc l w = Fail f /\ F f).
Proof.
  induction l as [|x l IH]; intros k acc w HI Hstep; simpl.
  - left. exists acc, w. split; [reflexivity |]. by rewrite Nat.add_0_r.
  - unfold bind.
    destruct (Hstep k x acc w ltac:(left) HI)
      as [(acc1 & w1 & -> & HI1) | (f & -> & Hf)].
    + destruct (IH (S k) acc1 w1 HI1) as [(acc2 & w2 & -> & HI2) | Hfail].
      * intros k' y acc' w' Hy. apply Hstep. by right.
      * left. exists acc2, w2. split; [reflexivity |].
        by replace (k + S (length l)) with (S k + length l) by lia.
      * by right.
    + right. by exists f.
Qed.

Section ForwardPairs.

Context {tokenizer : Tokenizer}.
Variables (n0 m0 : nat) (cells : list utterance).
Hypothesis cells_meta :
  forall i c, cells !! i = Some c -> utterance_meta c = m0 + i.

Local Abbreviation K := (length cells).
Local Abbreviation store_inv := (store_inv n0 m0 cells).
Local Abbreviation sampling_failure := (sampling_failure cells).

(** The sampling loop over a pool of tokenized utterances returns a
    candidate and has used at least one draw, or fails as sampling can. *)
Lemma sample_loop_run st pool ids draws :
  pool <> [] ->
  Forall (fun a => exists u, uttrs st !! a = Some u /\ u ∈ cells) pool ->
  (exists pu, pu ∈ cells /\ ids = token_ids pu) ->
  (exists q draws',
     sample_loop st pool ids draws = Ret (q, draws') /\ q ∈ pool /\
     length draws' < length draws) \/
  (exists f,
     sample_loop st pool ids draws = Fail f /\ sampling_failure f).
Proof.
  intros Hne Hpool (pu & Hpu & ->).
  induction draws as [|d draws IH]; simpl.
  - right. exists DrawsExhausted. split; [reflexivity | by left].
  - destruct (random_choice_run pool d Hne) as (x & -> & Hx). simpl.
    rewrite Forall_forall in Hpool.
    destruct (Hpool x Hx) as (u & -> & Hu). simpl.
    destruct (decide (token_ids pu = [])) as [E1 | N1].
    { right. exists (Exc ZeroDivisionError).
      rewrite are_different_uttrs_raises by auto.
      split; [reflexivity |]. right. split; [done |]. eauto. }
    destruct (decide (token_ids u = [])) as [E2 | N2].
    { right. exists (Exc ZeroDivisionError).
      rewrite are_different_uttrs_raises by auto.
      split; [reflexivity |]. right. split; [done |]. eauto. }
    destruct (are_different_uttrs_returns _ _ N1 N2) as [[|] ->]; simpl.
    + left. exists x, draws. split; [reflexivity |]. split; [done | lia].
    + destruct IH as [(q & draws' & -> & Hq & Hl) | (f & -> & Hf)].
      * left. exists q, draws'. split; [reflexivity |]. split; [done | lia].
      * right. by exists f.
Qed.

(** The deep copy of a pool utterance: one new utterance dict with the
    fields of the original and one new meta dict, which is empty, or
    refers to the copy when the original referred to itself. *)
Lemma deepcopy_pool_cell w j qu :
  store_inv (w_store w) -> cells !! j = Some qu ->
  exists mt,
    deepcopy (n0 + j) w =
    Ret (length (uttrs (w_store w)),
         World (Store (uttrs (w_store w)
                       ++ [with_utterance_meta (length (metas (w_store w)))
                                               qu])
                      (metas (w_store w) ++ [mt]))
               (w_draws w)) /\
    (mt = Meta None \/ mt = Meta (Some (length (uttrs (w_store w))))).
Proof.
  intros (S1 & S2 & S3 & S4) Hqu.
  pose proof (S1 _ _ Hqu) as Hst.
  pose proof (cells_meta _ _ Hqu) as Hmeta.
  pose proof (lookup_lt_Some _ _ _ Hqu) as Hj.
  unfold deepcopy, copy_fuel, start_copy.
  cbn [deepcopy_uttr memo_u memo_m c_store uttrs metas].
  rewrite lookup_empty, Hst. cbn [memo_u memo_m c_store uttrs metas].
  rewrite lookup_empty, Hmeta.
  destruct (S4 j Hj) as [Hm | Hm]; rewrite Hm;
    cbn [reference_uttr res_bind memo_u memo_m c_store uttrs metas].
  - exists (Meta None). split; [|by left].
    rewrite insert_app_r_alt by lia. rewrite Nat.sub_diag. reflexivity.
  - exists (Meta (Some (length (uttrs (w_store w))))). split; [|by right].
    assert (forall fuel c,
              memo_u c !! (n0 + j) = Some (length (uttrs (w_store w))) ->
              deepcopy_uttr fuel (n0 + j) c
              = Ret (length (uttrs (w_store w)), c)) as Hmemo.
    { intros fuel c Hc. destruct fuel; simpl; by rewrite Hc. }
    rewrite Hmemo by apply lookup_insert_eq.
    cbn [res_bind memo_u memo_m c_store uttrs metas].
    rewrite !insert_app_r_alt by lia. rewrite !Nat.sub_diag. reflexivity.
Qed.

Lemma set_reference_uttr_run a t w u :
  uttrs (w_store w) !! a = Some u ->
  utterance_meta u < length (metas (w_store w)) ->
  set_reference_uttr a t w =
  Ret (tt, World (Store (uttrs (w_store w))
                        (<[utterance_meta u := Meta (Some t)]>
                           (metas (w_store w))))
                 (w_draws w)).
Proof.
  intros Hu Hm. unfold set_reference_uttr, bind, read_uttr, write_meta.
  rewrite Hu.
  destruct (lookup_lt_is_Some_2 _ _ Hm) as [mt ->]. reflexivity.
Qed.

Lemma set_is_next_run a b w u :
  uttrs (w_store w) !! a = Some u ->
  set_is_next a b w =
  Ret (tt, World (Store (<[a := with_is_next b u]> (uttrs (w_store w)))
                        (metas (w_store w)))
                 (w_draws w)).
Proof.
  intros Hu. unfold set_is_next, bind, read_uttr, write_uttr.
  rewrite Hu. cbn beta iota. by rewrite Hu.
Qed.

Lemma store_inv_self_reference st i :
  store_inv st -> i < K ->
  store_inv (Store (uttrs st)
                   (<[m0 + i := Meta (Some (n0 + i))]> (metas st))).
Proof.
  intros (S1 & S2 & S3 & S4) Hi. repeat split; simpl; try done.
  - by rewrite length_insert.
  - intros k Hk. destruct (decide (k = i)) as [-> | Hne].
    + right. apply list_lookup_insert_eq. lia.
    + rewrite list_lookup_insert_ne by lia. by apply S4.
Qed.

(** One pass of lines 56-80, run forward: it returns, with one utterance
    dict and one meta dict more in the store and at least one draw used,
    or it fails as sampling can. *)
Lemma build_pair_run h sess segs e w :
  store_inv (w_store w) ->
  Forall (fun a => n0 <= a < n0 + K) sess ->
  (1 <= e < Z.of_nat (length sess))%Z ->
  (exists segs' w',
     build_pair h (seq n0 K) sess segs e w = Ret (segs', w') /\
     length (uttrs (w_store w')) = S (length (uttrs (w_store w))) /\
     length (metas (w_store w')) = S (length (metas (w_store w))) /\
     length (w_draws w') < length (w_draws w)) \/
  (exists f,
     build_pair h (seq n0 K) sess segs e w = Fail f /\ sampling_failure f).
Proof.
  intros Hinv Hsess He.
  destruct (lookup_lt_is_Some_2 sess (Z.to_nat e) ltac:(lia)) as [pa Hpa].
  assert (n0 <= pa < n0 + K) as Hpa_range.
  { rewrite Forall_forall in Hsess. apply Hsess.
    by eapply list_elem_of_lookup_2. }
  assert (exists i, pa = n0 + i /\ i < K) as (i & -> & Hi)
    by (exists (pa - n0); lia).
  destruct (lookup_lt_is_Some_2 cells i Hi) as [pu Hpu].
  pose proof Hinv as (S1 & S2 & S3 & S4).
  pose proof (S1 _ _ Hpu) as Hpu_st.
  pose proof (cells_meta _ _ Hpu) as Hpu_meta.
  unfold build_pair, bind, lift.
  rewrite (proj2 (py_index_nonneg sess e (n0 + i) ltac:(lia)) Hpa).
  rewrite (set_reference_uttr_run (n0 + i) (n0 + i) w pu Hpu_st ltac:(lia)).
  rewrite Hpu_meta.
  pose proof (store_inv_self_reference _ i Hinv Hi) as Hinv1.
  set (st1 := Store (uttrs (w_store w))
                    (<[m0 + i := Meta (Some (n0 + i))]> (metas (w_store w))))
    in *.
  unfold read_uttr. cbn [w_store w_draws]. 
  change (uttrs st1) with (uttrs (w_store w)). rewrite Hpu_st.
  unfold sample_negative. cbn [w_store w_draws].
  destruct (sample_loop_run st1 (seq n0 K) (token_ids pu) (w_draws w))
    as [(q & draws' & -> & Hq & Hdraws) | (f & -> & Hf)].
  { intros E. apply (f_equal length) in E. rewrite length_seq in E.
    simpl in E. lia. }
  { apply Forall_forall. intros a Ha. apply elem_of_seq in Ha.
    destruct (lookup_lt_is_Some_2 cells (a - n0) ltac:(lia)) as [c Hc].
    exists c. split; [|by eapply list_elem_of_lookup_2].
    replace a with (n0 + (a - n0)) by lia. by apply S1. }
  { exists pu. split; [by eapply list_elem_of_lookup_2 | done]. }
  2: { right. by exists f. }
  left.
  apply elem_of_seq in Hq.
  assert (exists j, q = n0 + j /\ j < K) as (j & -> & Hj)
    by (exists (q - n0); lia).
  destruct (lookup_lt_is_Some_2 cells j Hj) as [qu Hqu].
  destruct (deepcopy_pool_cell (World st1 draws') j qu Hinv1 Hqu)
    as (mt & Hcopy & _).
  rewrite Hcopy. cbn [w_store w_draws].
  set (nu := with_utterance_meta (length (metas st1)) qu).
  rewrite (set_reference_uttr_run _ _ _ nu).
  2: { simpl. by rewrite lookup_app_r, Nat.sub_diag. }
  2: { simpl. rewrite length_app. simpl. lia. }
  cbn [w_store w_draws uttrs metas].
  rewrite (set_is_next_run _ _ _ nu).
  2: { simpl. by rewrite lookup_app_r, Nat.sub_diag. }
  eexists _, _. split; [reflexivity |]. simpl.
  rewrite !length_insert, !length_app, length_insert. simpl.
  repeat split; lia.
Qed.

(** The whole of lines 52-80, run forward. *)
Lemma build_segments_run h sessions w :
  store_inv (w_store w) ->
  Forall (Forall (fun a => n0 <= a < n0 + K)) sessions ->
  let pairs := length (end_points sessions) in
  (exists segs w',
     foldM (build_session h (seq n0 K)) [] sessions w = Ret (segs, w') /\
     store_inv (w_store w') /\
     length (uttrs (w_store w')) = length (uttrs (w_store w)) + pairs /\
     length (metas (w_store w')) = length (metas (w_store w)) + pairs /\
     length (w_draws w') + pairs <= length (w_draws w)) \/
  (exists f,
     foldM (build_session h (seq n0 K)) [] sessions w = Fail f /\
     sampling_failure f).
Proof.
  intros Hinv Hrange pairs. unfold build_session.
  rewrite (foldM_nested (fun uttrs => py_range 1 (Z.of_nat (length uttrs)))
             (fun uttrs segs e => build_pair h (seq n0 K) uttrs segs e)).
  fold (end_points sessions).
  destruct (foldM_run
    (fun acc p => build_pair h (seq n0 K) p.1 acc p.2)
    (fun k (_ : list segment) w1 =>
       store_inv (w_store w1) /\
       length (uttrs (w_store w1)) = length (uttrs (w_store w)) + k /\
       length (metas (w_store w1)) = length (metas (w_store w)) + k /\
       length (w_draws w1) + k <= length (w_draws w))
    sampling_failure (end_points sessions) 0 [] w)
    as [(segs & w' & Hrun & HI) | Hfail].
  - split; [done |]. lia.
  - intros k [sess e] acc w1 Hin (Hinv1 & L1 & L2 & L3).
    apply elem_of_end_points in Hin as [Hsess He].
    rewrite Forall_forall in Hrange. specialize (Hrange _ Hsess).
    destruct (build_pair_run h sess acc e w1 Hinv1 Hrange He)
      as [(segs' & w' & Hrun & U & Mt & D) | Hfail]; [|by right].
    left. exists segs', w'. split; [done |].
    destruct (build_pair_spec n0 m0 cells cells_meta h sess acc e w1 segs' w'
                Hinv1 Hrange He Hrun) as (_ & _ & _ & Hinv' & _).
    split; [done |]. lia.
  - left. exists segs, w'. by rewrite Nat.add_0_l in HI.
  - by right.
Qed.

(** Lines 85-89, run forward, over utterances that are pool utterances. *)
Lemma count_tokens_run st (l : list nat) : forall n draws,
  store_inv st -> Forall (fun a => n0 <= a < n0 + K) l ->
  exists us,
    Forall2 (fun a u => cells !! (a - n0) = Some u) l us /\
    foldM count_tokens n l (World st draws)
    = Ret ((n + foldr Z.add 0 (split_len ∘ text <$> us))%Z, World st draws).
Proof.
  induction l as [|a l IH]; intros n draws Hinv Hl.
  - exists []. split; [constructor |]. simpl. by rewrite Z.add_0_r.
  - apply Forall_cons in Hl as [Ha Hl].
    destruct (lookup_lt_is_Some_2 cells (a - n0) ltac:(lia)) as [u Hu].
    destruct (IH (n + split_len (text u))%Z draws Hinv Hl)
      as (us & HF & Hrun).
    exists (u :: us). split; [by constructor |].
    pose proof Hinv as (S1 & _).
    pose proof (S1 _ _ Hu) as Hst.
    replace (n0 + (a - n0)) with a in Hst by lia.
    cbn [foldM]. unfold bind at 1. unfold count_tokens at 1.
    unfold bind at 1, read_uttr. cbn [w_store]. rewrite Hst.
    unfold ret at 1. rewrite Hrun. f_equal. f_equal.
    rewrite fmap_cons. cbn [foldr compose]. lia.
Qed.

Lemma count_all_tokens_run st (sessions : list (list nat)) : forall n draws,
  store_inv st -> Forall (Forall (fun a => n0 <= a < n0 + K)) sessions ->
  exists us,
    Forall2 (fun a u => cells !! (a - n0) = Some u) (concat sessions) us /\
    foldM (foldM count_tokens) n sessions (World st draws)
    = Ret ((n + foldr Z.add 0 (split_len ∘ text <$> us))%Z, World st draws).
Proof.
  induction sessions as [|sess sessions IH]; intros n draws Hinv Hl.
  - exists []. split; [constructor |]. simpl. by rewrite Z.add_0_r.
  - apply Forall_cons in Hl as [Hsess Hl].
    destruct (count_tokens_run st sess n draws Hinv Hsess)
      as (us1 & HF1 & Hrun1).
    destruct (IH (n + foldr Z.add 0 (split_len ∘ text <$> us1))%Z draws
                 Hinv Hl) as (us2 & HF2 & Hrun2).
    exists (us1 ++ us2). split; [by apply Forall2_app |].
    cbn [foldM]. unfold bind at 1. rewrite Hrun1, Hrun2.
    f_equal. f_equal. rewrite fmap_app, foldr_app.
    generalize (split_len ∘ text <$> us2) as l2.
    generalize (split_len ∘ text <$> us1) as l1.
    clear. intros l1 l2. revert n.
    induction l1 as [|x l1 IH]; intros n; simpl; [lia |].
    specialize (IH n). lia.
Qed.

End ForwardPairs.

Lemma text_tokenized_list {tokenizer : Tokenizer} mlen raws m :
  text <$> tokenized_list mlen raws m = raw_text <$> raws.
Proof.
  revert m. induction raws as [|raw raws IH]; intros m; [done |].
  simpl. by rewrite IH.
Qed.

Lemma foldl_session_lengths (sessions : list (list nat)) (n : Z) :
  foldl (fun n sess => (n + Z.of_nat (length sess))%Z) n sessions
  = (n + Z.of_nat (length (concat sessions)))%Z.
Proof.
  revert n. induction sessions as [|s l IH]; intros n; simpl; [lia |].
  rewrite IH, length_app. lia.
Qed.

Lemma Forall2_lookup_seq {A} (cells us : list A) (n0 : nat) :
  Forall2 (fun a u => cells !! (a - n0) = Some u)
          (seq n0 (length cells)) us ->
  us = cells.
Proof.
  intros HF. apply list_eq_same_length with (length cells).
  - done.
  - apply Forall2_length in HF. by rewrite length_seq in HF.
  - intros i x y Hi Hx Hy.
    rewrite Forall2_lookup in HF. specialize (HF i).
    rewrite lookup_seq_lt, Hx in HF by done.
    inversion HF as [a u H E1 E2|]; subst.
    replace (n0 + i - n0) with i in H by lia. congruence.
Qed.

Section ForwardInit.

Context {tokenizer : Tokenizer}.
Variables (data : dataset) (cfg : config.t) (w : world).

Local Abbreviation n0 := (length (uttrs (w_store w))).
Local Abbreviation m0 := (length (metas (w_store w))).
Local Abbreviation cells :=
  (tokenized_list (config.max_uttr_len cfg) (concat data) m0).

(** The constructor on an input whose floor labels are all valid: it
    returns, and then the store has grown by the pool utterances and by
    one utterance and one meta dict for every pair of segments, each pair
    has used at least one draw, and the statistics count the sessions, the
    utterances and the pieces between spaces of their texts; or it fails
    as sampling can. *)
Lemma init_run :
  Forall (Forall valid_floor) data ->
  (exists sessions ds w',
     init data cfg w = Ret (sessions, ds, w') /\
     let pairs := length (end_points sessions) in
     length (uttrs (w_store w')) = n0 + length (concat data) + pairs /\
     length (metas (w_store w')) = m0 + length (concat data) + pairs /\
     length (w_draws w') + pairs <= length (w_draws w) /\
     n_sessions (statistics ds) = Z.of_nat (length data) /\
     n_uttrs (statistics ds) = Z.of_nat (length (concat data)) /\
     n_tokens (statistics ds)
     = foldr Z.add 0%Z (split_len ∘ raw_text <$> concat data)) \/
  (exists f, init data cfg w = Fail f /\ sampling_failure cells f).
Proof.
  intros Hvalid.
  destruct (process_sessions_run (config.max_uttr_len cfg) data w)
    as [[_ (sessions & w1 & Hp)] | [Hn _]]; [|done].
  pose proof Hp as Hp'.
  apply process_sessions_inv in Hp' as (HF & Hcat & ->).
  assert (length (concat data) = length cells) as Hlen
    by by rewrite length_tokenized_list.
  rewrite Hlen in Hcat.
  set (st1 := Store (uttrs (w_store w) ++ cells)
                    (metas (w_store w)
                     ++ replicate (length (concat data)) (Meta None))) in *.
  assert (store_inv n0 m0 cells st1) as Hinv1.
  { repeat split; simpl.
    - intros i c Hc. rewrite lookup_app_r by lia.
      by replace (n0 + i - n0) with i by lia.
    - rewrite length_app. lia.
    - rewrite length_app, length_replicate. lia.
    - intros i Hi. left. rewrite lookup_app_r by lia.
      replace (m0 + i - m0) with i by lia.
      apply lookup_replicate_2. lia. }
  pose proof (sessions_in_range data cfg w sessions Hcat) as Hrange.
  destruct (build_segments_run n0 m0 cells (cells_have_meta data cfg w)
              (config.history_len cfg) sessions (World st1 (w_draws w))
              Hinv1 Hrange)
    as [(segs & [st2 d2] & Hsegs & Hinv2 & U & Mt & D) | (f & Hsegs & Hf)].
  - left.
    destruct (count_all_tokens_run n0 m0 cells st2 sessions 0%Z d2
                Hinv2 Hrange) as (us & Hus & Hcount).
    rewrite Hcat in Hus. apply Forall2_lookup_seq in Hus as ->.
    unfold init, bind. rewrite Hp, Hcat, Hsegs, Hcount.
    unfold ret. eexists _, _, _. split; [reflexivity |].
    cbn [w_store w_draws statistics n_sessions n_uttrs n_tokens] in *.
    simpl in U, Mt.
    rewrite length_app in U. rewrite length_app, length_replicate in Mt.
    split; [lia |]. split; [lia |]. split; [lia |].
    split; [f_equal; by eapply Forall2_length |].
    split.
    { rewrite foldl_session_lengths, Hcat, length_seq. lia. }
    rewrite Z.add_0_l. rewrite list_fmap_compose, text_tokenized_list.
    by rewrite <- list_fmap_compose.
  - right. exists f. split; [|done].
    unfold init, bind. rewrite Hp, Hcat, Hsegs. reflexivity.
Qed.

Lemma init_invalid :
  ~ Forall (Forall valid_floor) data -> init data cfg w = raise ValueError.
Proof.
  intros Hn.
  destruct (process_sessions_run (config.max_uttr_len cfg) data w)
    as [[? _] | [_ Hp]]; [done |].
  unfold init, bind. by rewrite Hp.
Qed.

End ForwardInit.

(** ** How construction ends *)

Lemma invalid_floor_exists (data : dataset) :
  ~ Forall (Forall valid_floor) data <->
  exists sess raw, sess ∈ data /\ raw ∈ sess /\ ~ valid_floor raw.
Proof.
  split.
  - intros H. apply not_Forall_Exists in H; [|apply _].
    apply Exists_exists in H as (sess & Hsess & H). simpl in H.
    apply not_Forall_Exists in H; [|apply _].
    apply Exists_exists in H as (raw & Hraw & H). eauto.
  - intros (sess & raw & Hsess & Hraw & Hn) HF.
    rewrite Forall_forall in HF. specialize (HF _ Hsess).
    rewrite Forall_forall in HF. by apply Hn, HF.
Qed.

(** X3: Construction raises [ValueError] exactly when some utterance of the
    input has a floor label other than ["A"] and ["B"]: the label is looked
    up before anything else is done with the input, and nothing else in the
    constructor raises this exception. *)
Theorem init_value_error {tokenizer : Tokenizer} data cfg w :
  init data cfg w = raise ValueError <->
  exists sess raw, sess ∈ data /\ raw ∈ sess /\ ~ valid_floor raw.
Proof.
  rewrite <- invalid_floor_exists. split.
  - intros H HF.
    destruct (init_run data cfg w HF)
      as [(sessions & ds & w' & Hrun & _) | (f & Hrun & Hf)];
      rewrite Hrun in H; [discriminate |].
    injection H as ->. by destruct Hf as [? | [? _]].
  - apply init_invalid.
Qed.

(** X4: When construction does not return, it is for one of three reasons: a
    floor label is invalid ([ValueError]); an utterance has no token id at
    all, so that the dissimilarity test divides by zero; or the sampling
    loop has used up every draw there is without finding a negative.  In
    particular the constructor never raises [IndexError] or [KeyError], and
    the recursion of the deep copy always ends. *)
Theorem init_failures {tokenizer : Tokenizer} data cfg w f :
  init data cfg w = Fail f ->
  (f = Exc ValueError /\
   exists sess raw, sess ∈ data /\ raw ∈ sess /\ ~ valid_floor raw) \/
  (f = Exc ZeroDivisionError /\
   exists raw m, raw ∈ concat data /\
     token_ids (tokenized (config.max_uttr_len cfg) raw m) = []) \/
  f = DrawsExhausted.
Proof.
  intros H.
  destruct (decide (Forall (Forall valid_floor) data)) as [HF | Hn].
  - destruct (init_run data cfg w HF)
      as [(sessions & ds & w' & Hrun & _) | (f' & Hrun & Hf)];
      rewrite Hrun in H; [discriminate |].
    injection H as <-.
    destruct Hf as [-> | [-> (c & Hc & Hids)]]; [by right; right |].
    right. left. split; [done |].
    apply list_elem_of_lookup in Hc as [i Hc].
    apply tokenized_list_lookup_inv in Hc as (raw & Hraw & ->).
    exists raw, (length (metas (w_store w)) + i).
    split; [by eapply list_elem_of_lookup_2 | done].
  - left. rewrite (init_invalid data cfg w Hn) in H. injection H as <-.
    split; [done |]. by apply invalid_floor_exists.
Qed.

Lemma init_failures_witness :
  @init sample_tokenizer sample_data sample_config (World empty_store [])
  = Fail DrawsExhausted /\
  ((DrawsExhausted = Exc ValueError /\
    exists sess raw, sess ∈ sample_data /\ raw ∈ sess /\ ~ valid_floor raw) \/
   (DrawsExhausted = Exc ZeroDivisionError /\
    exists raw m, raw ∈ concat sample_data /\
      token_ids (@tokenized sample_tokenizer
                   (config.max_uttr_len sample_config) raw m) = []) \/
   DrawsExhausted = DrawsExhausted).
Proof.
  assert (@init sample_tokenizer sample_data sample_config
                (World empty_store []) = Fail DrawsExhausted) as E
    by (vm_compute; reflexivity).
  split; [exact E |].
  exact (@init_failures sample_tokenizer sample_data sample_config
           (World empty_store []) DrawsExhausted E).
Defined.

(** X5: The statistics of lines 83-89: the number of sessions, the number of
    utterances, which is the size of the pool, and as [n_tokens] the
    number of pieces that single spaces cut the raw texts into, whatever
    the tokenizer makes of a text and wherever [max_uttr_len] truncates
    it. *)
Theorem init_statistics {tokenizer : Tokenizer} data cfg w sessions ds w' :
  init data cfg w = Ret (sessions, ds, w') ->
  n_sessions (statistics ds) = Z.of_nat (length data) /\
  n_uttrs (statistics ds) = Z.of_nat (length (concat data)) /\
  length (utterance_pool ds) = length (concat data) /\
  n_tokens (statistics ds)
  = foldr Z.add 0%Z
      ((fun raw => Z.of_nat (S (count_spaces (raw_text raw))))
         <$> concat data).
Proof.
  intros H.
  destruct (decide (Forall (Forall valid_floor) data)) as [HF | Hn];
    [|rewrite (init_invalid data cfg w Hn) in H; discriminate].
  destruct (init_run data cfg w HF)
    as [(sessions1 & ds1 & w1 & Hrun & _ & _ & _ & S1 & S2 & S3)
       | (f' & Hrun & _)];
    rewrite Hrun in H; [|discriminate].
  injection H as -> -> ->.
  split; [done |]. split; [done |]. split; [|exact S3].
  apply init_spec in Hrun as (_ & Hcat & -> & _).
  by rewrite Hcat, length_seq, length_tokenized_list.
Qed.

Lemma init_statistics_witness :
  @init sample_tokenizer sample_data sample_config sample_world
  = Ret (sample_sessions, sample_source, sample_world') /\
  n_sessions (statistics sample_source) = 1%Z /\
  n_uttrs (statistics sample_source) = 3%Z /\
  length (utterance_pool sample_source) = 3 /\
  n_tokens (statistics sample_source) = 6%Z.
Proof.
  assert (@init sample_tokenizer sample_data sample_config sample_world
          = Ret (sample_sessions, sample_source, sample_world')) as E
    by (vm_compute; reflexivity).
  split; [exact E |].
  exact (@init_statistics sample_tokenizer sample_data sample_config
           sample_world sample_sessions sample_source sample_world' E).
Defined.

Lemma length_end_points_mades (sessions : list (list nat))
  (mades : list made_pair) :
  pair_point <$> mades = end_points sessions ->
  length (end_points sessions) = length mades.
Proof. intros <-. by rewrite length_fmap. Qed.

(** X6: What construction adds to the store: the pool utterances with their
    meta dicts and, for every pair of segments, one utterance dict and one
    meta dict, those of the negative.  The deep copy of line 73 copies
    neither the positive nor any other pool utterance.  Every pair has
    used at least one random draw. *)
Theorem init_allocations {tokenizer : Tokenizer} data cfg w sessions ds w' :
  init data cfg w = Ret (sessions, ds, w') ->
  exists pairs,
    length (_segments ds) = 2 * pairs /\
    length (uttrs (w_store w'))
    = length (uttrs (w_store w)) + length (concat data) + pairs /\
    length (metas (w_store w'))
    = length (metas (w_store w)) + length (concat data) + pairs /\
    length (w_draws w') + pairs <= length (w_draws w).
Proof.
  intros H.
  destruct (decide (Forall (Forall valid_floor) data)) as [HF | Hn];
    [|rewrite (init_invalid data cfg w Hn) in H; discriminate].
  destruct (init_run data cfg w HF)
    as [(sessions1 & ds1 & w1 & Hrun & U & Mt & D & _) | (f' & Hrun & _)];
    rewrite Hrun in H; [|discriminate].
  injection H as -> -> ->.
  exists (length (end_points sessions)).
  split; [|done].
  apply init_spec in Hrun
    as (_ & _ & _ & _ & _ & _ & _ & mades & -> & Hpts & _).
  rewrite length_pair_segments_bind.
  by rewrite (length_end_points_mades _ _ Hpts).
Qed.

Lemma init_allocations_witness :
  @init sample_tokenizer sample_data sample_config sample_world
  = Ret (sample_sessions, sample_source, sample_world') /\
  exists pairs,
    length (_segments sample_source) = 2 * pairs /\
    length (uttrs (w_store sample_world'))
    = length (uttrs (w_store sample_world)) + length (concat sample_data)
      + pairs /\
    length (metas (w_store sample_world'))
    = length (metas (w_store sample_world)) + length (concat sample_data)
      + pairs /\
    length (w_draws sample_world') + pairs <= length (w_draws sample_world).
Proof.
  assert (@init sample_tokenizer sample_data sample_config sample_world
          = Ret (sample_sessions, sample_source, sample_world')) as E
    by (vm_compute; reflexivity).
  split; [exact E |].
  exact (@init_allocations sample_tokenizer sample_data sample_config
           sample_world sample_sessions sample_source sample_world' E).
Defined.

Lemma after_calls_unstarted {tokenizer : Tokenizer} st calls ds :
  cur_segment_idx ds = None -> after_calls st calls ds = ds.
Proof.
  intros Hc. induction calls as [|[bs paired] calls IH]; [done |].
  simpl. unfold next. rewrite Hc. exact IH.
Qed.

(** X10: [next] before the first [epoch_init] raises [AttributeError], however
    often it is tried: the constructor sets neither the cursor nor the
    epoch's segments, and a failed call leaves the object as it is. *)
Theorem next_before_epoch_init {tokenizer : Tokenizer}
  data cfg w sessions ds w' st calls bs paired :
  init data cfg w = Ret (sessions, ds, w') ->
  after_calls st calls ds = ds /\
  next st bs paired (after_calls st calls ds) = (ds, raise AttributeError).
Proof.
  intros H. apply init_spec in H as (_ & _ & _ & _ & Hc & _).
  rewrite (after_calls_unstarted st calls ds Hc). split; [done |].
  unfold next. by rewrite Hc.
Qed.

Lemma next_before_epoch_init_witness :
  @init sample_tokenizer sample_data sample_config sample_world
  = Ret (sample_sessions, sample_source, sample_world') /\
  @after_calls sample_tokenizer (w_store sample_world')
     [(2%Z, true); (1%Z, false)] sample_source = sample_source /\
  @next sample_tokenizer (w_store sample_world') 4 false
     (@after_calls sample_tokenizer (w_store sample_world')
        [(2%Z, true); (1%Z, false)] sample_source)
  = (sample_source, raise AttributeError).
Proof.
  assert (@init sample_tokenizer sample_data sample_config sample_world
          = Ret (sample_sessions, sample_source, sample_world')) as E
    by (vm_compute; reflexivity).
  split; [exact E |].
  exact (@next_before_epoch_init sample_tokenizer sample_data sample_config
           sample_world sample_sessions sample_source sample_world'
           (w_store sample_world') [(2%Z, true); (1%Z, false)] 4%Z false E).
Defined.

(** ** Inputs without a pair *)

Lemma end_points_short (sessions : list (list nat)) :
  Forall (fun sess => length sess <= 1) sessions -> end_points sessions = [].
Proof.
  unfold end_points. induction 1 as [|sess sessions Hs _ IH]; [done |].
  rewrite bind_cons, IH, app_nil_r. unfold py_range.
  by replace (Z.to_nat (Z.of_nat (length sess) - 1)) with 0 by lia.
Qed.

Section Tokenized.

Context {tokenizer : Tokenizer}.
Variables (data : dataset) (cfg : config.t) (w : world).

Local Abbreviation n0 := (length (uttrs (w_store w))).
Local Abbreviation m0 := (length (metas (w_store w))).
Local Abbreviation cells :=
  (tokenized_list (config.max_uttr_len cfg) (concat data) m0).

(** The state in which the segments are built. *)
Lemma init_tokenized :
  Forall (Forall valid_floor) data ->
  exists sessions st1,
    process_sessions (config.max_uttr_len cfg) data w
    = Ret (sessions, World st1 (w_draws w)) /\
    Forall2 (fun sess raws => length sess = length raws) sessions data /\
    concat sessions = seq n0 (length cells) /\
    store_inv n0 m0 cells st1 /\
    Forall (Forall (fun a => n0 <= a < n0 + length cells)) sessions.
Proof.
  intros Hvalid.
  destruct (process_sessions_run (config.max_uttr_len cfg) data w)
    as [[_ (sessions & w1 & Hp)] | [Hn _]]; [|done].
  pose proof Hp as Hp'.
  apply process_sessions_inv in Hp' as (HF & Hcat & ->).
  assert (length (concat data) = length cells) as Hlen
    by by rewrite length_tokenized_list.
  rewrite Hlen in Hcat.
  eexists _, _. split; [exact Hp |]. split; [done |]. split; [done |].
  split; [|by apply (sessions_in_range data cfg w)].
  repeat split; simpl.
  - intros i c Hc. rewrite lookup_app_r by lia.
    by replace (n0 + i - n0) with i by lia.
  - rewrite length_app. lia.
  - rewrite length_app, length_replicate. lia.
  - intros i Hi. left. rewrite lookup_app_r by lia.
    replace (m0 + i - m0) with i by lia.
    apply lookup_replicate_2. lia.
Qed.

End Tokenized.

(** X8: On an input in which no session has two utterances, the empty input
    among them, construction returns without a segment and without a
    draw; an epoch then starts, shuffled or not, without a draw either, and
    its first [next] already returns [None]. *)
Theorem init_without_pairs {tokenizer : Tokenizer} data cfg w :
  Forall (Forall valid_floor) data ->
  Forall (fun raws => length raws <= 1) data ->
  exists sessions ds w',
    init data cfg w = Ret (sessions, ds, w') /\
    _segments ds = [] /\ w_draws w' = w_draws w /\
    forall shuffle st bs paired,
      exists ds1,
        epoch_init shuffle ds w' = Ret (ds1, w') /\
        next st bs paired ds1 = (ds1, Ret None).
Proof.
  intros Hvalid Hshort.
  destruct (init_tokenized data cfg w Hvalid)
    as (sessions & st1 & Hp & HF & Hcat & Hinv & Hrange).
  assert (end_points sessions = []) as Hpts.
  { apply end_points_short.
    clear -HF Hshort. induction HF as [|s r ss rs E _ IH]; [constructor |].
    apply Forall_cons in Hshort as [? ?]. constructor; [lia | auto]. }
  destruct (count_all_tokens_run _ _ _ st1 sessions 0%Z (w_draws w)
              Hinv Hrange) as (us & _ & Hcount).
  eexists sessions, _, (World st1 (w_draws w)).
  split.
  { unfold init, bind. rewrite Hp. unfold build_session.
    rewrite (foldM_nested
               (fun uttrs => py_range 1 (Z.of_nat (length uttrs)))
               (fun uttrs segs e =>
                  build_pair (config.history_len cfg) (concat sessions)
                             uttrs segs e)).
    fold (end_points sessions). rewrite Hpts. cbn [foldM]. unfold ret at 1.
    rewrite Hcount. reflexivity. }
  split; [reflexivity |]. split; [reflexivity |].
  intros shuffle st bs paired. destruct shuffle.
  - eexists. split; [reflexivity |]. reflexivity.
  - eexists. split; [reflexivity |]. reflexivity.
Qed.

Lemma init_without_pairs_witness :
  Forall (Forall valid_floor) [[RawUtterance "hi" "A"]; []] /\
  Forall (fun raws => length raws <= 1) [[RawUtterance "hi" "A"]; []] /\
  exists sessions ds w',
    @init sample_tokenizer [[RawUtterance "hi" "A"]; []] sample_config
          sample_world = Ret (sessions, ds, w') /\
    _segments ds = [] /\ w_draws w' = w_draws sample_world /\
    forall shuffle st bs paired,
      exists ds1,
        @epoch_init shuffle ds w' = Ret (ds1, w') /\
        @next sample_tokenizer st bs paired ds1 = (ds1, Ret None).
Proof.
  assert (Forall (Forall valid_floor) [[RawUtterance "hi" "A"]; []]) as H1.
  { repeat constructor. }
  assert (Forall (fun raws => length raws <= 1)
                 [[RawUtterance "hi" "A"]; []]) as H2.
  { repeat constructor. }
  split; [exact H1 |]. split; [exact H2 |].
  exact (@init_without_pairs sample_tokenizer [[RawUtterance "hi" "A"]; []]
           sample_config sample_world H1 H2).
Defined.

(** ** A pool too uniform to sample from *)

Lemma end_points_long (sessions : list (list nat)) (data : dataset) :
  Forall2 (fun sess raws => length sess = length raws) sessions data ->
  Exists (fun raws => 2 <= length raws) data ->
  end_points sessions <> [].
Proof.
  intros HF HE. apply Exists_exists in HE as (raws & Hraws & Hlen).
  apply list_elem_of_lookup in Hraws as [k Hk].
  destruct (Forall2_lookup_r _ _ _ _ _ HF Hk) as (sess & Hsess & E).
  assert ((sess, 1%Z) ∈ end_points sessions) as Hin.
  { apply elem_of_end_points. split; [by eapply list_elem_of_lookup_2 | lia]. }
  intros Hnil. rewrite Hnil in Hin. by apply not_elem_of_nil in Hin.
Qed.

(** X9: When all utterances of the input have the same set of token ids, and
    some session has two utterances, construction does not return: no
    candidate is different enough from the first positive, and the
    sampling loop goes on for as long as there are draws. *)
Theorem init_starvation {tokenizer : Tokenizer} data cfg w (ids0 : list Z) :
  Forall (Forall valid_floor) data ->
  Exists (fun raws => 2 <= length raws) data ->
  ids0 <> [] ->
  Forall (fun raw =>
            id_set (convert_tokens_to_ids
                      (py_slice (convert_string_to_tokens (raw_text raw))
                                0 (config.max_uttr_len cfg)) true)
            = id_set ids0) (concat data) ->
  init data cfg w = Fail DrawsExhausted.
Proof.
  intros Hvalid Hlong Hne Hsame.
  assert (forall i c,
            tokenized_list (config.max_uttr_len cfg) (concat data)
                           (length (metas (w_store w))) !! i = Some c ->
            id_set (token_ids c) = id_set ids0) as Hcells.
  { intros i c Hc.
    apply tokenized_list_lookup_inv in Hc as (raw & Hraw & ->).
    rewrite Forall_forall in Hsame. apply Hsame.
    by eapply list_elem_of_lookup_2. }
  assert (forall i c,
            tokenized_list (config.max_uttr_len cfg) (concat data)
                           (length (metas (w_store w))) !! i = Some c ->
            token_ids c <> []) as Hfull.
  { intros i c Hc E. apply Hcells in Hc. rewrite E in Hc.
    apply Hne, size_id_set_zero. by rewrite <- Hc. }
  destruct (init_run data cfg w Hvalid)
    as [(sessions & ds & w' & Hrun & _) | (f & Hrun & Hf)].
  - exfalso.
    apply init_spec in Hrun
      as (HF & _ & _ & _ & _ & _ & _ & mades & _ & Hpts & _ & Hok).
    pose proof (end_points_long sessions data HF Hlong) as Hpairs.
    rewrite <- Hpts in Hpairs.
    destruct mades as [|p mades]; [done |].
    apply Forall_cons in Hok as [(i & j & pu & qu & m & H) _].
    destruct H as (_ & Hpu & _ & Hqu & Hdiff & _).
    rewrite same_id_set_rejected in Hdiff; [discriminate | by eapply Hfull |].
    by rewrite (Hcells _ _ Hpu), (Hcells _ _ Hqu).
  - rewrite Hrun. destruct Hf as [-> | [_ (c & Hc & E)]]; [done |].
    apply list_elem_of_lookup in Hc as [i Hc]. by apply Hfull in Hc.
Qed.

Lemma init_starvation_witness :
  Forall (Forall valid_floor)
         [[RawUtterance "a b" "A"; RawUtterance "b a a" "B"]] /\
  Exists (fun raws => 2 <= length raws)
         [[RawUtterance "a b" "A"; RawUtterance "b a a" "B"]] /\
  [1; 100; 101; 2]%Z <> [] /\
  Forall (fun raw =>
            id_set (@convert_tokens_to_ids sample_tokenizer
                      (py_slice (@convert_string_to_tokens sample_tokenizer
                                   (raw_text raw))
                                0 (config.max_uttr_len sample_config)) true)
            = id_set [1; 100; 101; 2]%Z)
         (concat [[RawUtterance "a b" "A"; RawUtterance "b a a" "B"]]) /\
  @init sample_tokenizer [[RawUtterance "a b" "A"; RawUtterance "b a a" "B"]]
        sample_config sample_world = Fail DrawsExhausted.
Proof.
  assert (Forall (Forall valid_floor)
            [[RawUtterance "a b" "A"; RawUtterance "b a a" "B"]]) as H1.
  { constructor; [|constructor].
    constructor; [by left |]. constructor; [by right | constructor]. }
  assert (Exists (fun raws => 2 <= length raws)
            [[RawUtterance "a b" "A"; RawUtterance "b a a" "B"]]) as H2.
  { left. simpl. lia. }
  assert ([1; 100; 101; 2]%Z <> []) as H3 by discriminate.
  assert (Forall (fun raw =>
            id_set (@convert_tokens_to_ids sample_tokenizer
                      (py_slice (@convert_string_to_tokens sample_tokenizer
                                   (raw_text raw))
                                0 (config.max_uttr_len sample_config)) true)
            = id_set [1; 100; 101; 2]%Z)
            (concat [[RawUtterance "a b" "A"; RawUtterance "b a a" "B"]]))
    as H4.
  { repeat constructor; vm_compute; reflexivity. }
  split; [exact H1 |]. split; [exact H2 |]. split; [exact H3 |].
  split; [exact H4 |].
  exact (@init_starvation sample_tokenizer
           [[RawUtterance "a b" "A"; RawUtterance "b a a" "B"]]
           sample_config sample_world [1; 100; 101; 2]%Z H1 H2 H3 H4).
Defined.

(** ** The utterances of the segments *)

Lemma length_py_slice_prefix {A} (l : list A) (hi : Z) :
  py_slice l 0 hi = take (length (py_slice l 0 hi)) l /\
  (0 <= hi -> Z.of_nat (length (py_slice l 0 hi))
              = Z.min hi (Z.of_nat (length l)))%Z /\
  (hi < 0 -> Z.of_nat (length (py_slice l 0 hi))
             = Z.max 0 (Z.of_nat (length l) + hi))%Z.
Proof.
  unfold py_slice, slice_bound. change (0 <? 0)%Z with false. cbv iota.
  rewrite (Z.min_l 0) by lia. change (Z.to_nat 0) with 0.
  rewrite drop_0, Z.sub_0_r, length_take. split; [|split].
  - match goal with |- take ?n _ = _ =>
      destruct (Nat.le_gt_cases n (length l)) end.
    + by rewrite Nat.min_l.
    + rewrite Nat.min_r by lia. by rewrite !take_ge by lia.
  - intros H. destruct (Z.ltb_spec hi 0); lia.
  - intros H. destruct (Z.ltb_spec hi 0); lia.
Qed.

Lemma tokenized_completes {tokenizer : Tokenizer} mlen raw m u :
  valid_floor raw ->
  text u = raw_text raw -> floor u = raw_floor raw ->
  tokens u = tokens (tokenized mlen raw m) ->
  token_ids u = token_ids (tokenized mlen raw m) ->
  floor_id u = floor_id (tokenized mlen raw m) ->
  completes mlen raw u.
Proof.
  intros Hfloor Et Ef Etok Eids Efid. unfold completes. cbn zeta.
  simpl in Etok, Eids, Efid.
  destruct (length_py_slice_prefix
              (convert_string_to_tokens (raw_text raw)) mlen)
    as (P1 & P2 & P3).
  rewrite Et, Etok, Eids, Efid, Ef.
  split; [done |]. split; [done |]. split; [done |]. split; [done |].
  split; [done |]. split; [done |].
  destruct Hfloor as [E | E]; rewrite E; [by left | by right].
Qed.

(** X7: Every utterance of every segment, a negative as much as a pool
    utterance, is an utterance of the input as lines 31-42 complete it:
    its text and floor label are those of an input utterance; its tokens
    are the tokenizer's, cut by the slice [[:max_uttr_len]], so at most
    [max_uttr_len] of them when that is not negative, and all but the last
    [-max_uttr_len] when it is; its token ids are those of the tokens that
    were kept; its floor id is 0 for ["A"] and 1 for ["B"]. *)
Theorem segment_utterances_tokenized {tokenizer : Tokenizer}
  data cfg w sessions ds w' seg a :
  init data cfg w = Ret (sessions, ds, w') ->
  seg ∈ _segments ds -> a ∈ utterances seg ->
  exists u raw,
    uttrs (w_store w') !! a = Some u /\ raw ∈ concat data /\
    completes (config.max_uttr_len cfg) raw u.
Proof.
  intros H Hseg Ha.
  assert (Forall (Forall valid_floor) data) as Hvalid.
  { destruct (decide (Forall (Forall valid_floor) data)) as [? | Hn];
      [done |].
    rewrite (init_invalid data cfg w Hn) in H. discriminate. }
  assert (forall raw, raw ∈ concat data -> valid_floor raw) as Hfloor.
  { intros raw Hraw. apply list_elem_of_In, in_concat in Hraw
      as (raws & Hraws & Hraw).
    rewrite Forall_forall in Hvalid.
    apply list_elem_of_In in Hraws, Hraw. specialize (Hvalid _ Hraws).
    rewrite Forall_forall in Hvalid. by apply Hvalid. }
  destruct (segments_classified data cfg w sessions ds w' H seg Hseg)
    as (p & Hok & Hsess & He & Hkind).
  assert (a ∈ pair_session p ->
          exists i raw, concat data !! i = Some raw /\
            uttrs (w_store w') !! a
            = Some (tokenized (config.max_uttr_len cfg) raw
                      (length (metas (w_store w)) + i))) as Hpool.
  { intros Hin.
    destruct (pool_cells data cfg w sessions ds w' H a)
      as (i & raw & _ & Hraw & Hu); [|by eauto].
    apply list_elem_of_In, in_concat. exists (pair_session p).
    split; by apply list_elem_of_In. }
  assert (a ∈ pair_session p \/ a = pair_negative p) as [Hin | ->].
  { destruct Hkind as [-> | ->]; simpl in Ha.
    - left. by eapply elem_of_py_slice.
    - apply elem_of_app in Ha as [Ha | Ha].
      + left. by eapply elem_of_py_slice.
      + right. by apply list_elem_of_singleton in Ha. }
  - destruct (Hpool Hin) as (i & raw & Hraw & Hu).
    apply list_elem_of_lookup_2 in Hraw.
    eexists _, raw. split; [exact Hu |]. split; [done |].
    by apply (tokenized_completes _ raw 0); [apply Hfloor | ..].
  - destruct Hok as (i & j & pu & qu & m & Hok).
    destruct Hok as (_ & _ & _ & Hqu & _ & _ & Hn & _).
    apply tokenized_list_lookup_inv in Hqu as (raw & Hraw & ->).
    apply list_elem_of_lookup_2 in Hraw.
    eexists _, raw. split; [exact Hn |]. split; [done |].
    by apply (tokenized_completes _ raw 0); [apply Hfloor | ..].
Qed.

Lemma segment_utterances_tokenized_witness :
  @init sample_tokenizer sample_data sample_config sample_world
  = Ret (sample_sessions, sample_source, sample_world') /\
  Segment [0; 1; 4] ∈ _segments sample_source /\
  4 ∈ utterances (Segment [0; 1; 4]) /\
  exists u raw,
    uttrs (w_store sample_world') !! 4 = Some u /\
    raw ∈ concat sample_data /\
    @completes sample_tokenizer (config.max_uttr_len sample_config) raw u.
Proof.
  assert (@init sample_tokenizer sample_data sample_config sample_world
          = Ret (sample_sessions, sample_source, sample_world')) as E
    by (vm_compute; reflexivity).
  assert (Segment [0; 1; 4] ∈ _segments sample_source) as H1.
  { vm_compute. do 3 right. left. }
  assert (4 ∈ utterances (Segment [0; 1; 4])) as H2.
  { simpl. do 2 right. left. }
  split; [exact E |]. split; [exact H1 |]. split; [exact H2 |].
  exact (@segment_utterances_tokenized sample_tokenizer sample_data
           sample_config sample_world sample_sessions sample_source
           sample_world' (Segment [0; 1; 4]) 4 E H1 H2).
Defined.

(** ** Iteration at its edges *)

Section IterationEdges.

Context {tokenizer : Tokenizer}.

(** A sequence of [next] calls changes nothing of an object but its cursor
    and, at most, the fields that [epoch_init] sets. *)
Lemma after_calls_object st calls : forall ds,
  after_calls st calls ds = ds \/
  exists cur segs, after_calls st calls ds = set_iteration cur segs ds.
Proof.
  induction calls as [|[bs paired] calls IH]; intros ds; [by left |].
  simpl. destruct (next st bs paired ds) as [ds' r] eqn:Hnext. simpl.
  apply next_object in Hnext
    as [-> | (cur & segs & cur' & _ & _ & _ & _ & _ & ->)]; [apply IH |].
  right. destruct (IH (set_iteration cur' segs ds))
    as [-> | (c & s & ->)]; eauto.
Qed.

Lemma examined_zero paired (ss : list sample) : examined 0 paired ss 0 = 0.
Proof. by destruct ss. Qed.

Lemma examined_negative bs paired (ss : list sample) : forall n,
  (bs < 0)%Z -> examined bs paired ss n = length ss.
Proof.
  induction ss as [|s ss IH]; intros n Hbs; simpl; [done |].
  destruct (Z.eqb_spec (Z.of_nat n) bs) as [E | _]; [lia |].
  by rewrite IH.
Qed.

Lemma examined_positive bs paired (ss : list sample) :
  bs <> 0%Z -> ss <> [] -> 1 <= examined bs paired ss 0.
Proof.
  intros Hbs Hss. destruct ss as [|s ss]; [done |]. simpl.
  destruct bs; [done | lia..].
Qed.

Lemma set_iteration_same ds cur segs :
  cur_segment_idx ds = Some cur -> segments ds = Some segs ->
  set_iteration cur segs ds = ds.
Proof. destruct ds. simpl. by intros -> ->. Qed.

End IterationEdges.

(** X11: [epoch_init] forgets the iteration: whatever calls of [next] came
    before it, it does what it would have done without them.  An object
    can so be restarted at any point of an epoch, and an unshuffled restart
    serves the same batches again. *)
Theorem epoch_init_forgets {tokenizer : Tokenizer} shuffle st calls ds w :
  epoch_init shuffle (after_calls st calls ds) w = epoch_init shuffle ds w.
Proof.
  destruct (after_calls_object st calls ds) as [-> | (cur & segs & ->)];
    [done |].
  unfold epoch_init. destruct shuffle; reflexivity.
Qed.

(** X12: With a batch size other than 0, a call of [next] before the end of the
    epoch moves the cursor forward by at least one segment and not beyond
    the last, whether it returns a batch or raises: the caller's loop
    cannot go on forever. *)
Theorem next_progress {tokenizer : Tokenizer}
  data cfg w0 sessions ds w cur segs bs paired :
  (0 <= config.history_len cfg)%Z -> bs <> 0%Z ->
  reachable data cfg w0 sessions ds w ->
  cur_segment_idx ds = Some cur -> segments ds = Some segs ->
  cur < length segs ->
  exists cur',
    cur_segment_idx (next (w_store w) bs paired ds).1 = Some cur' /\
    cur < cur' <= length segs.
Proof.
  intros Hh Hbs Hreach Hc Hs Hlt.
  destruct (next_reachable data cfg w0 sessions ds w cur segs bs paired
              Hh Hreach Hc Hs) as (_ & ss & Hss & _ & Hrun).
  rewrite Hrun by done. cbn zeta. simpl.
  eexists. split; [reflexivity |].
  pose proof (Forall2_length _ _ _ Hss) as Hlen.
  rewrite length_drop in Hlen.
  pose proof (examined_le bs paired ss 0).
  pose proof (examined_positive bs paired ss Hbs) as Hpos.
  assert (ss <> []) as Hne by (intros ->; simpl in Hlen; lia).
  specialize (Hpos Hne). lia.
Qed.

Lemma next_progress_witness :
  (0 <= config.history_len sample_config)%Z /\ 2%Z <> 0%Z /\
  cur_segment_idx sample_shuffled_next = Some 2 /\
  exists cur',
    cur_segment_idx
      (@next sample_tokenizer (w_store sample_shuffled_world) 2 true
             sample_shuffled_next).1 = Some cur' /\
    2 < cur' <= 4.
Proof.
  assert (0 <= config.history_len sample_config)%Z as H1
    by (vm_compute; discriminate).
  assert (2%Z <> 0%Z) as H2 by discriminate.
  assert (cur_segment_idx sample_shuffled_next = Some 2) as H3
    by reflexivity.
  split; [exact H1 |]. split; [exact H2 |]. split; [exact H3 |].
  destruct (segments sample_shuffled_next) as [segs|] eqn:Hs;
    [|vm_compute in Hs; discriminate].
  assert (length segs = 4) as Hl
    by (vm_compute in Hs; injection Hs as <-; reflexivity).
  rewrite <- Hl.
  apply (@next_progress sample_tokenizer sample_data sample_config
           sample_world sample_sessions sample_shuffled_next
           sample_shuffled_world 2 segs 2%Z true H1 H2
           sample_shuffled_next_reachable H3 Hs).
  rewrite Hl. lia.
Defined.

(** X13: The batch size is compared for equality with the number of targets
    collected (line 132).  With a batch size of 0 the loop stops before its
    first segment: the cursor stays where it is and the division of line
    169 raises [ZeroDivisionError].  With a negative batch size the loop
    never stops early: an unfiltered call returns all the segments that
    are left in one batch. *)
Theorem next_degenerate_batch_size {tokenizer : Tokenizer}
  data cfg w0 sessions ds w cur segs :
  (1 <= config.history_len cfg)%Z ->
  reachable data cfg w0 sessions ds w ->
  cur_segment_idx ds = Some cur -> segments ds = Some segs ->
  cur < length segs ->
  (forall paired,
     next (w_store w) 0 paired ds = (ds, raise ZeroDivisionError)) /\
  exists ss,
    samples_from (w_store w) segs cur ss /\
    forall bs, (bs < 0)%Z ->
      next (w_store w) bs false ds
      = (set_iteration (length segs) segs ds,
         Ret (Some (batch_of (config.history_len cfg) ss))).
Proof.
  intros Hh Hreach Hc Hs Hlt. split.
  - intros paired.
    destruct (next_reachable data cfg w0 sessions ds w cur segs 0 paired
                ltac:(lia) Hreach Hc Hs) as (_ & ss & _ & _ & Hrun).
    rewrite Hrun by done. cbn zeta. rewrite examined_zero, Nat.add_0_r.
    by rewrite (set_iteration_same ds cur segs Hc Hs).
  - destruct (next_reachable data cfg w0 sessions ds w cur segs 0 false
                ltac:(lia) Hreach Hc Hs) as (_ & ss & Hss & Hknown & _).
    exists ss. split; [done |]. intros bs Hbs.
    destruct (next_reachable data cfg w0 sessions ds w cur segs bs false
                ltac:(lia) Hreach Hc Hs) as (_ & ss' & Hss' & _ & Hrun).
    pose proof (sampled_unique _ _ _ _ Hss' Hss) as ->.
    rewrite Hrun by done. cbn zeta.
    pose proof (Forall2_length _ _ _ Hss) as Hlen.
    rewrite length_drop in Hlen.
    rewrite examined_negative by done. rewrite firstn_all.
    rewrite accepted_unpaired. f_equal; [f_equal; lia |].
    replace (config.history_len cfg)
      with (Z.of_nat (Z.to_nat (config.history_len cfg))) by lia.
    rewrite assemble_accepted; [done | lia | |].
    + intros ->. simpl in Hlen. lia.
    + eapply Forall_impl; [exact Hknown |].
      intros s (sess & e & _ & _ & Hl & _). lia.
Qed.

Lemma next_degenerate_batch_size_witness :
  (1 <= config.history_len sample_config)%Z /\
  cur_segment_idx sample_epoch = Some 0 /\
  segments sample_epoch = Some (_segments sample_source) /\
  0 < length (_segments sample_source) /\
  (forall paired,
     @next sample_tokenizer (w_store sample_world') 0 paired sample_epoch
     = (sample_epoch, raise ZeroDivisionError)) /\
  exists ss,
    samples_from (w_store sample_world') (_segments sample_source) 0 ss /\
    forall bs, (bs < 0)%Z ->
      @next sample_tokenizer (w_store sample_world') bs false sample_epoch
      = (set_iteration (length (_segments sample_source))
                       (_segments sample_source) sample_epoch,
         Ret (Some (@batch_of sample_tokenizer
                      (config.history_len sample_config) ss))).
Proof.
  assert (1 <= config.history_len sample_config)%Z as H1
    by (vm_compute; discriminate).
  assert (cur_segment_idx sample_epoch = Some 0) as H2 by reflexivity.
  assert (segments sample_epoch = Some (_segments sample_source)) as H3
    by reflexivity.
  assert (0 < length (_segments sample_source)) as H4 by (vm_compute; lia).
  split; [exact H1 |]. split; [exact H2 |]. split; [exact H3 |].
  split; [exact H4 |].
  exact (@next_degenerate_batch_size sample_tokenizer sample_data
           sample_config sample_world sample_sessions sample_epoch
           sample_world' 0 (_segments sample_source) H1
           sample_epoch_reachable H2 H3 H4).
Defined.

(** ** References of the targets *)

Lemma known_sample_reference {tokenizer : Tokenizer} st h sessions s :
  known_sample st h sessions s ->
  s_is_next s = true -> s_ref_ids s = s_target_ids s.
Proof.
  intros (sess & e & _ & _ & _ & [Hp | Hn]) Htrue.
  - destruct Hp as (pos & pu & _ & _ & _ & -> & _ & _ & ->). reflexivity.
  - destruct Hn as (pos & pu & _ & _ & _ & Hfalse & _). congruence.
Qed.

(** X14: A target that is a true next utterance is its own reference (line 63):
    in every batch, the token ids that [Y_ref] is made of are, at the
    positions flagged [True], the token ids that [Y] is made of; a batch
    of true next utterances only has [Y_ref] equal to [Y]. *)
Theorem positive_targets_reference_themselves {tokenizer : Tokenizer}
  data cfg w0 sessions ds w bs paired ds' b :
  (1 <= config.history_len cfg)%Z ->
  reachable data cfg w0 sessions ds w ->
  next (w_store w) bs paired ds = (ds', Ret (Some b)) ->
  exists l : list sample,
    Y b = convert_batch_ids_to_tensor (s_target_ids <$> l) /\
    Y_ref b = convert_batch_ids_to_tensor (s_ref_ids <$> l) /\
    Y_is_next b = s_is_next <$> l /\
    Forall (fun s => s_is_next s = true -> s_ref_ids s = s_target_ids s) l /\
    (Forall (eq true) (Y_is_next b) -> Y_ref b = Y b).
Proof.
  intros Hh Hreach Hnext.
  destruct (next_batch_reachable _ _ _ _ _ _ _ _ _ _ Hh Hreach Hnext)
    as (cur & segs & ss & _ & _ & _ & _ & Hknown & _ & _ & ->).
  set (l := accepted paired (take (examined bs paired ss 0) ss)).
  assert (Forall (fun s => s_is_next s = true ->
                           s_ref_ids s = s_target_ids s) l) as Hl.
  { apply Forall_accepted, Forall_take.
    eapply Forall_impl; [exact Hknown |].
    intros s Hs. by eapply known_sample_reference. }
  exists l. split; [done |]. split; [done |]. split; [done |].
  split; [done |]. simpl. intros Hall. f_equal.
  clear -Hl Hall. induction Hl as [|s l Hs _ IH]; [done |].
  rewrite fmap_cons in Hall. apply Forall_cons in Hall as [Htrue Hall].
  rewrite !fmap_cons, IH by done. by rewrite Hs.
Qed.

Lemma positive_targets_reference_themselves_witness :
  exists ds' b,
    @next sample_tokenizer (w_store sample_world') 4 false sample_epoch
    = (ds', Ret (Some b)) /\
    exists l : list sample,
      Y b = @convert_batch_ids_to_tensor sample_tokenizer
              (s_target_ids <$> l) /\
      Y_ref b = @convert_batch_ids_to_tensor sample_tokenizer
                  (s_ref_ids <$> l) /\
      Y_is_next b = s_is_next <$> l /\
      Forall (fun s => s_is_next s = true -> s_ref_ids s = s_target_ids s)
             l /\
      (Forall (eq true) (Y_is_next b) -> Y_ref b = Y b).
Proof.
  destruct (@next sample_tokenizer (w_store sample_world') 4 false
                  sample_epoch) as [ds' [[b|]|]] eqn:E;
    try (vm_compute in E; discriminate).
  exists ds', b. split; [reflexivity |].
  apply (@positive_targets_reference_themselves sample_tokenizer sample_data
           sample_config sample_world sample_sessions sample_epoch
           sample_world' 4%Z false ds' b).
  - vm_compute. discriminate.
  - exact sample_epoch_reachable.
  - exact E.
Defined.

(** ** Whole epochs *)

Lemma batch_sizes_zero (bs : nat) : batch_sizes 0 bs = [].
Proof.
  unfold batch_sizes. destruct bs as [|bs]; [done |].
  by rewrite Nat.Div0.div_0_l, Nat.Div0.mod_0_l.
Qed.

Lemma batch_sizes_step (n bs : nat) :
  0 < bs -> 0 < n ->
  batch_sizes n bs = Nat.min bs n :: batch_sizes (n - Nat.min bs n) bs.
Proof.
  intros Hbs Hn. unfold batch_sizes.
  destruct (Nat.le_gt_cases bs n) as [Hle | Hgt].
  - rewrite Nat.min_l by done.
    assert (exists m, n = m + 1 * bs) as [m ->] by (exists (n - bs); lia).
    replace (m + 1 * bs - bs) with m by lia.
    rewrite Nat.div_add by lia. rewrite Nat.Div0.mod_add.
    rewrite Nat.add_1_r. reflexivity.
  - rewrite Nat.min_r by lia. rewrite Nat.sub_diag.
    rewrite Nat.div_small, Nat.mod_small by done.
    rewrite Nat.Div0.div_0_l, Nat.Div0.mod_0_l.
    destruct (Nat.eqb_spec n 0); [lia | done].
Qed.

Section EpochLoopFacts.

Context {tokenizer : Tokenizer}.
Variables (data : dataset) (cfg : config.t) (w0 : world).

Local Abbreviation h := (config.history_len cfg).

Lemma epoch_batches_stop (fuel : nat) st bs paired ds ds' :
  next st bs paired ds = (ds', Ret None) ->
  epoch_batches (S fuel) st bs paired ds = Some (ds', Ret []).
Proof. intros Hnext. cbn [epoch_batches]. by rewrite Hnext. Qed.

Lemma epoch_batches_step (fuel : nat) st bs paired ds ds' b ds'' batches :
  next st bs paired ds = (ds', Ret (Some b)) ->
  epoch_batches fuel st bs paired ds' = Some (ds'', Ret batches) ->
  epoch_batches (S fuel) st bs paired ds = Some (ds'', Ret (b :: batches)).
Proof. intros Hnext Hrest. cbn [epoch_batches]. by rewrite Hnext, Hrest. Qed.

(** An unfiltered epoch from the cursor on: the loop ends, and its batches
    hold the targets of the segments that were left, in their order, in
    batches of [bs] and a smaller last one. *)
Lemma epoch_batches_unfiltered sessions w segs ss bs (fuel : nat) :
  forall ds cur,
    (1 <= h)%Z -> (1 <= bs)%Z ->
    reachable data cfg w0 sessions ds w ->
    cur_segment_idx ds = Some cur -> segments ds = Some segs ->
    samples_from (w_store w) segs 0 ss ->
    cur <= length segs -> length segs - cur <= fuel ->
    exists ds' batches,
      epoch_batches (S fuel) (w_store w) bs false ds
      = Some (ds', Ret batches) /\
      cur_segment_idx ds' = Some (length segs) /\
      segments ds' = Some segs /\
      concat (Y_is_next <$> batches) = s_is_next <$> drop cur ss /\
      concat (Y_floor <$> batches) = s_target_floor <$> drop cur ss /\
      length ∘ Y_is_next <$> batches
      = batch_sizes (length segs - cur) (Z.to_nat bs).
Proof.
  induction fuel as [|fuel IH];
    intros ds cur Hh Hbs Hreach Hc Hs Hss Hle Hfuel;
    pose proof (Forall2_length _ _ _ Hss) as Hlen;
    rewrite drop_0 in Hlen.
  - assert (cur = length segs) as -> by lia.
    exists ds, []. rewrite Nat.sub_diag, batch_sizes_zero.
    rewrite (epoch_batches_stop _ _ _ _ _ _ (next_exhausted _ _ _ _ _ Hc Hs)).
    rewrite drop_ge by lia. done.
  - destruct (decide (cur = length segs)) as [-> | Hne].
    { exists ds, []. rewrite Nat.sub_diag, batch_sizes_zero.
      rewrite (epoch_batches_stop _ _ _ _ _ _
                 (next_exhausted _ _ _ _ _ Hc Hs)).
      rewrite drop_ge by lia. done. }
    pose proof (next_unfiltered data cfg w0 sessions ds w cur segs ss bs
                  Hh Hbs Hreach Hc Hs Hss ltac:(lia)) as Hnext.
    cbn zeta in Hnext.
    set (k := Nat.min (Z.to_nat bs) (length segs - cur)) in *.
    destruct (IH (set_iteration (cur + k) segs ds) (cur + k))
      as (ds' & batches & Hrest & Hc' & Hs' & Hflags & Hfloors & Hsizes);
      try done; try lia.
    { eapply reach_next; [exact Hreach | exact Hnext]. }
    exists ds', (batch_of h (take k (drop cur ss)) :: batches).
    split; [by eapply epoch_batches_step |].
    split; [done |]. split; [done |].
    rewrite !fmap_cons. cbn [concat].
    rewrite Hflags, Hfloors, Hsizes.
    rewrite <- (drop_drop ss). cbn [Y_is_next Y_floor batch_of].
    rewrite <- !fmap_app, take_drop.
    split; [done |]. split; [done |].
    rewrite (batch_sizes_step (length segs - cur)) by lia. fold k.
    cbn [compose Y_is_next batch_of].
    rewrite length_fmap, length_take, length_drop.
    f_equal; [lia |]. f_equal. lia.
Qed.








End EpochLoopFacts.

Lemma sample_shuffled_reachable :
  @reachable sample_tokenizer sample_data sample_config sample_world
             sample_sessions sample_shuffled sample_shuffled_world.
Proof.
  apply (reach_epoch_init _ _ _ _ sample_source sample_world' true).
  - exact sample_source_reachable.
  - vm_compute. reflexivity.
Qed.

(** X15: An unfiltered epoch, shuffled or not, driven by the caller's loop with
    a batch size of at least 1: the loop ends, after the batches of every
    segment and one more call, which returns [None].  All batches have
    [batch_size] targets except the last, which has the remainder when
    [batch_size] does not divide the number of segments; together they hold
    every segment once, half of them flagged as true next utterances. *)
Theorem unfiltered_epoch_batches {tokenizer : Tokenizer}
  data cfg w0 sessions ds w bs :
  (1 <= config.history_len cfg)%Z -> (1 <= bs)%Z ->
  reachable data cfg w0 sessions ds w ->
  cur_segment_idx ds = Some 0 ->
  let n := length (_segments ds) in
  exists ds' batches,
    epoch_batches (S n) (w_store w) bs false ds = Some (ds', Ret batches) /\
    cur_segment_idx ds' = Some n /\
    length ∘ Y_is_next <$> batches = batch_sizes n (Z.to_nat bs) /\
    concat (Y_is_next <$> batches) ≡ₚ Nat.even <$> seq 0 n /\
    next (w_store w) bs false ds' = (ds', Ret None).
Proof.
  intros Hh Hbs Hreach Hc n.
  assert (0 <= config.history_len cfg)%Z as Hh0 by lia.
  pose proof (reachable_ok _ _ _ _ _ _ Hh0 Hreach)
    as (_ & Hcat & Hinv & (mades & Hsegs & Hpts & Hok) & Hepoch).
  unfold epoch_ok in Hepoch. rewrite Hc in Hepoch.
  destruct (segments ds) as [segs|] eqn:Hs; [|done].
  destruct Hepoch as (_ & ss & ss0 & Hss & Hss0 & Hperm).
  destruct (static_samples data cfg w0 _ _ _ Hh0 Hcat Hinv Hpts Hok)
    as (sps & F1 & F2 & _).
  rewrite Hsegs in Hss0.
  pose proof (sampled_unique _ _ _ _ Hss0 F1) as ->.
  assert (length segs = n) as Hn.
  { unfold n. rewrite Hsegs.
    rewrite (Forall2_length _ _ _ Hss), (Forall2_length _ _ _ F1).
    by apply Permutation_length. }
  assert (length (sps ≫= pair_list) = n) as Hn0.
  { unfold n. rewrite Hsegs. symmetry. by eapply Forall2_length. }
  destruct (epoch_batches_unfiltered data cfg w0 sessions w segs ss bs n
              ds 0 Hh Hbs Hreach Hc Hs)
    as (ds' & batches & Hrun & Hc' & Hs' & Hflags & _ & Hsizes);
    [by unfold samples_from; rewrite drop_0 | lia | lia |].
  rewrite Nat.sub_0_r, Hn in *. rewrite drop_0 in Hflags.
  exists ds', batches. split; [done |]. split; [done |]. split; [done |].
  split.
  - rewrite Hflags, Hperm, <- Hn0.
    by rewrite (flags_alternate cfg _ _ _ 0 eq_refl F2).
  - rewrite <- Hn in Hc'. by eapply next_exhausted.
Qed.

Lemma unfiltered_epoch_batches_witness :
  (1 <= config.history_len sample_config)%Z /\ (1 <= 3)%Z /\
  cur_segment_idx sample_shuffled = Some 0 /\
  exists ds' batches,
    @epoch_batches sample_tokenizer 5 (w_store sample_shuffled_world) 3 false
                   sample_shuffled = Some (ds', Ret batches) /\
    cur_segment_idx ds' = Some 4 /\
    length ∘ Y_is_next <$> batches = [3; 1] /\
    concat (Y_is_next <$> batches) ≡ₚ [true; false; true; false] /\
    @next sample_tokenizer (w_store sample_shuffled_world) 3 false ds'
    = (ds', Ret None).
Proof.
  assert (1 <= config.history_len sample_config)%Z as H1
    by (vm_compute; discriminate).
  assert (1 <= 3)%Z as H2 by lia.
  assert (cur_segment_idx sample_shuffled = Some 0) as H3 by reflexivity.
  split; [exact H1 |]. split; [exact H2 |]. split; [exact H3 |].
  exact (@unfiltered_epoch_batches sample_tokenizer sample_data
           sample_config sample_world sample_sessions sample_shuffled
           sample_shuffled_world 3%Z H1 H2 sample_shuffled_reachable H3).
Defined.



(** ** Shuffled epochs *)

(** *** The copies are new cells *)

Section FreshCopies.

Variable st : store.
Variable R : nat -> Prop.
Hypothesis R_closed : closed_under_reference st R.

Lemma deepcopy_uttr_fresh (N : nat) fuel a c a' c' :
  R a -> copy_ok st c -> fresh_memo N c ->
  N <= length (uttrs (c_store c)) ->
  deepcopy_uttr fuel a c = Ret (a', c') ->
  fresh_memo N c' /\ N <= length (uttrs (c_store c')).
Proof.
  intros Ha Hok Hfresh HN H.
  apply (deepcopy_uttr_post st R R_closed) in H
    as ((_ & (E1 & _ & E3 & _) & Hnew & _) & _); [| done..].
  split.
  - intros x x' Hx. destruct (memo_u c !! x) as [y|] eqn:E.
    + pose proof (lookup_weaken _ _ _ _ E E3) as Hy.
      assert (y = x') as <- by congruence. by eapply Hfresh.
    + destruct (Hnew x x' E Hx) as [_ Hle]. lia.
  - apply prefix_length in E1. lia.
Qed.

Lemma deepcopy_list_fresh (N : nat) fuel l : forall c l' c',
  Forall R l -> copy_ok st c -> all_done st c -> fresh_memo N c ->
  N <= length (uttrs (c_store c)) ->
  deepcopy_list fuel l c = Ret (l', c') ->
  fresh_memo N c' /\ N <= length (uttrs (c_store c')).
Proof.
  induction l as [|a l IH]; intros c l' c' HR Hok Hdone Hfresh HN H;
    simpl in H.
  - by injection H as <- <-.
  - apply Forall_cons in HR as [Ha HR].
    apply res_bind_inv in H as ([a' c1] & Hc & H).
    apply res_bind_inv in H as ([l'' c2] & Hl & H). injection H as <- <-.
    destruct (deepcopy_uttr_fresh N _ _ _ _ _ Ha Hok Hfresh HN Hc)
      as [Hfresh1 HN1].
    apply (deepcopy_uttr_done st R R_closed) in Hc
      as (Hok1 & Hdone1 & _); [| done..].
    by eapply IH.
Qed.

Lemma deepcopy_segs_fresh (N : nat) fuel segs : forall c segs' c',
  Forall (fun seg => Forall R (utterances seg)) segs ->
  copy_ok st c -> all_done st c -> fresh_memo N c ->
  N <= length (uttrs (c_store c)) ->
  deepcopy_segs fuel segs c = Ret (segs', c') ->
  fresh_memo N c'.
Proof.
  induction segs as [|seg segs IH];
    intros c segs' c' HR Hok Hdone Hfresh HN H; simpl in H.
  - by injection H as <- <-.
  - apply Forall_cons in HR as [Hseg HR].
    apply res_bind_inv in H as ([l c1] & Hc & H).
    apply res_bind_inv in H as ([segs'' c2] & Hl & H). injection H as <- <-.
    destruct (deepcopy_list_fresh N _ _ _ _ _ Hseg Hok Hdone Hfresh HN Hc)
      as [Hfresh1 HN1].
    apply (deepcopy_list_done st R R_closed) in Hc
      as (Hok1 & Hdone1 & _); [| done..].
    by eapply IH.
Qed.

(** The deep copy of a list of segments consists of cells that did not
    exist before. *)
Lemma deepcopy_segments_fresh (segs : list segment) draws segs' w' :
  Forall (fun seg => Forall R (utterances seg)) segs ->
  deepcopy_segments segs (World st draws) = Ret (segs', w') ->
  Forall (fun seg => Forall (fun a => length (uttrs st) <= a)
                            (utterances seg)) segs'.
Proof.
  intros HR H. unfold deepcopy_segments in H. cbn [w_store w_draws] in H.
  destruct (deepcopy_segs _ _ _) as [[segs0 c]|] eqn:Hcopy; [|discriminate].
  injection H as <- <-.
  destruct (start_copy_ok st) as [Hok0 Hdone0].
  assert (fresh_memo (length (uttrs st)) c) as Hfresh.
  { eapply (deepcopy_segs_fresh (length (uttrs st))); [..| exact Hcopy];
      done. }
  apply (deepcopy_segs_done st R R_closed) in Hcopy
    as (_ & _ & _ & HF); [| done..].
  clear -HF Hfresh.
  induction HF as [|seg seg' segs segs' Hseg _ IH]; constructor; [|done].
  clear IH. induction Hseg as [|a a' l l' Ha _ IH]; constructor; [|done].
  by eapply Hfresh.
Qed.

End FreshCopies.

(** [random.shuffle] takes one draw for every position but the first. *)
Lemma shuffle_from_draws {A} (i : nat) : forall (l : list A) draws l' draws',
  shuffle_from i l draws = Ret (l', draws') ->
  draws' = drop i draws /\ i <= length draws.
Proof.
  induction i as [|i IH]; intros l draws l' draws' H; simpl in H.
  - injection H as <- <-. split; [done | lia].
  - destruct draws as [|d draws]; [discriminate |].
    apply IH in H as [-> Hle]. split; [done | simpl; lia].
Qed.

Lemma shuffle_from_run {A} (i : nat) : forall (l : list A) draws,
  i <= length draws ->
  exists l', shuffle_from i l draws = Ret (l', drop i draws).
Proof.
  induction i as [|i IH]; intros l draws Hle; simpl.
  - by exists l.
  - destruct draws as [|d draws]; [simpl in Hle; lia |].
    apply IH. simpl in Hle. lia.
Qed.

(** X22: what [epoch_init(shuffle=True)] leaves, in any reachable state:
    the cursor at 0 and, as the epoch's segments, as many segments as were
    constructed, made of utterance dicts that did not exist before, so
    that none is shared with the constructed segments or the pool; what
    existed is unchanged, [_segments] included; read as [next] reads them,
    the epoch's segments are the constructed ones in another order; and
    the shuffle has used one draw less than there are segments. *)
Theorem shuffled_epoch_copies {tokenizer : Tokenizer}
  data cfg w0 sessions ds w ds' w' :
  (0 <= config.history_len cfg)%Z ->
  reachable data cfg w0 sessions ds w ->
  epoch_init true ds w = Ret (ds', w') ->
  exists segs ss ss0,
    cur_segment_idx ds' = Some 0 /\ segments ds' = Some segs /\
    _segments ds' = _segments ds /\
    length segs = length (_segments ds) /\
    store_ext (w_store w) (w_store w') /\
    Forall (fun seg => Forall (fun a => length (uttrs (w_store w)) <= a)
                              (utterances seg)) segs /\
    samples_from (w_store w') segs 0 ss /\
    samples_from (w_store w) (_segments ds) 0 ss0 /\
    ss ≡ₚ ss0 /\
    w_draws w' = drop (length segs - 1) (w_draws w) /\
    length segs - 1 <= length (w_draws w).
Proof.
  intros Hh Hreach H.
  pose proof (reachable_ok _ _ _ _ _ _ Hh Hreach)
    as (_ & Hcat & Hinv & (mades & Hsegs & Hpts & Hok) & _).
  destruct (static_samples data cfg w0 _ _ _ Hh Hcat Hinv Hpts Hok)
    as (sps & F1 & _ & _).
  set (n0 := length (uttrs (w_store w0))) in *.
  set (m0 := length (metas (w_store w0))) in *.
  set (cells := tokenized_list (config.max_uttr_len cfg) (concat data) m0)
    in *.
  pose proof (in_segments_closed n0 m0 cells (cells_have_meta data cfg w0)
                _ _ Hinv Hok) as Hclosed.
  assert (Forall (fun seg => Forall (in_segments n0 cells mades)
                                    (utterances seg))
                 (_segments ds)) as HR.
  { rewrite Hsegs. by eapply segments_in_segments. }
  unfold epoch_init in H.
  apply bind_inv in H as (copied & w1 & Hcopy & H).
  apply bind_inv in H as (shuffled & w2 & Hshuffle & H).
  apply ret_inv in H as [-> ->].
  assert (Forall (fun seg => Forall (fun a => length (uttrs (w_store w)) <= a)
                                    (utterances seg)) copied) as Hfresh.
  { destruct w as [st draws].
    by eapply (deepcopy_segments_fresh st _ Hclosed). }
  apply (deepcopy_segments_inv (in_segments n0 cells mades) _ _ _ _
           (sps ≫= pair_list)) in Hcopy as (Hext & Hdraws & Hcopied);
    [| done | done | by rewrite Hsegs].
  pose proof Hshuffle as Hshuffle'.
  apply random_shuffle_inv in Hshuffle as [Hperm Hst].
  unfold random_shuffle in Hshuffle'.
  destruct (shuffle_from _ _ _) as [[l0 d0]|] eqn:Hsh; [|discriminate].
  injection Hshuffle' as <- <-.
  apply shuffle_from_draws in Hsh as [-> Hle].
  cbn [w_store w_draws] in *. rewrite Hdraws in *.
  destruct (Permutation_Forall2 (symmetry Hperm) Hcopied)
    as (ss & Hss & Hshuffled).
  pose proof (Forall2_length _ _ _ Hcopied) as L1.
  pose proof (Forall2_length _ _ _ F1) as L2.
  pose proof (Permutation_length Hperm) as L3.
  exists l0, ss, (sps ≫= pair_list). simpl.
  split; [done |]. split; [done |]. split; [done |].
  split; [rewrite Hsegs; lia |].
  split; [done |].
  split; [by rewrite Hperm |].
  split; [by unfold samples_from; rewrite drop_0 |].
  split; [unfold samples_from; by rewrite drop_0, Hsegs |].
  split; [done |].
  rewrite L3. done.
Qed.

Lemma shuffled_epoch_copies_witness :
  (0 <= config.history_len sample_config)%Z /\
  @epoch_init true sample_source sample_world'
  = Ret (sample_shuffled, sample_shuffled_world) /\
  exists segs ss ss0,
    cur_segment_idx sample_shuffled = Some 0 /\
    segments sample_shuffled = Some segs /\
    _segments sample_shuffled = _segments sample_source /\
    length segs = length (_segments sample_source) /\
    store_ext (w_store sample_world') (w_store sample_shuffled_world) /\
    Forall (fun seg =>
              Forall (fun a => length (uttrs (w_store sample_world')) <= a)
                     (utterances seg)) segs /\
    samples_from (w_store sample_shuffled_world) segs 0 ss /\
    samples_from (w_store sample_world') (_segments sample_source) 0 ss0 /\
    ss ≡ₚ ss0 /\
    w_draws sample_shuffled_world
    = drop (length segs - 1) (w_draws sample_world') /\
    length segs - 1 <= length (w_draws sample_world').
Proof.
  assert (0 <= config.history_len sample_config)%Z as H1
    by (vm_compute; discriminate).
  assert (@epoch_init true sample_source sample_world'
          = Ret (sample_shuffled, sample_shuffled_world)) as H2
    by (vm_compute; reflexivity).
  split; [exact H1 |]. split; [exact H2 |].
  exact (@shuffled_epoch_copies sample_tokenizer sample_data sample_config
           sample_world sample_sessions sample_source sample_world'
           sample_shuffled sample_shuffled_world H1 sample_source_reachable
           H2).
Defined.

(** *** The deep copy of the segments returns *)

Section CopyReturns.

Context {tokenizer : Tokenizer}.
Variables (n0 m0 : nat) (cells : list utterance).
Hypothesis cells_meta :
  forall i c, cells !! i = Some c -> utterance_meta c = m0 + i.
Variable st : store.
Hypothesis st_inv : store_inv n0 m0 cells st.

Local Abbreviation K := (length cells).

Lemma deepcopy_memo_hit fuel a a' c :
  memo_u c !! a = Some a' -> deepcopy_uttr fuel a c = Ret (a', c).
Proof. intros H. destruct fuel; simpl; by rewrite H. Qed.

(** A pool utterance is copied within one level of the recursion: its
    meta dict refers to nothing or to the utterance itself, which is in
    the memo by then. *)
Lemma deepcopy_pool_returns fuel i c :
  i < K -> store_ext st (c_store c) -> 1 <= fuel ->
  exists a' c',
    deepcopy_uttr fuel (n0 + i) c = Ret (a', c') /\
    store_ext st (c_store c').
Proof.
  intros Hi [E1 E2] Hfuel.
  destruct (memo_u c !! (n0 + i)) as [b|] eqn:Hmemo.
  { exists b, c. split; [by apply deepcopy_memo_hit | done]. }
  destruct fuel as [|fuel]; [lia |].
  destruct st_inv as (S1 & S2 & S3 & S4).
  destruct (lookup_lt_is_Some_2 cells i Hi) as [u Hu].
  pose proof (prefix_lookup_Some' _ _ _ _ E1 (S1 _ _ Hu)) as Hst.
  pose proof (cells_meta _ _ Hu) as Hmeta.
  assert (exists r, metas (c_store c) !! (m0 + i) = Some (Meta r) /\
                    (r = None \/ r = Some (n0 + i))) as (r & Hm & Hr).
  { destruct (S4 i Hi) as [H | H];
      pose proof (prefix_lookup_Some' _ _ _ _ E2 H); eauto. }
  cbn [deepcopy_uttr]. rewrite Hmemo, Hst.
  cbn [memo_u memo_m c_store uttrs metas]. rewrite Hmeta.
  destruct (memo_m c !! (m0 + i)) as [m'|] eqn:Hmm.
  { cbn [res_bind]. eexists _, _. split; [reflexivity |].
    cbn [c_store uttrs metas]. split; [|done].
    apply prefix_insert_beyond; [by apply prefix_app_r |].
    apply prefix_length in E1. lia. }
  rewrite Hm. cbn [reference_uttr].
  destruct Hr as [-> | ->].
  - cbn [res_bind]. eexists _, _. split; [reflexivity |].
    cbn [c_store uttrs metas memo_u memo_m]. split.
    + apply prefix_insert_beyond; [by apply prefix_app_r |].
      apply prefix_length in E1. lia.
    + by apply prefix_app_r.
  - rewrite (deepcopy_memo_hit fuel (n0 + i) (length (uttrs (c_store c))))
      by apply lookup_insert_eq.
    cbn [res_bind]. eexists _, _. split; [reflexivity |].
    cbn [c_store uttrs metas memo_u memo_m]. split.
    + apply prefix_insert_beyond; [by apply prefix_app_r |].
      apply prefix_length in E1. lia.
    + apply prefix_insert_beyond; [by apply prefix_app_r |].
      apply prefix_length in E2. lia.
Qed.

(** A negative is copied within two levels: its meta dict refers to its
    positive, a pool utterance. *)
Lemma deepcopy_negative_returns fuel p c :
  made_ok n0 m0 cells st p -> store_ext st (c_store c) -> 2 <= fuel ->
  exists a' c',
    deepcopy_uttr fuel (pair_negative p) c = Ret (a', c') /\
    store_ext st (c_store c').
Proof.
  intros (i & j & pu & qu & m & Hp) [E1 E2] Hfuel.
  destruct Hp as (_ & Hpu & _ & _ & _ & _ & Hn & _ & Hm & _).
  pose proof (lookup_lt_Some _ _ _ Hpu) as Hi.
  destruct (memo_u c !! pair_negative p) as [b|] eqn:Hmemo.
  { exists b, c. split; [by apply deepcopy_memo_hit | done]. }
  destruct fuel as [|fuel]; [lia |].
  pose proof (prefix_lookup_Some' _ _ _ _ E1 Hn) as Hst.
  pose proof (prefix_lookup_Some' _ _ _ _ E2 Hm) as Hmt.
  cbn [deepcopy_uttr]. rewrite Hmemo, Hst.
  cbn [memo_u memo_m c_store uttrs metas with_is_next with_utterance_meta
       utterance_meta].
  destruct (memo_m c !! m) as [m'|] eqn:Hmm.
  { cbn [res_bind]. eexists _, _. split; [reflexivity |].
    cbn [c_store uttrs metas]. split; [|done].
    apply prefix_insert_beyond; [by apply prefix_app_r |].
    apply prefix_length in E1. lia. }
  rewrite Hmt. cbn [reference_uttr].
  match goal with |- context [deepcopy_uttr fuel (n0 + i) ?c2] =>
    destruct (deepcopy_pool_returns fuel i c2 Hi) as (r' & c3 & -> & [F1 F2])
  end.
  { cbn [c_store uttrs metas]. split; by apply prefix_app_r. }
  { lia. }
  cbn [res_bind]. eexists _, _. split; [reflexivity |].
  cbn [c_store uttrs metas memo_u memo_m]. split.
  - apply prefix_insert_beyond; [done |].
    apply prefix_length in E1. lia.
  - apply prefix_insert_beyond; [done |].
    apply prefix_length in E2. lia.
Qed.

Variable mades : list made_pair.
Hypothesis mades_ok : Forall (made_ok n0 m0 cells st) mades.

Lemma deepcopy_uttr_returns fuel x c :
  in_segments n0 cells mades x -> store_ext st (c_store c) -> 2 <= fuel ->
  exists a' c',
    deepcopy_uttr fuel x c = Ret (a', c') /\ store_ext st (c_store c').
Proof.
  intros [Hx | (p & Hp & ->)] Hext Hfuel.
  - replace x with (n0 + (x - n0)) by lia.
    apply deepcopy_pool_returns; [lia | done | lia].
  - rewrite Forall_forall in mades_ok.
    by apply deepcopy_negative_returns; [apply mades_ok | ..].
Qed.

Lemma deepcopy_list_returns fuel l : forall c,
  Forall (in_segments n0 cells mades) l ->
  store_ext st (c_store c) -> 2 <= fuel ->
  exists l' c',
    deepcopy_list fuel l c = Ret (l', c') /\ store_ext st (c_store c').
Proof.
  induction l as [|a l IH]; intros c HR Hext Hfuel; simpl.
  - by exists [], c.
  - apply Forall_cons in HR as [Ha HR].
    destruct (deepcopy_uttr_returns fuel a c Ha Hext Hfuel)
      as (a' & c1 & -> & Hext1). cbn [res_bind].
    destruct (IH c1 HR Hext1 Hfuel) as (l' & c2 & -> & Hext2).
    cbn [res_bind]. by eexists _, _.
Qed.

Lemma deepcopy_segs_returns fuel segs : forall c,
  Forall (fun seg => Forall (in_segments n0 cells mades) (utterances seg))
         segs ->
  store_ext st (c_store c) -> 2 <= fuel ->
  exists segs' c',
    deepcopy_segs fuel segs c = Ret (segs', c') /\
    store_ext st (c_store c').
Proof.
  induction segs as [|seg segs IH]; intros c HR Hext Hfuel; simpl.
  - by exists [], c.
  - apply Forall_cons in HR as [Hseg HR].
    destruct (deepcopy_list_returns fuel (utterances seg) c Hseg Hext Hfuel)
      as (l' & c1 & -> & Hext1). cbn [res_bind].
    destruct (IH c1 HR Hext1 Hfuel) as (segs' & c2 & -> & Hext2).
    cbn [res_bind]. by eexists _, _.
Qed.

End CopyReturns.

(** X23: in every reachable state [epoch_init(shuffle=True)] returns when
    the random source has a draw for every segment but one: the deep copy
    of the segments does not fail, and its recursion through
    ["reference_uttr"] is never deeper than a negative and its positive,
    which refers to itself. *)
Theorem shuffled_epoch_returns {tokenizer : Tokenizer}
  data cfg w0 sessions ds w :
  (0 <= config.history_len cfg)%Z ->
  reachable data cfg w0 sessions ds w ->
  length (_segments ds) - 1 <= length (w_draws w) ->
  exists ds' w',
    epoch_init true ds w = Ret (ds', w') /\
    w_draws w' = drop (length (_segments ds) - 1) (w_draws w).
Proof.
  intros Hh Hreach Hdraws.
  pose proof (reachable_ok _ _ _ _ _ _ Hh Hreach)
    as (_ & Hcat & Hinv & (mades & Hsegs & Hpts & Hok) & _).
  set (n0 := length (uttrs (w_store w0))) in *.
  set (m0 := length (metas (w_store w0))) in *.
  set (cells := tokenized_list (config.max_uttr_len cfg) (concat data) m0)
    in *.
  assert (Forall (fun seg => Forall (in_segments n0 cells mades)
                                    (utterances seg))
                 (_segments ds)) as HR.
  { rewrite Hsegs. by eapply segments_in_segments. }
  assert (exists copied c,
            deepcopy_segs (copy_fuel (w_store w)) (_segments ds)
                          (start_copy (w_store w)) = Ret (copied, c))
    as (copied & c & Hcopy).
  { destruct mades as [|p mades'] eqn:Emades.
    - rewrite Hsegs. by eexists _, _.
    - destruct (deepcopy_segs_returns n0 m0 cells
                  (cells_have_meta data cfg w0) (w_store w) Hinv
                  (p :: mades') Hok (copy_fuel (w_store w)) (_segments ds)
                  (start_copy (w_store w)) HR)
        as (copied & c & Hc & _); [by split | | by eauto].
      apply Forall_cons in Hok as [(i & j & pu & qu & m & Hp) _].
      destruct Hp as (_ & Hpu & _).
      apply lookup_lt_Some in Hpu.
      destruct Hinv as (_ & S2 & _). unfold copy_fuel. lia. }
  pose proof (length_deepcopy_segs _ _ _ _ _ Hcopy) as Hlen.
  destruct (shuffle_from_run (length copied - 1) copied (w_draws w))
    as [shuffled Hsh]; [lia |].
  unfold epoch_init, bind, deepcopy_segments. rewrite Hcopy.
  unfold random_shuffle. cbn [w_store w_draws]. rewrite Hsh.
  eexists _, _. split; [reflexivity |]. simpl. by rewrite Hlen.
Qed.

Lemma shuffled_epoch_returns_witness :
  (0 <= config.history_len sample_config)%Z /\
  length (_segments sample_source) - 1 <= length (w_draws sample_world') /\
  exists ds' w',
    @epoch_init true sample_source sample_world' = Ret (ds', w') /\
    w_draws w'
    = drop (length (_segments sample_source) - 1) (w_draws sample_world').
Proof.
  assert (0 <= config.history_len sample_config)%Z as H1
    by (vm_compute; discriminate).
  assert (length (_segments sample_source) - 1
          <= length (w_draws sample_world')) as H2 by (vm_compute; lia).
  split; [exact H1 |]. split; [exact H2 |].
  exact (@shuffled_epoch_returns sample_tokenizer sample_data sample_config
           sample_world sample_sessions sample_source sample_world' H1
           sample_source_reachable H2).
Defined.
